(** * Lumina: ratio resolution, response parsing and the local artifact store

    A shallow embedding of the pure and storage logic of the Lumina front-end
    ([services/geminiService.ts], [services/storageService.ts], the chat
    interface and the generator), with the properties its specification
    states about them, and with further properties of the same code and of
    the components that call it. *)

From Stdlib Require Import ZArith NArith List String Ascii Bool Lia QArith Qabs.
From Stdlib Require Import Floats.SpecFloat.
From Stdlib Require DecimalString DecimalN.
From stdpp Require Import gmap strings list.

Local Open Scope Z_scope.

(** ** [types.ts] *)

Inductive AspectRatio :=
| SQUARE          (* '1:1' *)
| PORTRAIT_3_4    (* '3:4' *)
| LANDSCAPE_4_3   (* '4:3' *)
| PORTRAIT_9_16   (* '9:16' *)
| LANDSCAPE_16_9. (* '16:9' *)

Inductive ImageSize :=
| K1  (* '1K' *)
| K2  (* '2K' *)
| K4. (* '4K' *)

(** ** JavaScript numbers

    A JS [number] is an IEEE 754 binary64 value; the operations are the ones
    of the standard library's executable specification of floating point,
    at precision 53 and maximal exponent 1024. *)

Module Number.

Definition prec : Z := 53.
Definition emax : Z := 1024.

Definition number := spec_float.

(** An integer literal, or an integer converted to a number. *)
Definition of_Z (z : Z) : number := binary_normalize prec emax z 0 false.

Definition div (x y : number) : number := SFdiv prec emax x y.
Definition sub (x y : number) : number := SFsub prec emax x y.
Definition abs (x : number) : number := SFabs x.
Definition ltb (x y : number) : bool := SFltb x y.
Definition eqb (x y : number) : bool := SFeqb x y.

(** [a > b] is [b < a], false as soon as one side is NaN. *)
Definition gtb (x y : number) : bool := SFltb y x.

Definition is_nan (x : number) : bool :=
  match x with S754_nan => true | _ => false end.

(** [Math.max(a, b)]: NaN if either is NaN, otherwise the larger one
    (+0 is larger than -0). *)
Definition max (x y : number) : number :=
  if is_nan x || is_nan y then S754_nan
  else match x, y with
       | S754_zero sx, S754_zero sy => S754_zero (sx && sy)
       | _, _ => if SFltb x y then y else x
       end.

End Number.

Import Number.

(** ** [services/geminiService.ts]: [getClosestAspectRatio] *)

Record RatioEntry := { r : number; val : AspectRatio }.

Definition ratios : list RatioEntry :=
  [ {| r := of_Z 1;                     val := SQUARE |};
    {| r := div (of_Z 3) (of_Z 4);      val := PORTRAIT_3_4 |};
    {| r := div (of_Z 4) (of_Z 3);      val := LANDSCAPE_4_3 |};
    {| r := div (of_Z 9) (of_Z 16);     val := PORTRAIT_9_16 |};
    {| r := div (of_Z 16) (of_Z 9);     val := LANDSCAPE_16_9 |} ].

(** [Array.prototype.reduce] without an initial value: the accumulator starts
    at the first element and the callback runs on the others, left to right.
    On the empty array it throws a TypeError ([None]). *)
Definition reduce {A} (f : A -> A -> A) (l : list A) : option A :=
  match l with
  | [] => None
  | x :: l' => Some (fold_left f l' x)
  end.

(** The distance the callback computes for a candidate. *)
Definition distance (ratio : number) (c : RatioEntry) : number :=
  abs (sub (r c) ratio).

Definition closer (ratio : number) (prev curr : RatioEntry) : RatioEntry :=
  if ltb (distance ratio curr) (distance ratio prev) then curr else prev.

Definition getClosestAspectRatio (width height : number) : AspectRatio :=
  let ratio := div width height in
  match reduce (closer ratio) ratios with
  | Some e => val e
  | None => SQUARE (* not reached: [ratios] has five entries *)
  end.

(** ** JavaScript strings and regular expressions

    A JS string is a sequence of UTF-16 code units.  The matcher follows the
    backtracking semantics of ECMAScript (continuation-passing matchers,
    RepeatMatcher, lookahead), for the constructs the sources use. *)

Module RegExp.

Definition char := N.
Definition jsstring := list char.

(** An ASCII literal as a JS string. *)
Definition js (s : string) : jsstring :=
  map N_of_ascii (list_ascii_of_string s).

Definition LF : char := 10%N.

Definition is_digit (ch : char) : bool := ((48 <=? ch) && (ch <=? 57))%N.

(** [\s], and the characters [trim] strips: WhiteSpace and LineTerminator. *)
Definition is_space (ch : char) : bool :=
  ((9 <=? ch) && (ch <=? 13) || (ch =? 32) || (ch =? 160) || (ch =? 5760)
   || ((8192 <=? ch) && (ch <=? 8202)) || (ch =? 8232) || (ch =? 8233)
   || (ch =? 8239) || (ch =? 8287) || (ch =? 12288) || (ch =? 65279))%N.

(** Canonicalize of a non-unicode, ignore-case pattern: upper-casing.  A
    code unit of 128 or more never canonicalizes to one below 128, and the
    patterns below hold ASCII characters only, so the mapping is written
    out on ASCII. *)
Definition Canonicalize (ignoreCase : bool) (ch : char) : char :=
  if ignoreCase && (97 <=? ch)%N && (ch <=? 122)%N then (ch - 32)%N else ch.

Inductive regex :=
| Empty
| Char (c : char)                       (* a pattern character *)
| CharSet (p : char -> bool)            (* a class: [..], \d, \s *)
| Seq (r1 r2 : regex)
| Alt (r1 r2 : regex)                   (* r1|r2 *)
| Quant (r : regex) (min : nat) (max : option nat) (greedy : bool)
| Group (i : nat) (r : regex)           (* capturing parentheses number i *)
| Lookahead (r : regex)                 (* (?=r) *)
| AssertStart                           (* ^, no multiline flag *)
| AssertEnd.                            (* $, no multiline flag *)

Arguments Char c%_N.

(** The state of a match: the index reached, the input from that index on,
    and the captures made so far (latest first). *)
Record MatchState := {
  endIndex : nat;
  rest : jsstring;
  captures : list (nat * jsstring)
}.

Definition with_captures (x : MatchState) (caps : list (nat * jsstring)) :=
  {| endIndex := endIndex x; rest := rest x; captures := caps |}.

Definition charMatches (ok : char -> bool) (x : MatchState)
    : option MatchState :=
  match rest x with
  | ch :: s' =>
      if ok ch then
        Some {| endIndex := S (endIndex x); rest := s'; captures := captures x |}
      else None
  | [] => None
  end.

(** RepeatMatcher: [m] matches the quantified atom, [c] is what follows the
quantifier.  An iteration beyond the minimum that consumes nothing is
rejected.  The fuel bounds the number of iterations; [min] plus the length
of the remaining input, plus one, is enough.  No pattern of the sources has
a group under a quantifier, so the reset of inner captures is not
modelled. *)
Fixpoint RepeatMatcher {R : Type}
    (m : MatchState -> (MatchState -> option R) -> option R) (greedy : bool)
    (c : MatchState -> option R) (fuel min : nat) (max : option nat)
    (x : MatchState) {struct fuel} : option R :=
  match fuel with
  | O => None
  | S fuel' =>
      match max with
      | Some O => c x
      | _ =>
          let d := fun y : MatchState =>
            if (min =? 0)%nat && (endIndex y =? endIndex x)%nat then None
            else RepeatMatcher m greedy c fuel' (Nat.pred min)
                   (option_map Nat.pred max) y in
          if negb (min =? 0)%nat then m x d
          else if greedy then
            match m x d with
            | Some z => Some z
            | None => c x
            end
          else
            match c x with
            | Some z => Some z
            | None => m x d
            end
      end
  end.

(** [matcher r x c]: match [r] at state [x], then run the continuation [c];
alternatives are tried in the priority order of the language. *)
Fixpoint matcher (R : Type) (ignoreCase : bool) (re : regex) (x : MatchState)
    (c : MatchState -> option R) {struct re} : option R :=
  match re with
  | Empty => c x
  | Char p =>
      match charMatches
              (fun ch => (Canonicalize ignoreCase ch =? Canonicalize ignoreCase p)%N) x with
      | Some y => c y
      | None => None
      end
  | CharSet p =>
      match charMatches p x with
      | Some y => c y
      | None => None
      end
  | Seq r1 r2 =>
      matcher R ignoreCase r1 x (fun y => matcher R ignoreCase r2 y c)
  | Alt r1 r2 =>
      match matcher R ignoreCase r1 x c with
      | Some z => Some z
      | None => matcher R ignoreCase r2 x c
      end
  | Quant r' min max greedy =>
      RepeatMatcher (matcher R ignoreCase r') greedy c
        (min + length (rest x) + 1)%nat min max x
  | Group i r' =>
      matcher R ignoreCase r' x (fun y =>
        c (with_captures y
             ((i, firstn (endIndex y - endIndex x) (rest x)) :: captures y)))
  | Lookahead r' =>
      match matcher MatchState ignoreCase r' x Some with
      | Some y => c (with_captures x (captures y))
      | None => None
      end
  | AssertStart => if (endIndex x =? 0)%nat then c x else None
  | AssertEnd => match rest x with [] => c x | _ => None end
  end.

(** The result array of a successful [exec]: where the match starts, the
    matched text (element 0) and the captures. *)
Record MatchResult := {
  index : nat;
  matched : jsstring;
  groups : list (nat * jsstring)
}.

(** Element [i >= 1] of a result array; [None] is [undefined]. *)
Fixpoint capture (i : nat) (caps : list (nat * jsstring)) : option jsstring :=
  match caps with
  | [] => None
  | (j, t) :: caps' => if (j =? i)%nat then Some t else capture i caps'
  end.

(** The search loop of [exec] from [lastIndex = i]: the first index, in
    increasing order, at which the pattern matches. *)
Fixpoint search (ignoreCase : bool) (re : regex) (i : nat) (s : jsstring)
    : option MatchResult :=
  match matcher MatchState ignoreCase re
          {| endIndex := i; rest := s; captures := [] |} Some with
  | Some y =>
      Some {| index := i; matched := firstn (endIndex y - i) s;
              groups := captures y |}
  | None =>
      match s with
      | [] => None
      | _ :: s' => search ignoreCase re (S i) s'
      end
  end.

(** [s.match(re)] for a pattern without the global flag. *)
Definition match_ (ignoreCase : bool) (re : regex) (s : jsstring)
    : option MatchResult :=
  search ignoreCase re 0 s.

(** [s.replace(re, '')] for a pattern without the global flag. *)
Definition replace_empty (ignoreCase : bool) (re : regex) (s : jsstring)
    : jsstring :=
  match match_ ignoreCase re s with
  | Some res => firstn (index res) s ++ skipn (index res + length (matched res)) s
  | None => s
  end.

(** [s.split(re)] for a pattern without capture groups.  [p] is the start
    of the piece being collected, [q] the index tried next; [acc] holds
    S[p..q) and [sq] holds S[q..]. *)
Fixpoint split_from (ignoreCase : bool) (re : regex) (fuel p q : nat)
    (acc sq : jsstring) : list jsstring :=
  match fuel with
  | O => [acc ++ sq]
  | S fuel' =>
      match sq with
      | [] => [acc]
      | ch :: sq' =>
          match matcher MatchState ignoreCase re
                  {| endIndex := q; rest := sq; captures := [] |} Some with
          | None => split_from ignoreCase re fuel' p (S q) (acc ++ [ch]) sq'
          | Some y =>
              if (endIndex y =? p)%nat
              then split_from ignoreCase re fuel' p (S q) (acc ++ [ch]) sq'
              else acc :: split_from ignoreCase re fuel' (endIndex y) (endIndex y)
                                     [] (rest y)
          end
      end
  end.

Definition split (ignoreCase : bool) (re : regex) (s : jsstring)
    : list jsstring :=
  match s with
  | [] =>
      match matcher MatchState ignoreCase re
              {| endIndex := 0; rest := []; captures := [] |} Some with
      | Some _ => []
      | None => [[]]
      end
  | _ => split_from ignoreCase re (2 * length s + 2) 0 0 [] s
  end.

(** [s.split(sep)] for a one-character separator string. *)
Fixpoint split_char (sep : char) (s : jsstring) : list jsstring :=
  match s with
  | [] => [[]]
  | ch :: s' =>
      if (ch =? sep)%N then [] :: split_char sep s'
      else match split_char sep s' with
           | piece :: pieces => (ch :: piece) :: pieces
           | [] => [[ch]]
           end
  end.

Fixpoint trimStart (s : jsstring) : jsstring :=
  match s with
  | ch :: s' => if is_space ch then trimStart s' else s
  | [] => []
  end.

Definition trimEnd (s : jsstring) : jsstring := rev (trimStart (rev s)).

Definition trim (s : jsstring) : jsstring := trimEnd (trimStart s).

(** Pattern combinators, named after the concrete syntax. *)
Definition text (s : string) : regex :=
  fold_right (fun ch re => Seq (Char ch) re) Empty (js s).
Fixpoint sequence (res : list regex) : regex :=
  match res with
  | [] => Empty
  | [re] => re
  | re :: res' => Seq re (sequence res')
  end.
Definition opt (re : regex) : regex := Quant re 0 (Some 1%nat) true.        (* r? *)
Definition star (re : regex) : regex := Quant re 0 None true.               (* r* *)
Definition plus (re : regex) : regex := Quant re 1 None true.               (* r+ *)
Definition star_lazy (re : regex) : regex := Quant re 0 None false.         (* r*? *)
Definition plus_lazy (re : regex) : regex := Quant re 1 None false.         (* r+? *)
Definition times (re : regex) (lo hi : nat) : regex :=
  Quant re lo (Some hi) true.                                               (* r{lo,hi} *)
Definition digit : regex := CharSet is_digit.                               (* \d *)
Definition space : regex := CharSet is_space.                               (* \s *)
Definition any : regex := CharSet (fun _ => true).                          (* [\s\S] *)

End RegExp.

Import RegExp.

(** ** [services/geminiService.ts]: [extractDimensionsFromPrompt] *)

(** [parseInt(s)] without a radix: leading white space is skipped, a sign is
    read, [0x] selects radix 16, and the longest prefix of digits gives the
    value; without any digit the result is NaN. *)
Module ParseInt.

Definition digit_value (radix : N) (ch : char) : option N :=
  let v := if is_digit ch then Some (ch - 48)%N
           else if ((97 <=? ch) && (ch <=? 122))%N then Some (ch - 87)%N
           else if ((65 <=? ch) && (ch <=? 90))%N then Some (ch - 55)%N
           else None in
  match v with
  | Some d => if (d <? radix)%N then Some d else None
  | None => None
  end.

(** The value of the longest prefix of digits, with the number of digits
    read. *)
Fixpoint digits_prefix (radix : N) (acc : N) (n : nat) (s : jsstring) : N * nat :=
  match s with
  | ch :: s' =>
      match digit_value radix ch with
      | Some d => digits_prefix radix (acc * radix + d)%N (S n) s'
      | None => (acc, n)
      end
  | [] => (acc, n)
  end.

Definition parseInt (s : jsstring) : number :=
  let s := trimStart s in
  let negative :=
    match s with
    | ch :: _ => (ch =? 45)%N                         (* - *)
    | [] => false
    end in
  let s :=
    match s with
    | ch :: s' => if ((ch =? 45) || (ch =? 43))%N then s' else s   (* - or + *)
    | [] => s
    end in
  let hex :=
    match s with
    | c0 :: c1 :: _ => ((c0 =? 48) && ((c1 =? 120) || (c1 =? 88)))%N  (* 0x, 0X *)
    | _ => false
    end in
  let radix := if hex then 16%N else 10%N in
  let s := if hex then skipn 2 s else s in
  match digits_prefix radix 0 0 s with
  | (_, O) => S754_nan
  | (v, _) =>
      binary_normalize prec emax (if negative then - Z.of_N v else Z.of_N v) 0 negative
  end.

End ParseInt.

Import ParseInt.

Record Dimensions := { width : number; height : number }.

(** /(\d{3,5})\s*(?:x|by)\s*(\d{3,5})/i *)
Definition dimensions_re : regex :=
  sequence [ Group 1 (times digit 3 5);
        star space;
        Alt (text "x") (text "by");
        star space;
        Group 2 (times digit 3 5) ].

Definition extractDimensionsFromPrompt (prompt : jsstring) : option Dimensions :=
  match match_ true dimensions_re prompt with
  | Some res =>
      match capture 1 (groups res), capture 2 (groups res) with
      | Some m1, Some m2 => Some {| width := parseInt m1; height := parseInt m2 |}
      | _, _ => Some {| width := S754_nan; height := S754_nan |} (* parseInt(undefined) *)
      end
  | None => None
  end.

(** ** The chat interface: the "Use Enhanced Prompt" handler and [extractStyles] *)

(** \*\*?name:?\*\*? : a label between one or two asterisks on each side,
with an optional colon. *)
Definition emphasised (name : string) : regex :=
  sequence [ Char 42; opt (Char 42); text name; opt (Char 58);
             Char 42; opt (Char 42) ].

(** \*\*?name : the start of an emphasised heading. *)
Definition heading (name : string) : regex :=
  sequence [ Char 42; opt (Char 42); text name ].

(** \n\s*(\*\*?Style|\*\*?Options|---|$) : what the lookahead of the pattern
below looks for. *)
Definition terminator_re : regex :=
  sequence [ Char LF; star space;
             Group 2
               (Alt (heading "Style")
               (Alt (heading "Options")
               (Alt (text "---")
                    AssertEnd))) ].

(** /\*\*?Enhanced Prompt:?\*\*?\s*([\s\S]+?)(?=\n\s*(\*\*?Style|\*\*?Options|---|$))/i *)
Definition enhanced_re : regex :=
  sequence [ emphasised "Enhanced Prompt";
             star space;
             Group 1 (plus_lazy any);
             Lookahead terminator_re ].

(** /Enhanced Prompt:?/i *)
Definition enhanced_label_re : regex :=
  sequence [text "Enhanced Prompt"; opt (Char 58)].

(** The text the handler hands to [onUsePrompt]; the empty string when it
hands over nothing ([extracted] stays ""). *)
Definition extractEnhancedPrompt (msg_text : jsstring) : jsstring :=
  let match1 :=                                        (* match && match[1] *)
    match match_ true enhanced_re msg_text with
    | Some res => capture 1 (groups res)
    | None => None
    end in
  match match1 with
  | Some (ch :: t) => trim (ch :: t)
  | _ =>
      let simpleMatch := nth_error (split true enhanced_label_re msg_text) 1 in
      match simpleMatch with
      | Some (ch :: t) => trim (ch :: t)               (* if (simpleMatch) *)
      | _ => []
      end
  end.

(** [\*\-•\d\.] *)
Definition is_bullet (ch : char) : bool :=
  ((ch =? 42) || (ch =? 45) || (ch =? 8226) || is_digit ch || (ch =? 46))%N.

(** /(?:\*\*?Style Suggestions:?\*\*?)([\s\S]*?)(?=$|---)/i *)
Definition styles_re : regex :=
  sequence [ emphasised "Style Suggestions";
             Group 1 (star_lazy any);
             Lookahead (Alt AssertEnd (text "---")) ].

(** /^[\*\-•\d\.]/ *)
Definition bullet_re : regex := sequence [AssertStart; CharSet is_bullet].

(** /^[\*\-•\d\.]+\s*/ *)
Definition bullet_prefix_re : regex :=
  sequence [AssertStart; plus (CharSet is_bullet); star space].

Definition is_Some_b {A} (o : option A) : bool :=
  match o with Some _ => true | None => false end.

Definition extractStyles (text : jsstring) : list jsstring :=
  match match_ true styles_re text with
  | Some res =>
      match capture 1 (groups res) with
      | Some (ch :: t) =>
          map (fun line => replace_empty false bullet_prefix_re line)
            (filter (fun line => is_Some_b (match_ false bullet_re line) = true)
               (map trim (split_char LF (ch :: t))))
      | _ => []                                         (* !styleMatch[1] *)
      end
  | None => []
  end.

(** ** [components/Generator.tsx]: sizing in [handleGenerate] *)

Module Generator.

(** The component state [handleGenerate] reads. *)
Record State := {
  prompt : jsstring;
  aspectRatio : AspectRatio;
  size : ImageSize;
  useCustomSize : bool;
  customWidth : number;
  customHeight : number
}.

(** What is passed on to [generateImage]. *)
Record Sizing := { finalAspectRatio : AspectRatio; finalSize : ImageSize }.

(** The part of [handleGenerate] between the empty-prompt guard and the
    call of [generateImage]; [None] is the early return on a blank prompt.
    The text appended to the prompt is left out. *)
Definition handleGenerate (st : State) : option Sizing :=
  match trim (prompt st) with
  | [] => None
  | _ =>
    if useCustomSize st then
      let finalAspectRatio := getClosestAspectRatio (customWidth st) (customHeight st) in
      let maxDim := Number.max (customWidth st) (customHeight st) in
      let finalSize :=
        if gtb maxDim (of_Z 2048) then K4
        else if gtb maxDim (of_Z 1024) then K2
        else K1 in
      Some {| finalAspectRatio := finalAspectRatio; finalSize := finalSize |}
    else
      match extractDimensionsFromPrompt (prompt st) with
      | Some extracted =>
          let finalAspectRatio :=
            getClosestAspectRatio (width extracted) (height extracted) in
          let maxDim := Number.max (width extracted) (height extracted) in
          let finalSize :=
            if gtb maxDim (of_Z 2048) then K4
            else if gtb maxDim (of_Z 1024) then K2
            else size st in
          Some {| finalAspectRatio := finalAspectRatio; finalSize := finalSize |}
      | None =>
          Some {| finalAspectRatio := aspectRatio st; finalSize := size st |}
      end
  end.

End Generator.

(** ** [services/storageService.ts] *)

Module Storage.

Inductive ItemType := GENERATED | EDITED | LOGO.

Record HistoryItem := {
  id : string;
  type : ItemType;
  base64 : string;
  prompt : string;
  timestamp : N;
  metadata : string
}.

Record SavedPrompt := {
  prompt_id : string;       (* id *)
  text : string;
  prompt_timestamp : N      (* timestamp *)
}.

(** An element of a stored array.  The two getters cast what [JSON.parse]
    returns without checking it, so an array may hold objects of either
    shape. *)
Inductive Obj :=
| Item (h : HistoryItem)
| Prompt (p : SavedPrompt).

Definition obj_id (o : Obj) : string :=
  match o with
  | Item h => id h
  | Prompt p => prompt_id p
  end.

(** The string held under a key of [localStorage], up to [JSON.parse]:
    either a non-empty string [JSON.parse] rejects, or the JSON text of an
    array of objects.  The application writes arrays only; the empty
    string, which the getters read as no value without parsing it, and
    the JSON documents that are not arrays are not modelled. *)
Inductive Text :=
| Unparsable
| ArrayJSON (l : list Obj).

Definition STORAGE_KEY : string := "lumina_history_v1".
Definition SAVED_PROMPTS_KEY : string := "lumina_saved_prompts_v1".
Definition MAX_ITEMS : nat := 30.

(** What an operation does to its environment, in order. *)
Inductive Event :=
| GetItem (key : string)
| SetItem (key : string) (value : Text) (stored : bool)
| RemoveItem (key : string)
| ConsoleError (msg : string).

Record World := {
  storage : gmap string Text;   (* localStorage *)
  ticks : nat;                  (* how many times the clock was read *)
  trace : list Event            (* latest first *)
}.

Inductive Exn := QuotaExceededError | SyntaxError.

Inductive Outcome (A : Type) :=
| Return (a : A)
| Throw (e : Exn).
Arguments Return {A} a.
Arguments Throw {A} e.

(** Computations that read and write the world and may throw. *)
Definition JS (A : Type) : Type := World -> Outcome A * World.

Definition ret {A} (a : A) : JS A := fun w => (Return a, w).

Definition bind {A B} (m : JS A) (k : A -> JS B) : JS B :=
  fun w =>
    match m w with
    | (Return a, w') => k a w'
    | (Throw e, w') => (Throw e, w')
    end.

Definition throw {A} (e : Exn) : JS A := fun w => (Throw e, w).

(** [try { body } catch (e) { handler }] *)
Definition try_catch {A} (body : JS A) (handler : Exn -> JS A) : JS A :=
  fun w =>
    match body w with
    | (Return a, w') => (Return a, w')
    | (Throw e, w') => handler e w'
    end.

Declare Scope js_scope.
Delimit Scope js_scope with js.
Notation "x <- m ;; k" := (bind m (fun x => k))
  (at level 100, m at next level, right associativity) : js_scope.
Notation "m ;; k" := (bind m (fun _ => k))
  (at level 100, right associativity) : js_scope.
Local Open Scope js_scope.

Definition emit (e : Event) : JS unit :=
  fun w => (Return tt,
            {| storage := storage w; ticks := ticks w; trace := e :: trace w |}).

Definition console_error (msg : string) : JS unit := emit (ConsoleError msg).

Definition getItem (key : string) : JS (option Text) :=
  emit (GetItem key);; fun w => (Return (storage w !! key), w).

Definition removeItem (key : string) : JS unit :=
  fun w => (Return tt,
            {| storage := delete key (storage w); ticks := ticks w;
               trace := RemoveItem key :: trace w |}).

(** [JSON.parse] *)
Definition JSON_parse (t : Text) : JS (list Obj) :=
  match t with
  | ArrayJSON l => ret l
  | Unparsable => throw SyntaxError
  end.

Section Environment.

(** The readings of the system clock, in the order they are taken. *)
Variable clock : nat -> N.

(** Whether the store accepts a write, given what it holds. *)
Variable quota : gmap string Text -> string -> Text -> bool.

Definition Date_now : JS N :=
  fun w => (Return (clock (ticks w)),
            {| storage := storage w; ticks := S (ticks w); trace := trace w |}).

(** [localStorage.setItem]: throws when the quota is exceeded, and then
    leaves the store as it was. *)
Definition setItem (key : string) (value : Text) : JS unit :=
  fun w =>
    if quota (storage w) key value then
      (Return tt,
       {| storage := <[key := value]> (storage w); ticks := ticks w;
          trace := SetItem key value true :: trace w |})
    else
      (Throw QuotaExceededError,
       {| storage := storage w; ticks := ticks w;
          trace := SetItem key value false :: trace w |}).

(** [n.toString()] for a non-negative integer. *)
Definition toString (n : N) : string :=
  DecimalString.NilEmpty.string_of_uint (N.to_uint n).

(** *** History *)

Definition getHistory : JS (list Obj) :=
  try_catch
    (stored <- getItem STORAGE_KEY;;
     match stored with
     | Some t => JSON_parse t
     | None => ret []
     end)
    (fun e => console_error "Failed to load history";; ret []).

Definition addToHistory (type : ItemType) (base64 prompt metadata : string)
    : JS unit :=
  try_catch
    (now_id <- Date_now;;
     now_ts <- Date_now;;
     let newItem :=
       {| id := toString now_id; type := type; base64 := base64;
          prompt := prompt; timestamp := now_ts; metadata := metadata |} in
     currentHistory <- getHistory;;
     (* Prepend new item and slice to max limit *)
     let updatedHistory := firstn MAX_ITEMS (Item newItem :: currentHistory) in
     setItem STORAGE_KEY (ArrayJSON updatedHistory))
    (fun e =>
       console_error "Failed to save to history. Storage might be full.";;
       (* Fallback: Try clearing oldest half if full *)
       try_catch
         (current <- getHistory;;
          if (5 <? length current)%nat then
            let half := firstn (length current / 2) current in
            setItem STORAGE_KEY (ArrayJSON half);;
            (* Retry adding *)
            now_id <- Date_now;;
            now_ts <- Date_now;;
            let retryHistory :=
              Item {| id := toString now_id; type := type; base64 := base64;
                      prompt := prompt; timestamp := now_ts;
                      metadata := metadata |} :: half in
            setItem STORAGE_KEY (ArrayJSON retryHistory)
          else ret tt)
         (fun retryError => console_error "Critical storage failure")).

Definition deleteHistoryItem (id : string) : JS unit :=
  try_catch
    (all <- getHistory;;
     let history := filter (fun item => obj_id item ≠ id) all in
     setItem STORAGE_KEY (ArrayJSON history))
    (fun e => console_error "Failed to delete item").

Definition clearAllHistory : JS unit := removeItem STORAGE_KEY.

(** *** Saved prompts *)

Definition getSavedPrompts : JS (list Obj) :=
  try_catch
    (stored <- getItem SAVED_PROMPTS_KEY;;
     match stored with
     | Some t => JSON_parse t
     | None => ret []
     end)
    (fun e => console_error "Failed to load saved prompts";; ret []).

Definition savePrompt (text : string) : JS unit :=
  try_catch
    (now_id <- Date_now;;
     now_ts <- Date_now;;
     let newPrompt :=
       {| prompt_id := toString now_id; text := text;
          prompt_timestamp := now_ts |} in
     current <- getSavedPrompts;;
     (* Add to top *)
     let updated := Prompt newPrompt :: current in
     setItem SAVED_PROMPTS_KEY (ArrayJSON updated))
    (fun e => console_error "Failed to save prompt").

Definition deleteSavedPrompt (id : string) : JS unit :=
  try_catch
    (all <- getSavedPrompts;;
     let current := filter (fun p => obj_id p ≠ id) all in
     setItem SAVED_PROMPTS_KEY (ArrayJSON current))
    (fun e => console_error "Failed to delete prompt").

End Environment.

End Storage.

(** ** [services/geminiService.ts]: error reporting and data URLs *)

Module Service.
Local Open Scope nat_scope.

(** [s.startsWith(t)] and [s.includes(t)] *)
Fixpoint startsWith (s t : jsstring) {struct t} : bool :=
  match t with
  | [] => true
  | c :: t' =>
      match s with
      | ch :: s' => (ch =? c)%N && startsWith s' t'
      | [] => false
      end
  end.

Fixpoint includes (s t : jsstring) : bool :=
  startsWith s t ||
  match s with
  | [] => false
  | _ :: s' => includes s' t
  end.

Inductive ModelType := Pro | Flash | Text.

(** The value caught.  [status] is [None] when the property is not a
number; [message] is empty when the property is missing or empty, which
[||] treats alike; [toString] is what [error.toString()] returns. *)
Record ErrorValue := {
  status : option number;
  message : jsstring;
  toString : jsstring
}.

(** How a call completes: normally, or by throwing an [Error] with a
message. *)
Inductive Completion (A : Type) :=
| Normal (a : A)
| Thrown (message : jsstring).
Arguments Normal {A} a.
Arguments Thrown {A} message.

Definition errorMessage (error : ErrorValue) : jsstring :=
  match message error with
  | [] => toString error
  | m => m
  end.

(** [error.status === code] *)
Definition status_is (error : ErrorValue) (code : Z) : bool :=
  match status error with
  | Some n => Number.eqb n (of_Z code)
  | None => false
  end.

Definition ACCESS_DENIED_PRO : jsstring :=
  js "Access Denied for Pro Model (403). This model likely requires a paid tier. Please switch to 'Flash (Free)' in the settings or check your API key billing.".

Definition ACCESS_DENIED : jsstring :=
  js "Access Denied (403). Please check if your API key is valid and has the Generative AI API enabled.".

Definition RATE_LIMIT : jsstring :=
  js "Rate limit exceeded (429). You are sending requests too quickly. Please wait a moment.".

(** The line written to the console first is left out. *)
Definition handleGeminiError (error : ErrorValue) (modelType : ModelType)
    : Completion unit :=
  let errorMessage := errorMessage error in
  let isPermissionError :=
    status_is error 403 || includes errorMessage (js "403")
    || includes errorMessage (js "PERMISSION_DENIED") in
  let isQuotaError :=
    status_is error 429 || includes errorMessage (js "429")
    || includes errorMessage (js "RESOURCE_EXHAUSTED") in
  if isPermissionError then
    match modelType with
    | Pro => Thrown ACCESS_DENIED_PRO
    | _ => Thrown ACCESS_DENIED
    end
  else if isQuotaError then Thrown RATE_LIMIT
  else Thrown errorMessage.

(** The [catch] blocks of [sendChatMessage], [generateImage] and
[editImage]: the value of the function when its body threw [error]. *)
Definition sendChatMessage_catch (error : ErrorValue) (useThinking : bool)
    : Completion jsstring :=
  match handleGeminiError error (if useThinking then Pro else Text) with
  | Thrown m => Thrown m
  | Normal _ => Normal []                                     (* return "" *)
  end.

Definition generateImage_catch (error : ErrorValue) (usePro : bool)
    : Completion jsstring :=
  match handleGeminiError error (if usePro then Pro else Flash) with
  | Thrown m => Thrown m
  | Normal _ => Normal []
  end.

Definition editImage_catch (error : ErrorValue) : Completion jsstring :=
  match handleGeminiError error Flash with
  | Thrown m => Thrown m
  | Normal _ => Normal []
  end.

(** [s.split(',')[1] || s]: the data of a data URL. *)
Definition cleanBase64 (s : jsstring) : jsstring :=
  match nth_error (split_char 44%N s) 1%nat with
  | Some (ch :: t) => ch :: t
  | _ => s
  end.

(** A part of a response: its text, and the data of its [inlineData]. *)
Record Part := { text : option jsstring; inlineData : option jsstring }.

(** The loop over the parts of the first candidate: the data URL built
from the first part that has [inlineData]; [None] when the loop ends
without one. *)
Fixpoint imageOf (parts : list Part) : option jsstring :=
  match parts with
  | [] => None
  | part :: parts' =>
      match inlineData part with
      | Some data => Some (js "data:image/png;base64," ++ data)
      | None => imageOf parts'
      end
  end.

(** [new Error(message)]; [toString()] gives the name alone when the message
is empty. *)
Definition Error (message : jsstring) : ErrorValue :=
  {| status := None; message := message;
     toString := match message with
                 | [] => js "Error"
                 | _ => js "Error: " ++ message
                 end |}.

Definition NO_IMAGE : jsstring := js "No image data received from Gemini.".

Definition NO_EDITED_IMAGE : jsstring :=
  js "No edited image returned. The model might have refused the edit or output text instead.".

(** The response, as far as the two functions read it; [None] is a property
that is [undefined]. *)
Record Content := { parts : option (list Part) }.
Record Candidate := { content : option Content }.
Record Response := { candidates : option (list Candidate) }.

Section Engine.

(** The message of the TypeError raised when the property named is read
from [undefined]; its wording is the engine's. *)
Variable cannotRead : string -> jsstring.

Definition TypeError (property : string) : ErrorValue :=
  {| status := None; message := cannotRead property;
     toString := match cannotRead property with
                 | [] => js "TypeError"
                 | m => js "TypeError: " ++ m
                 end |}.

(** [response.candidates && response.candidates[0].content.parts]: the value
tested, or the TypeError thrown on the way to it.  An empty array of
candidates has no first element, and reading its [content] throws. *)
Definition partsOf (response : Response) : ErrorValue + option (list Part) :=
  match candidates response with
  | None => inr None
  | Some [] => inl (TypeError "content")
  | Some (candidate :: _) =>
      match content candidate with
      | None => inl (TypeError "parts")
      | Some c => inr (parts c)
      end
  end.

(** The end of [generateImage] and of [editImage], from the response on:
the loop over the parts when there are parts, the [throw] after it, and
the [catch] block around both. *)
Definition generateImage_end (response : Response) (usePro : bool)
    : Completion jsstring :=
  match partsOf response with
  | inl error => generateImage_catch error usePro
  | inr ps =>
      match match ps with Some l => imageOf l | None => None end with
      | Some url => Normal url
      | None => generateImage_catch (Error NO_IMAGE) usePro
      end
  end.

Definition editImage_end (response : Response) : Completion jsstring :=
  match partsOf response with
  | inl error => editImage_catch error
  | inr ps =>
      match match ps with Some l => imageOf l | None => None end with
      | Some url => Normal url
      | None => editImage_catch (Error NO_EDITED_IMAGE)
      end
  end.

End Engine.

End Service.

(** ** The width and height fields *)

Module Fields.
Local Open Scope nat_scope.

Definition is_zero (x : number) : bool :=
  match x with S754_zero _ => true | _ => false end.

(** [parseInt(e.target.value) || 0]: the width and height fields of the
generator and of the free generator. *)
Definition dimensionField (value : jsstring) : number :=
  let n := parseInt value in
  if is_nan n || is_zero n then of_Z 0 else n.

End Fields.

(** ** [components/Generator.tsx]: the progress bar *)

Module Progress.
Local Open Scope nat_scope.

Definition plus (x y : number) : number := SFadd prec emax x y.

(** [a >= b] is [b <= a], false as soon as one side is NaN. *)
Definition geb (x y : number) : bool := SFleb y x.

(** [Math.min(a, b)]: NaN if either is NaN, otherwise the smaller one
(-0 is smaller than +0). *)
Definition min (x y : number) : number :=
  if is_nan x || is_nan y then S754_nan
  else match x, y with
       | S754_zero sx, S754_zero sy => S754_zero (sx || sy)
       | _, _ => if SFltb y x then y else x
       end.

(** The update the timer applies every 100 ms while an image is being
generated. *)
Definition tick (usePro : bool) (prev : number) : number :=
  if geb prev (of_Z 98) then prev
  else
    (* Pro model takes longer, so increment slower *)
    let increment :=
      if usePro then div (of_Z 1) (of_Z 2)           (* 0.5 *)
      else div (of_Z 5) (of_Z 2) in                  (* 2.5 *)
    min (plus prev increment) (of_Z 98).

(** The progress [n] ticks after the start, where it is set to 0. *)
Definition progressAfter (usePro : bool) (n : nat) : number :=
  Nat.iter n (tick usePro) (of_Z 0).

End Progress.

(** ** [handleEnhancePrompt], and the buttons of the chat *)

Module Enhance.
Import Service.
Local Open Scope nat_scope.

(** The value of [enhanced] in [handleEnhancePrompt] for a response: the
same two patterns as in the chat, but starting from the whole response. *)
Definition enhancedOf (response : jsstring) : jsstring :=
  let match1 :=                                        (* match && match[1] *)
    match match_ true enhanced_re response with
    | Some res => capture 1 (groups res)
    | None => None
    end in
  match match1 with
  | Some (ch :: t) => trim (ch :: t)
  | _ =>
      let simpleMatch := nth_error (split true enhanced_label_re response) 1 in
      match simpleMatch with
      | Some (ch :: t) => trim (ch :: t)               (* if (simpleMatch) *)
      | _ => response
      end
  end.

(** [handleEnhancePrompt] of the generator and of the free generator: the
prompt after the call, [sendChatMessage] being the service. *)
Definition handleEnhancePrompt
    (sendChatMessage : jsstring -> bool -> Completion jsstring)
    (prompt : jsstring) : jsstring :=
  match trim prompt with
  | [] => prompt                                       (* if (!prompt.trim()) return *)
  | _ =>
      let message :=
        js "Enhance this image generation prompt to be highly detailed, artistic, and descriptive. Input: "
        ++ [34%N] ++ prompt ++ [34%N] in
      match sendChatMessage message false with
      | Normal response =>
          match enhancedOf response with
          | [] => prompt                               (* if (enhanced) *)
          | enhanced => enhanced
          end
      | Thrown _ => prompt
      end
  end.

Inductive Role := user | model.

(** Whether the chat shows the two buttons under a message. *)
Definition isEnhancedMsg (role : Role) (text : jsstring) : bool :=
  match role with
  | model =>
      includes text (js "Enhanced Prompt:") || includes text (js "**Enhanced Prompt")
  | user => false
  end.

End Enhance.

(** ** The chat: [handleSend] *)

Module Chat.
Import Service Enhance.
Local Open Scope nat_scope.

Record ChatMessage := {
  id : string;
  role : Role;
  text : jsstring;
  timestamp : N
}.

(** The component state [handleSend] reads and sets. *)
Record State := {
  messages : list ChatMessage;
  input : jsstring;
  isLoading : bool;
  thinkingMode : bool
}.

Definition APOLOGY : jsstring :=
  js "Sorry, I encountered an error connecting to Gemini. Please try again.".

Section Send.

Variable clock : nat -> N.

(** The service: the history, the message and the mode it is called with
give its reply, or the error it throws. *)
Variable sendChatMessage :
  list (Role * jsstring) -> jsstring -> bool -> Completion jsstring.

(** [handleSend], from the click to the end of the [finally] block: the
state the updates leave, no other update coming in between.  The line
written to the console on an error is left out. *)
Definition handleSend (st : State) : Storage.JS State :=
  match trim (input st), isLoading st with
  | _ :: _, false =>
      Storage.bind (Storage.Date_now clock) (fun user_id =>
      Storage.bind (Storage.Date_now clock) (fun user_ts =>
      let userMsg :=
        {| id := Storage.toString user_id; role := user; text := input st;
           timestamp := user_ts |} in
      let history := map (fun m => (role m, text m)) (messages st) in
      let reply :=
        match sendChatMessage history (text userMsg) (thinkingMode st) with
        | Normal responseText => responseText
        | Thrown [] => APOLOGY                     (* error.message || "Sorry, ..." *)
        | Thrown message => message
        end in
      Storage.bind (Storage.Date_now clock) (fun bot_id =>
      Storage.bind (Storage.Date_now clock) (fun bot_ts =>
      let botMsg :=
        {| id := Storage.toString (bot_id + 1); role := model; text := reply;
           timestamp := bot_ts |} in
      Storage.ret
        {| messages := messages st ++ [userMsg; botMsg]; input := [];
           isLoading := false; thinkingMode := thinkingMode st |}))))
  | _, _ => Storage.ret st
  end.

End Send.
End Chat.

(** ** [components/History.tsx] and the saved-prompts panel of the chat:
the lists shown

The state of a panel is the list it shows; a handler takes it and returns
the list shown afterwards.  The toast of [handleSavePrompt] is left out. *)

Module Views.
Import Storage.
Local Open Scope js_scope.

Section Handlers.
Variable clock : nat -> N.
Variable quota : gmap string Text -> string -> Text -> bool.

Definition handleDelete (id : string) (items : list Obj) : JS (list Obj) :=
  deleteHistoryItem quota id;;
  ret (filter (fun i => obj_id i ≠ id) items).

Definition handleClearAll (confirmed : bool) (items : list Obj) : JS (list Obj) :=
  if confirmed then clearAllHistory;; ret [] else ret items.

Definition handleSavePrompt (text : string) : JS (list Obj) :=
  savePrompt clock quota text;; getSavedPrompts.

Definition handleDeletePrompt (id : string) (savedPrompts : list Obj)
    : JS (list Obj) :=
  deleteSavedPrompt quota id;;
  ret (filter (fun p => obj_id p ≠ id) savedPrompts).

End Handlers.
End Views.

(** ** [components/FreeGenerator.tsx], [components/LogoDesigner.tsx] and
[components/Editor.tsx]: what their handlers ask of the service *)

Module FreeGenerator.
Local Open Scope nat_scope.

Record State := { prompt : jsstring; width : number; height : number }.

(** The ratio and size [handleGenerate] passes to [generateImage], with
[usePro = false]; [None] is the early return on a blank prompt. *)
Definition handleGenerate (st : State) : option Generator.Sizing :=
  match trim (prompt st) with
  | [] => None
  | _ =>
      let ratio := getClosestAspectRatio (width st) (height st) in
      Some {| Generator.finalAspectRatio := ratio;
              Generator.finalSize := K1 |}    (* Size param ignored by Flash model *)
  end.

End FreeGenerator.

Module LogoDesigner.
Local Open Scope nat_scope.

Record State := {
  brandName : jsstring;
  additionalDetails : jsstring;
  useCustomSize : bool;
  customWidth : number;
  customHeight : number
}.

(** The ratio and size [handleGenerate] passes to [generateImage]; [None]
is the early return without a brand name. *)
Definition handleGenerate (st : State) : option Generator.Sizing :=
  match trim (brandName st) with
  | [] => None                                  (* "Brand Name is required" *)
  | _ =>
    if useCustomSize st then
      let finalRatio := getClosestAspectRatio (customWidth st) (customHeight st) in
      let maxDim := Number.max (customWidth st) (customHeight st) in
      let finalSize :=
        if gtb maxDim (of_Z 2048) then K4
        else if gtb maxDim (of_Z 1024) then K2
        else K1 in
      Some {| Generator.finalAspectRatio := finalRatio;
              Generator.finalSize := finalSize |}
    else
      (* Try to parse dimensions from details *)
      match extractDimensionsFromPrompt (additionalDetails st) with
      | Some extracted =>
          let finalRatio :=
            getClosestAspectRatio (width extracted) (height extracted) in
          let maxDim := Number.max (width extracted) (height extracted) in
          let finalSize :=
            if gtb maxDim (of_Z 2048) then K4
            else if gtb maxDim (of_Z 1024) then K2
            else K1 in
          Some {| Generator.finalAspectRatio := finalRatio;
                  Generator.finalSize := finalSize |}
      | None =>
          Some {| Generator.finalAspectRatio := SQUARE;
                  Generator.finalSize := K1 |}
      end
  end.

End LogoDesigner.

Module Editor.
Local Open Scope nat_scope.

Record State := {
  selectedImage : option jsstring;              (* null, or a data URL *)
  prompt : jsstring;
  useCustomSize : bool;
  customWidth : number;
  customHeight : number
}.

(** What [handleEdit] works out before it calls the service: the prompt it
works from, which is also the one it records in the history; the prompt it
passes to [editImage]; and the aspect ratio it passes, [None] for
[undefined]. *)
Record Request := {
  promptToUse : jsstring;
  finalPrompt : jsstring;
  aspectRatio : option AspectRatio
}.

Section Template.

(** The text of a number inside a template literal. *)
Variable numberToString : number -> jsstring.

(** [handleEdit] up to the call of [editImage]; [None] is the early return
without an image or with a blank prompt. *)
Definition handleEdit (promptOverride : option jsstring) (st : State)
    : option Request :=
  let prompt_to_use :=                          (* promptOverride || prompt *)
    match promptOverride with
    | Some (ch :: t) => ch :: t
    | _ => prompt st
    end in
  match selectedImage st, trim prompt_to_use with
  | Some (_ :: _), _ :: _ =>
      if useCustomSize st then
        Some {| promptToUse := prompt_to_use;
                finalPrompt :=
                  prompt_to_use ++ js " Output Resolution: "
                  ++ numberToString (customWidth st) ++ js "x"
                  ++ numberToString (customHeight st) ++ js "px.";
                aspectRatio :=
                  Some (getClosestAspectRatio (customWidth st) (customHeight st)) |}
      else
        (* Auto-detect dimensions from prompt *)
        Some {| promptToUse := prompt_to_use;
                finalPrompt := prompt_to_use;
                aspectRatio :=
                  match extractDimensionsFromPrompt prompt_to_use with
                  | Some extracted =>
                      Some (getClosestAspectRatio (width extracted)
                              (height extracted))
                  | None => None
                  end |}
  | _, _ => None
  end.

Definition watermarkPrompt : jsstring :=
  js "Remove all watermarks, text overlays, and transparency patterns from this image. Reconstruct the obscured areas using context from the surrounding pixels to make it look like the original raw image.".

Definition handleRemoveWatermark (st : State) : option Request :=
  handleEdit (Some watermarkPrompt) st.

End Template.

End Editor.

(** ** Notions used to state the properties *)

(** *** Ratio resolution *)

(** The ratio an enumeration member stands for, as an exact fraction. *)
Definition defining_ratio (a : AspectRatio) : Q :=
  match a with
  | SQUARE => 1
  | PORTRAIT_3_4 => 3 # 4
  | LANDSCAPE_4_3 => 4 # 3
  | PORTRAIT_9_16 => 9 # 16
  | LANDSCAPE_16_9 => 16 # 9
  end%Q.

(** The position of a member in the declaration of the enumeration. *)
Definition declaration_index (a : AspectRatio) : nat :=
  match a with
  | SQUARE => 0
  | PORTRAIT_3_4 => 1
  | LANDSCAPE_4_3 => 2
  | PORTRAIT_9_16 => 3
  | LANDSCAPE_16_9 => 4
  end%nat.

Definition exact_distance (w h : Z) (a : AspectRatio) : Q :=
  Qabs (defining_ratio a - inject_Z w / inject_Z h)%Q.

(** The specification's reading of "closest": [a] is at the least exact
    distance from [w/h], and no member at the same distance is declared
    before it. *)
Definition resolves_exactly (w h : Z) (a : AspectRatio) : Prop :=
  forall b : AspectRatio,
    (exact_distance w h a <= exact_distance w h b)%Q /\
    ((exact_distance w h b == exact_distance w h a)%Q ->
     (declaration_index a <= declaration_index b)%nat).

(** What the code computes: [b] is an entry of [P], no entry of [P] has a
    smaller computed distance to [ratio], and no entry before [b] has an
    equal one. *)
Definition first_closest (ratio : number) (P : list RatioEntry) (b : RatioEntry)
    : Prop :=
  exists P1 P2, P = P1 ++ b :: P2 /\
    (forall c, In c P -> ltb (distance ratio c) (distance ratio b) = false) /\
    (forall c, In c P1 -> eqb (distance ratio c) (distance ratio b) = false).

(** *** The store *)

Module StorageSpec.
Import Storage.

(** The array held under a key, as the getters read it. *)
Definition stored (key : string) (w : World) : list Obj :=
  match storage w !! key with
  | Some (ArrayJSON l) => l
  | _ => []
  end.

(** The arguments of one call of [addToHistory]. *)
Record Addition := {
  a_type : ItemType;
  a_base64 : string;
  a_prompt : string;
  a_metadata : string
}.

(** The item a call builds when its first clock reading is number [t]. *)
Definition newItem (clock : nat -> N) (t : nat) (a : Addition) : HistoryItem :=
  {| id := toString (clock t); type := a_type a; base64 := a_base64 a;
     prompt := a_prompt a; timestamp := clock (S t); metadata := a_metadata a |}.

(** The writes attempted so far, oldest first, each with whether the store
    took it. *)
Fixpoint attempts (tr : list Event) : list (Text * bool) :=
  match tr with
  | [] => []
  | SetItem _ v ok :: tr' => attempts tr' ++ [(v, ok)]
  | _ :: tr' => attempts tr'
  end.

Definition newest_half (h : list Obj) : list Obj := firstn (length h / 2) h.

(** Which key of the store an event concerns. *)
Definition event_key (e : Event) : option string :=
  match e with
  | GetItem k | SetItem k _ _ | RemoveItem k => Some k
  | ConsoleError _ => None
  end.

(** [m] is confined to the key [k]: whatever the world, the events it adds
    concern no other key, and the value under every other key stays. *)
Definition confined_to {A} (k : string) (m : JS A) : Prop :=
  forall w : World,
    (exists evs, trace (m w).2 = evs ++ trace w /\
       Forall (fun e => event_key e = None \/ event_key e = Some k) evs) /\
    (forall k', k' <> k -> storage (m w).2 !! k' = storage w !! k').

Definition unique_ids (l : list Obj) : Prop := NoDup (map obj_id l).

Section Runs.
Variable clock : nat -> N.
Variable quota : gmap string Text -> string -> Text -> bool.

Definition add (a : Addition) : JS unit :=
  addToHistory clock quota (a_type a) (a_base64 a) (a_prompt a) (a_metadata a).

(** The first write a call of [addToHistory] attempts in world [w]. *)
Definition first_write (a : Addition) (w : World) : Text :=
  ArrayJSON (firstn MAX_ITEMS
               (Item (newItem clock (ticks w) a) :: stored STORAGE_KEY w)).

(** The spec's reading of the quota fallback: after the failed write,
    the newest half is stored and the addition is tried once more. *)
Definition retried_once_after_halving (a : Addition) (w w' : World) : Prop :=
  exists retry ok,
    attempts (trace w') =
      attempts (trace w) ++
        [ (first_write a w, false);
          (ArrayJSON (newest_half (stored STORAGE_KEY w)), true);
          (retry, ok) ].

(** A run of additions, from the first of the list on. *)
Fixpoint addAll (adds : list Addition) (w : World) : World :=
  match adds with
  | [] => w
  | a :: adds' => addAll adds' (add a w).2
  end.

(** Whether every addition of the run was stored at its first write. *)
Fixpoint allAccepted (adds : list Addition) (w : World) : bool :=
  match adds with
  | [] => true
  | a :: adds' =>
      quota (storage w) STORAGE_KEY (first_write a w)
      && allAccepted adds' (add a w).2
  end.

(** The items the run builds, oldest first. *)
Fixpoint itemsAdded (adds : list Addition) (w : World) : list HistoryItem :=
  match adds with
  | [] => []
  | a :: adds' => newItem clock (ticks w) a :: itemsAdded adds' (add a w).2
  end.

(** The two add operations. *)
Inductive AddOp :=
| AddToHistory (a : Addition)
| SavePrompt (text : string).

Definition runOp (op : AddOp) : JS unit :=
  match op with
  | AddToHistory a => add a
  | SavePrompt text => savePrompt clock quota text
  end.

Fixpoint runOps (ops : list AddOp) (w : World) : World :=
  match ops with
  | [] => w
  | op :: ops' => runOps ops' (runOp op w).2
  end.

(** The next reading of the clock is later than every reading taken so
    far. *)
Definition advanced (w : World) : bool :=
  forallb (fun i => (clock i <? clock (ticks w))%N) (List.seq 0%nat (ticks w)).

(** The clock has advanced at the start of every operation of the run. *)
Fixpoint advancedBeforeEach (ops : list AddOp) (w : World) : bool :=
  match ops with
  | [] => true
  | op :: ops' => advanced w && advancedBeforeEach ops' (runOp op w).2
  end.

(** Every identifier under [k] is a reading of the clock taken before. *)
Definition ids_from_clock (k : string) (w : World) : Prop :=
  forall o, In o (stored k w) ->
    exists i, (i < ticks w)%nat /\ obj_id o = toString (clock i).

Definition ids_invariant (w : World) : Prop :=
  (unique_ids (stored STORAGE_KEY w) /\ ids_from_clock STORAGE_KEY w) /\
  (unique_ids (stored SAVED_PROMPTS_KEY w) /\ ids_from_clock SAVED_PROMPTS_KEY w).

End Runs.

(** Concrete environments for the examples: a clock that advances by one
    millisecond at every reading, a clock that stands still, a store that
    takes every write, one that takes none, and one that takes arrays of at
    most four objects. *)
Definition example_clock (n : nat) : N := (1700000000000 + N.of_nat n)%N.
Definition still_clock (n : nat) : N := 1700000000000%N.
Definition always_accepts (st : gmap string Text) (k : string) (v : Text) : bool :=
  true.
Definition never_accepts (st : gmap string Text) (k : string) (v : Text) : bool :=
  false.
Definition accepts_four (st : gmap string Text) (k : string) (v : Text) : bool :=
  match v with
  | ArrayJSON l => (length l <=? 4)%nat
  | Unparsable => true
  end.

Definition empty_world : World :=
  {| storage := ∅; ticks := 0; trace := [] |}.

Definition example_addition : Addition :=
  {| a_type := GENERATED; a_base64 := "data:image/png;base64,AAAA";
     a_prompt := "a cat"; a_metadata := "Pro" |}.

(** A world whose history holds two items, and one whose history holds six. *)
Definition small_world : World :=
  {| storage :=
       (addAll example_clock always_accepts (repeat example_addition 2)
          empty_world).(storage);
     ticks := 4; trace := [] |}.

Definition six_world : World :=
  {| storage :=
       (addAll example_clock always_accepts (repeat example_addition 6)
          empty_world).(storage);
     ticks := 12; trace := [] |}.

End StorageSpec.

(** *** Patterns *)

Module RegExpSpec.
Local Open Scope nat_scope.

(** What a pattern can match, whatever the priorities: [Matches ic re x y]
when [re] matches the input from state [x] and leaves state [y]. *)
Inductive Matches (ic : bool) : regex -> MatchState -> MatchState -> Prop :=
| M_Empty x : Matches ic Empty x x
| M_Char p x y :
    charMatches (fun ch => (Canonicalize ic ch =? Canonicalize ic p)%N) x = Some y ->
    Matches ic (Char p) x y
| M_CharSet p x y : charMatches p x = Some y -> Matches ic (CharSet p) x y
| M_Seq r1 r2 x y z :
    Matches ic r1 x y -> Matches ic r2 y z -> Matches ic (Seq r1 r2) x z
| M_Alt_l r1 r2 x y : Matches ic r1 x y -> Matches ic (Alt r1 r2) x y
| M_Alt_r r1 r2 x y : Matches ic r2 x y -> Matches ic (Alt r1 r2) x y
| M_Quant_done r min max g x :
    max = Some 0 \/ min = 0 -> Matches ic (Quant r min max g) x x
| M_Quant_step r min max g x y z :
    max <> Some 0 ->
    Matches ic r x y ->
    (min = 0 -> endIndex y <> endIndex x) ->
    Matches ic (Quant r (Nat.pred min) (option_map Nat.pred max) g) y z ->
    Matches ic (Quant r min max g) x z
| M_Group i r x y :
    Matches ic r x y ->
    Matches ic (Group i r) x
      (with_captures y ((i, firstn (endIndex y - endIndex x) (rest x)) :: captures y))
| M_Lookahead r x y :
    Matches ic r x y -> Matches ic (Lookahead r) x (with_captures x (captures y))
| M_AssertStart x : endIndex x = 0 -> Matches ic AssertStart x x
| M_AssertEnd x : rest x = [] -> Matches ic AssertEnd x x.

(** Two states at the same place of the input. *)
Definition same_place (x y : MatchState) : Prop :=
  endIndex x = endIndex y /\ rest x = rest y.

(** [y] is [x] after the characters [cs], with the same captures. *)
Definition segment (x y : MatchState) (cs : jsstring) : Prop :=
  rest x = cs ++ rest y /\ endIndex y = endIndex x + length cs /\
  captures y = captures x.

Definition advance (x : MatchState) (cs rest' : jsstring) : MatchState :=
  {| endIndex := endIndex x + length cs; rest := rest'; captures := captures x |}.

Definition same_char (ic : bool) (ch p : char) : Prop :=
  Canonicalize ic ch = Canonicalize ic p.

(** A literal: the characters of [l], up to case when case is ignored. *)
Definition same_text (ic : bool) (cs l : jsstring) : Prop :=
  map (Canonicalize ic) cs = map (Canonicalize ic) l.

(** The state in which the search loop tries index [i], [s] being the input
from there on. *)
Definition start (i : nat) (s : jsstring) : MatchState :=
  {| endIndex := i; rest := s; captures := [] |}.

(** *** The dimension pattern, in the words of the specification *)

(** The number a string of decimal digits denotes. *)
Definition decimal (d : jsstring) : N :=
  fold_left (fun acc ch => (acc * 10 + (ch - 48))%N) d 0%N.

Definition three_to_five_digits (d : jsstring) : Prop :=
  forallb is_digit d = true /\ 3 <= length d <= 5.

Definition whitespace (ws : jsstring) : Prop := forallb is_space ws = true.

Definition x_or_by (sep : jsstring) : Prop :=
  same_text true sep (js "x") \/ same_text true sep (js "by").

(** The pattern can match after [pre]: two numbers of three to five digits
stand there with the separator between them, whatever follows and whatever
the priorities of the pattern choose. *)
Definition dimensions_at (prompt pre d1 d2 : jsstring) : Prop :=
  exists ws1 sep ws2 post,
    prompt = pre ++ d1 ++ ws1 ++ sep ++ ws2 ++ d2 ++ post /\
    three_to_five_digits d1 /\ whitespace ws1 /\ x_or_by sep /\
    whitespace ws2 /\ three_to_five_digits d2.

(** A run of the class [p] ends before [post]: [post] does not start with a
character of [p]. *)
Definition ends_run (p : char -> bool) (post : jsstring) : Prop :=
  forall ch t, post = ch :: t -> p ch = false.

(** The reading the code makes at a place where [dimensions_at] holds: the
second number takes the digits that follow, up to five of them.  (The first
number is followed by white space, "x" or "by", so it is a whole run of
digits already.) *)
Definition dimensions_read (prompt pre d1 d2 : jsstring) : Prop :=
  exists ws1 sep ws2 post,
    prompt = pre ++ d1 ++ ws1 ++ sep ++ ws2 ++ d2 ++ post /\
    three_to_five_digits d1 /\ whitespace ws1 /\ x_or_by sep /\
    whitespace ws2 /\ three_to_five_digits d2 /\
    (length d2 = 5 \/ ends_run is_digit post).

End RegExpSpec.

(** *** Sections of a response, in the words of the specification *)

Module ResponseSpec.
Import RegExpSpec.
Local Open Scope nat_scope.

(** One or two asterisks. *)
Definition stars (cs : jsstring) : Prop := cs = [42%N] \/ cs = [42%N; 42%N].

Definition optional_stars (cs : jsstring) : Prop := cs = [] \/ stars cs.

Definition optional_colon (cs : jsstring) : Prop := cs = [] \/ cs = [58%N].

(** [name] in any case with an optional colon, between two emphasis marks. *)
Definition labelled (emphasis : jsstring -> Prop) (name : string) (cs : jsstring)
    : Prop :=
  exists s1 nm col s2,
    cs = s1 ++ nm ++ col ++ s2 /\ emphasis s1 /\ same_text true nm (js name) /\
    optional_colon col /\ emphasis s2.

(** A "---" or the end of the text. *)
Definition rule_or_end (tail : jsstring) : Prop :=
  tail = [] \/ exists t, tail = js "---" ++ t.

(** [text] holds, after [pre], a "Style Suggestions" label followed by
[body], and after [body] a "---" or nothing. *)
Definition styles_section (emphasis : jsstring -> Prop) (text pre body : jsstring)
    : Prop :=
  exists lab tail,
    text = pre ++ lab ++ body ++ tail /\
    labelled emphasis "Style Suggestions" lab /\ rule_or_end tail.

(** [body] stops at the first place, from its character number [from] on,
where what follows satisfies [is_end]. *)
Definition first_end (is_end : jsstring -> Prop) (from : nat)
    (body tail : jsstring) : Prop :=
  forall j, from <= j < length body -> ~ is_end (drop j (body ++ tail)).

(** The label ends in two asterisks when the text has two there. *)
Definition takes_both_stars (lab body : jsstring) : Prop :=
  (exists l, lab = l ++ js "**") \/ (forall t, body <> 42%N :: t).

(** The section the code reads: the label is as long as the text allows,
and [body] is as short as the text allows. *)
Definition styles_block (text pre body : jsstring) : Prop :=
  exists lab tail,
    text = pre ++ lab ++ body ++ tail /\
    labelled stars "Style Suggestions" lab /\ takes_both_stars lab body /\
    rule_or_end tail /\ first_end rule_or_end 0 body tail.

Fixpoint dropWhile (p : char -> bool) (s : jsstring) : jsstring :=
  match s with
  | ch :: s' => if p ch then dropWhile p s' else s
  | [] => []
  end.

Fixpoint takeWhile (p : char -> bool) (s : jsstring) : jsstring :=
  match s with
  | ch :: s' => if p ch then ch :: takeWhile p s' else []
  | [] => []
  end.

Definition starts_with_bullet (line : jsstring) : bool :=
  match line with
  | ch :: _ => is_bullet ch
  | [] => false
  end.

(** Without the leading run of bullet characters and the white space after it. *)
Definition strip_bullets (line : jsstring) : jsstring :=
  dropWhile is_space (dropWhile is_bullet line).

Definition style_lines (body : jsstring) : list jsstring :=
  map strip_bullets
    (filter (fun line => starts_with_bullet line = true)
       (map trim (split_char LF body))).

(** The start of a "Style" or "Options" heading between emphasis marks. *)
Definition heading_start (emphasis : jsstring -> Prop) (term : jsstring) : Prop :=
  exists s nm, term = s ++ nm /\ emphasis s /\
    (same_text true nm (js "Style") \/ same_text true nm (js "Options")).

(** What ends the enhanced prompt in the code: a line break, optional white
space, and then a heading, a "---" or the end of the text. *)
Definition terminator (tail : jsstring) : Prop :=
  exists ws term t,
    tail = [LF] ++ ws ++ term ++ t /\ whitespace ws /\
    (heading_start stars term \/ term = js "---" \/ (term = [] /\ t = [])).

(** [text] holds, after [pre], an emphasised "Enhanced Prompt" label,
optional white space, the non-empty [body], and a terminator. *)
Definition enhanced_section (text pre body : jsstring) : Prop :=
  exists lab ws tail,
    text = pre ++ lab ++ ws ++ body ++ tail /\
    labelled stars "Enhanced Prompt" lab /\ whitespace ws /\ body <> [] /\
    terminator tail.

(** A non-empty capture can be made in [r]: a terminator follows one of its
places after the first character. *)
Definition can_capture (r : jsstring) : Prop :=
  exists body tail, r = body ++ tail /\ body <> [] /\ terminator tail.

(** The section the code reads, after [pre]: the label, the white space
skipped, the non-empty [body] and a terminator.  The label takes its second
closing asterisk when a capture can be made after it; the white space
skipped is the longest after which a capture can be made; and [body] stops
at the first terminator after its first character. *)
Definition enhanced_block (text pre body : jsstring) : Prop :=
  exists s1 nm col s2 ws tail,
    text = pre ++ (s1 ++ nm ++ col ++ s2) ++ ws ++ body ++ tail /\
    stars s1 /\ same_text true nm (js "Enhanced Prompt") /\ optional_colon col /\
    stars s2 /\ whitespace ws /\ body <> [] /\ terminator tail /\
    (s2 = js "**" \/ forall t, ws ++ body ++ tail = 42%N :: t -> ~ can_capture t) /\
    (forall ws' r, body ++ tail = ws' ++ r -> ws' <> [] -> whitespace ws' ->
       ~ can_capture r) /\
    first_end terminator 1 body tail.

(** The fallback of the handler: the second piece of the text split at the
occurrences of "Enhanced Prompt" with an optional colon, trimmed. *)
Definition fallback (msg_text : jsstring) : jsstring :=
  match nth_error (split true enhanced_label_re msg_text) 1 with
  | Some (ch :: t) => trim (ch :: t)
  | _ => []
  end.

(** "Enhanced Prompt" occurs in the text, in any case. *)
Definition mentions_enhanced_prompt (msg : jsstring) : Prop :=
  exists pre nm post, msg = pre ++ nm ++ post /\
    same_text true nm (js "Enhanced Prompt").

(** [s] begins with "Enhanced Prompt", in any case. *)
Definition label_starts (s : jsstring) : Prop :=
  exists nm post, s = nm ++ post /\ same_text true nm (js "Enhanced Prompt").

(** No "Enhanced Prompt" begins within the first [n] characters of [s]. *)
Definition label_free (s : jsstring) (n : nat) : Prop :=
  forall j, j < n -> ~ label_starts (drop j s).

(** The separator takes the colon when one follows the label. *)
Definition colon_taken (col after : jsstring) : Prop :=
  col = [58%N] \/ (col = [] /\ forall t, after <> 58%N :: t).

(** [piece] is what follows the first "Enhanced Prompt" of [msg] and its
colon, up to the next "Enhanced Prompt" or to the end of the text. *)
Definition second_piece (msg piece : jsstring) : Prop :=
  exists a nm col rest',
    msg = a ++ nm ++ col ++ piece ++ rest' /\
    same_text true nm (js "Enhanced Prompt") /\
    label_free msg (length a) /\
    colon_taken col (piece ++ rest') /\
    label_free (piece ++ rest') (length piece) /\
    (rest' = [] \/ label_starts rest').

(** What ends the enhanced prompt in the words of the specification: the
end of the text, or a line break, optional white space, and then a "Style"
or "Options" heading with optional emphasis or a "---". *)
Definition claimed_end (tail : jsstring) : Prop :=
  tail = [] \/
  exists ws term t,
    tail = [LF] ++ ws ++ term ++ t /\ whitespace ws /\
    (heading_start optional_stars term \/ term = js "---").

(** The label takes the asterisks that follow it, up to two. *)
Definition stars_taken (s2 after : jsstring) : Prop :=
  s2 = js "**" \/ ((s2 = [] \/ s2 = [42%N]) /\ forall t, after <> 42%N :: t).

(** The section in the words of the specification: the emphasis is
optional, the label is the first "Enhanced Prompt" of the text, taken with
its colon and the asterisks after it, and [body] is all the text from there
to the first end. *)
Definition claimed_enhanced_section (text pre body : jsstring) : Prop :=
  exists s1 nm col s2 tail,
    text = pre ++ (s1 ++ nm ++ col ++ s2) ++ body ++ tail /\
    optional_stars s1 /\ same_text true nm (js "Enhanced Prompt") /\
    label_free text (length (pre ++ s1)) /\
    colon_taken col (s2 ++ body ++ tail) /\ stars_taken s2 (body ++ tail) /\
    claimed_end tail /\ first_end claimed_end 0 body tail.

(** The response of the specification's examples, and the same sections
under labels without emphasis. *)
Definition enhanced_example : jsstring :=
  js "**Enhanced Prompt:** A cat. " ++ [LF] ++ js "**Style Suggestions:**"
  ++ [LF] ++ js "* Anime".

Definition plain_enhanced_example : jsstring :=
  js "Enhanced Prompt: A cat." ++ [LF] ++ js "**Style Suggestions:**"
  ++ [LF] ++ js "* Anime".

Definition plain_styles_example : jsstring :=
  js "Style Suggestions:" ++ [LF] ++ js "* Anime".

End ResponseSpec.

(** *** Sequences of calls of the store *)

Module StoreRuns.
Import Storage StorageSpec.
Local Open Scope js_scope.

Inductive StoreOp :=
| GetHistory
| AddItem (a : Addition)
| DeleteItem (id : string)
| ClearAll
| GetPrompts
| SaveText (text : string)
| DeletePrompt (id : string).

Section Runs.
Variable clock : nat -> N.
Variable quota : gmap string Text -> string -> Text -> bool.

Definition call (op : StoreOp) : JS unit :=
  match op with
  | GetHistory => getHistory;; ret tt
  | AddItem a => add clock quota a
  | DeleteItem id => deleteHistoryItem quota id
  | ClearAll => clearAllHistory
  | GetPrompts => getSavedPrompts;; ret tt
  | SaveText text => savePrompt clock quota text
  | DeletePrompt id => deleteSavedPrompt quota id
  end.

Fixpoint calls (ops : list StoreOp) (w : World) : World :=
  match ops with
  | [] => w
  | op :: ops' => calls ops' (call op w).2
  end.

(** The prompt a call of [savePrompt] builds when its first clock reading
is number [t]. *)
Definition newPrompt (t : nat) (text : string) : SavedPrompt :=
  {| prompt_id := toString (clock t); text := text;
     prompt_timestamp := clock (S t) |}.

End Runs.
End StoreRuns.

(** *** The text of a number *)

(** [String(n)] for a number whose value is an integer below 10^21, for
the infinities and for NaN: the instance of the text of a number used in
the examples. *)
Definition integer_text (n : number) : jsstring :=
  let digits (z : Z) :=
    js (DecimalString.NilEmpty.string_of_uint (N.to_uint (Z.to_N z))) in
  match n with
  | S754_zero _ => js "0"
  | S754_infinity s => (if s then js "-" else []) ++ js "Infinity"
  | S754_nan => js "NaN"
  | S754_finite s m e =>
      (if s then js "-" else [])
      ++ digits (if (0 <=? e)%Z then Z.shiftl (Z.pos m) e
                 else Z.shiftr (Z.pos m) (- e))
  end.

(** *** Occurrences *)

Module ServiceSpec.
Local Open Scope nat_scope.
Import Service.

(** [t] occurs in [s]. *)
Definition occurs (t : string) (s : jsstring) : Prop :=
  exists pre post, s = pre ++ js t ++ post.

Definition comma : char := 44%N.

(** A message that holds none of the codes [handleGeminiError] looks for. *)
Definition without_codes (m : jsstring) : Prop :=
  ~ occurs "403" m /\ ~ occurs "PERMISSION_DENIED" m /\
  ~ occurs "429" m /\ ~ occurs "RESOURCE_EXHAUSTED" m.

(** The response can be read and holds no image: it has no candidates
property, or its first candidate has a content whose parts are missing or
all without [inlineData]. *)
Definition no_image (response : Response) : Prop :=
  candidates response = None \/
  exists c cs body,
    candidates response = Some (c :: cs) /\ content c = Some body /\
    forall ps, parts body = Some ps -> Forall (fun p => inlineData p = None) ps.

(** The response cannot be read: [property] is read from [undefined],
because the array of candidates is empty or the first candidate has no
content. *)
Definition unreadable (response : Response) (property : string) : Prop :=
  (candidates response = Some [] /\ property = "content"%string) \/
  (exists c cs, candidates response = Some (c :: cs) /\ content c = None /\
     property = "parts"%string).

(** The wording of one engine, for the examples. *)
Definition v8_message (property : string) : jsstring :=
  js "Cannot read properties of undefined (reading '" ++ js property ++ js "')".

End ServiceSpec.

(** *** The course of the progress bar *)

Module ProgressSpec.
Local Open Scope nat_scope.

(** The same number, written the same way. *)
Definition same (x y : number) : bool :=
  match x, y with
  | S754_zero sx, S754_zero sy => Bool.eqb sx sy
  | S754_infinity sx, S754_infinity sy => Bool.eqb sx sy
  | S754_nan, S754_nan => true
  | S754_finite sx mx ex, S754_finite sy my ey =>
      Bool.eqb sx sy && (mx =? my)%positive && (ex =? ey)%Z
  | _, _ => false
  end.

(** [m / 2] *)
Definition halves (m : nat) : number := div (of_Z (Z.of_nat m)) (of_Z 2).

(** The number of ticks after which the bar stalls, and the progress of one
tick in halves of a percent. *)
Definition stall (usePro : bool) : nat := if usePro then 196 else 40.
Definition pace (usePro : bool) : nat := if usePro then 1 else 5.

End ProgressSpec.

(** * Properties *)

(** ** Ratio resolution *)

(** The order on numbers, as the comparisons of the code see it. *)
Section NumberOrder.

Ltac compare_cases :=
  repeat match goal with
  | H : context [ (?a ?= ?b)%Z ] |- _ =>
      let E := fresh "E" in destruct (Z.compare_spec a b) as [E|E|E]; simpl in H
  | |- context [ (?a ?= ?b)%Z ] =>
      let E := fresh "E" in destruct (Z.compare_spec a b) as [E|E|E]; simpl
  | H : context [ Pos.compare_cont Eq ?a ?b ] |- _ =>
      change (Pos.compare_cont Eq a b) with (Pos.compare a b) in H;
      let E := fresh "E" in destruct (Pos.compare_spec a b) as [E|E|E]; simpl in H
  | |- context [ Pos.compare_cont Eq ?a ?b ] =>
      change (Pos.compare_cont Eq a b) with (Pos.compare a b);
      let E := fresh "E" in destruct (Pos.compare_spec a b) as [E|E|E]; simpl
  end.

Ltac by_cases x y z :=
  destruct x as [[]|[]| |[] ? ?], y as [[]|[]| |[] ? ?], z as [[]|[]| |[] ? ?];
  simpl; try discriminate; try reflexivity; intros;
  compare_cases; try discriminate; try reflexivity; subst; try lia.

Lemma ltb_irrefl x : ltb x x = false.
Proof.
  unfold ltb, SFltb.
  destruct x as [[]|[]| |[] m e]; simpl; try reflexivity;
    rewrite Z.compare_refl, Pos.compare_cont_refl; reflexivity.
Qed.

Lemma ltb_trans x y z : ltb x y = true -> ltb y z = true -> ltb x z = true.
Proof. unfold ltb, SFltb. by_cases x y z. Qed.

Lemma eqb_ltb x y z : eqb x y = true -> ltb y z = true -> ltb x z = true.
Proof. unfold eqb, ltb, SFeqb, SFltb. by_cases x y z. Qed.

End NumberOrder.

Section Closest.

Variable ratio : number.

Lemma first_closest_step P b curr :
  first_closest ratio P b ->
  first_closest ratio (P ++ [curr]) (closer ratio b curr).
Proof.
  intros (P1 & P2 & -> & Hmin & Hfirst). unfold closer.
  destruct (ltb (distance ratio curr) (distance ratio b)) eqn:Hlt.
  - exists (P1 ++ b :: P2), []. split; [reflexivity|]. split.
    + intros c Hc. apply in_app_or in Hc as [Hc | [<- | []]].
      * destruct (ltb (distance ratio c) (distance ratio curr)) eqn:Hc';
          [|reflexivity].
        rewrite <- (Hmin c Hc). symmetry. exact (ltb_trans _ _ _ Hc' Hlt).
      * apply ltb_irrefl.
    + intros c Hc.
      destruct (eqb (distance ratio c) (distance ratio curr)) eqn:Hc';
        [|reflexivity].
      rewrite <- (Hmin c Hc). symmetry. exact (eqb_ltb _ _ _ Hc' Hlt).
  - exists P1, (P2 ++ [curr]). split; [now rewrite <- app_assoc|]. split.
    + intros c Hc. apply in_app_or in Hc as [Hc | [<- | []]]; auto.
    + exact Hfirst.
Qed.

Lemma first_closest_fold l : forall P b,
  first_closest ratio P b ->
  first_closest ratio (P ++ l) (fold_left (closer ratio) l b).
Proof.
  induction l as [|curr l IH]; intros P b H; simpl.
  - now rewrite app_nil_r.
  - replace (P ++ curr :: l) with ((P ++ [curr]) ++ l)
      by now rewrite <- app_assoc.
    apply IH, first_closest_step, H.
Qed.

Lemma first_closest_reduce x l :
  exists e, reduce (closer ratio) (x :: l) = Some e /\
            first_closest ratio (x :: l) e.
Proof.
  eexists. split; [reflexivity|].
  apply (first_closest_fold l [x] x).
  exists [], []. split; [reflexivity|]. split.
  - intros c [<- | []]. apply ltb_irrefl.
  - intros c [].
Qed.

End Closest.

(** C1, as stated, fails: 1400/1200 = 7/6 lies exactly half-way between 1
    and 4/3, the two candidates are at the same exact distance 1/6, and the
    result is 4:3 although 1:1 is declared first. *)
Lemma getClosestAspectRatio_exact_tie_counterexample :
  ~ resolves_exactly 1400 1200 (getClosestAspectRatio (of_Z 1400) (of_Z 1200)).
Proof.
  replace (getClosestAspectRatio (of_Z 1400) (of_Z 1200)) with LANDSCAPE_4_3
    by (vm_compute; reflexivity).
  intros H. destruct (H SQUARE) as [_ Htie].
  assert (Heq : (exact_distance 1400 1200 SQUARE ==
                 exact_distance 1400 1200 LANDSCAPE_4_3)%Q)
    by (vm_compute; reflexivity).
  specialize (Htie Heq). simpl in Htie. lia.
Qed.

(** C1, amended: for all numbers [w] and [h], [getClosestAspectRatio w h] is
    the value of the table entry that is first among the entries at the
    least distance [|r - w/h|] as computed in double precision; and the
    three stated results hold. *)
Theorem getClosestAspectRatio_computed_closest (w h : number) :
  (exists e, val e = getClosestAspectRatio w h /\
             first_closest (div w h) ratios e) /\
  getClosestAspectRatio (of_Z 1024) (of_Z 1024) = SQUARE /\
  getClosestAspectRatio (of_Z 1920) (of_Z 1080) = LANDSCAPE_16_9 /\
  getClosestAspectRatio (of_Z 768) (of_Z 1024) = PORTRAIT_3_4.
Proof.
  split; [|repeat split; vm_compute; reflexivity].
  unfold getClosestAspectRatio, ratios.
  match goal with
  | |- context [reduce _ (?x :: ?l)] =>
      destruct (first_closest_reduce (div w h) x l) as (e & -> & He)
  end.
  exists e. split; [reflexivity | exact He].
Qed.

(** ** Size tier *)

(** C2: the code at the failing input.  With 4K selected and the prompt
    "poster 800x600", the extracted-dimensions branch keeps 4K (the branch
    has no [else]), where the custom-size branch sets 1K for the same
    dimensions. *)
Theorem handleGenerate_extracted_small_keeps_selected_size :
  Generator.handleGenerate
    {| Generator.prompt := js "poster 800x600";
       Generator.aspectRatio := SQUARE; Generator.size := K4;
       Generator.useCustomSize := false;
       Generator.customWidth := of_Z 1024; Generator.customHeight := of_Z 1024 |}
  = Some {| Generator.finalAspectRatio := LANDSCAPE_4_3;
            Generator.finalSize := K4 |} /\
  Generator.handleGenerate
    {| Generator.prompt := js "poster";
       Generator.aspectRatio := SQUARE; Generator.size := K4;
       Generator.useCustomSize := true;
       Generator.customWidth := of_Z 800; Generator.customHeight := of_Z 600 |}
  = Some {| Generator.finalAspectRatio := LANDSCAPE_4_3;
            Generator.finalSize := K1 |}.
Proof. split; vm_compute; reflexivity. Qed.

(** ** Dimensions in a prompt: the stated cases *)

(** C8, as stated, fails: "a 4x4 grid" gives no match. *)
Lemma extractDimensions_4x4_counterexample :
  extractDimensionsFromPrompt (js "a 4x4 grid")
  <> Some {| width := of_Z 4; height := of_Z 4 |}.
Proof. vm_compute. discriminate. Qed.

(** C8, amended: "a 4x4 grid" gives no match (a number needs three digits),
    and "1000 by 1000 pixels wide" gives 1000 by 1000. *)
Theorem extractDimensions_stated_cases :
  extractDimensionsFromPrompt (js "a 4x4 grid") = None /\
  extractDimensionsFromPrompt (js "1000 by 1000 pixels wide")
  = Some {| width := of_Z 1000; height := of_Z 1000 |}.
Proof. split; vm_compute; reflexivity. Qed.

(** ** The store *)

Module StorageProofs.
Import Storage StorageSpec.
Local Open Scope js_scope.
Local Open Scope nat_scope.

(** *** Frame: each operation is confined to its key *)

Section Frame.
Variable clock : nat -> N.
Variable quota : gmap string Text -> string -> Text -> bool.
Variable k : string.

Lemma confined_ret A (a : A) : confined_to k (ret a).
Proof.
  intros w. split; [exists []; split; [reflexivity | constructor] | reflexivity].
Qed.

Lemma confined_throw A e : confined_to k (@throw A e).
Proof.
  intros w. split; [exists []; split; [reflexivity | constructor] | reflexivity].
Qed.

Lemma confined_bind A B (m : JS A) (f : A -> JS B) :
  confined_to k m -> (forall a, confined_to k (f a)) -> confined_to k (bind m f).
Proof.
  intros Hm Hf w. unfold bind.
  destruct (Hm w) as [(evs & Hevs & Hall) Hst].
  destruct (m w) as [[a | e] w1]; simpl in *.
  - destruct (Hf a w1) as [(evs' & Hevs' & Hall') Hst']. split.
    + exists (evs' ++ evs). rewrite Hevs', Hevs, app_assoc.
      split; [reflexivity|]. apply Forall_app; auto.
    + intros k' Hk'. rewrite Hst', Hst; auto.
  - split; eauto.
Qed.

Lemma confined_try_catch A (m : JS A) (h : Exn -> JS A) :
  confined_to k m -> (forall e, confined_to k (h e)) ->
  confined_to k (try_catch m h).
Proof.
  intros Hm Hh w. unfold try_catch.
  destruct (Hm w) as [(evs & Hevs & Hall) Hst].
  destruct (m w) as [[a | e] w1]; simpl in *.
  - split; eauto.
  - destruct (Hh e w1) as [(evs' & Hevs' & Hall') Hst']. split.
    + exists (evs' ++ evs). rewrite Hevs', Hevs, app_assoc.
      split; [reflexivity|]. apply Forall_app; auto.
    + intros k' Hk'. rewrite Hst', Hst; auto.
Qed.

Lemma confined_emit e :
  event_key e = None \/ event_key e = Some k -> confined_to k (emit e).
Proof.
  intros He w. split; [exists [e]; split; [reflexivity | auto] | reflexivity].
Qed.

Lemma confined_console_error msg : confined_to k (console_error msg).
Proof. apply confined_emit. left. reflexivity. Qed.

Lemma confined_getItem : confined_to k (getItem k).
Proof.
  apply confined_bind; [apply confined_emit; right; reflexivity|].
  intros _ w. split; [exists []; split; [reflexivity | constructor] | reflexivity].
Qed.

Lemma confined_setItem v : confined_to k (setItem quota k v).
Proof.
  intros w. unfold setItem. destruct (quota (storage w) k v); simpl.
  - split; [eexists [_]; split;
             [reflexivity | repeat constructor; right; reflexivity]|].
    intros k' Hk'. apply lookup_insert_ne; congruence.
  - split; [eexists [_]; split;
             [reflexivity | repeat constructor; right; reflexivity]|].
    reflexivity.
Qed.

Lemma confined_removeItem : confined_to k (removeItem k).
Proof.
  intros w. simpl.
  split; [eexists [_]; split;
           [reflexivity | repeat constructor; right; reflexivity]|].
  intros k' Hk'. apply lookup_delete_ne; congruence.
Qed.

Lemma confined_Date_now : confined_to k (Date_now clock).
Proof.
  intros w. split; [exists []; split; [reflexivity | constructor] | reflexivity].
Qed.

Lemma confined_JSON_parse t : confined_to k (JSON_parse t).
Proof. destruct t; [apply confined_throw | apply confined_ret]. Qed.

End Frame.

Create HintDb frame.
#[local] Hint Resolve confined_ret confined_throw confined_console_error
  confined_getItem confined_setItem confined_removeItem confined_Date_now
  confined_JSON_parse : frame.

Ltac confine :=
  repeat first
    [ solve [auto with frame]
    | match goal with
      | |- confined_to _ (try_catch _ _) => apply confined_try_catch
      | |- confined_to _ (bind _ _) => apply confined_bind
      | |- forall _, confined_to _ _ => intros ?
      | |- confined_to _ (match ?x with _ => _ end) => destruct x
      end ].

Lemma getHistory_confined : confined_to STORAGE_KEY getHistory.
Proof. unfold getHistory. confine. Qed.

Lemma addToHistory_confined clock quota ty b p md :
  confined_to STORAGE_KEY (addToHistory clock quota ty b p md).
Proof. pose proof getHistory_confined. unfold addToHistory. confine. Qed.

Lemma deleteHistoryItem_confined quota id :
  confined_to STORAGE_KEY (deleteHistoryItem quota id).
Proof. pose proof getHistory_confined. unfold deleteHistoryItem. confine. Qed.

Lemma clearAllHistory_confined : confined_to STORAGE_KEY clearAllHistory.
Proof. unfold clearAllHistory. confine. Qed.

Lemma getSavedPrompts_confined : confined_to SAVED_PROMPTS_KEY getSavedPrompts.
Proof. unfold getSavedPrompts. confine. Qed.

Lemma savePrompt_confined clock quota text :
  confined_to SAVED_PROMPTS_KEY (savePrompt clock quota text).
Proof. pose proof getSavedPrompts_confined. unfold savePrompt. confine. Qed.

Lemma deleteSavedPrompt_confined quota id :
  confined_to SAVED_PROMPTS_KEY (deleteSavedPrompt quota id).
Proof. pose proof getSavedPrompts_confined. unfold deleteSavedPrompt. confine. Qed.

Lemma keys_differ : STORAGE_KEY <> SAVED_PROMPTS_KEY.
Proof. discriminate. Qed.

Lemma confined_keeps A (k k' : string) (m : JS A) (w : World) :
  confined_to k m -> k' <> k -> stored k' (m w).2 = stored k' w.
Proof. intros Hm Hk. unfold stored. now rewrite (proj2 (Hm w) k' Hk). Qed.

(** C10: the four history operations add events on the history key only
    and leave every other key, hence the saved prompts, as they were; the
    three saved-prompt operations do the same with the saved-prompts key
    and leave the history as it was. *)
Theorem history_and_saved_prompts_are_framed
    (clock : nat -> N) (quota : gmap string Text -> string -> Text -> bool)
    (w : World) (ty : ItemType) (b p md id text : string) :
  (confined_to STORAGE_KEY getHistory /\
   confined_to STORAGE_KEY (addToHistory clock quota ty b p md) /\
   confined_to STORAGE_KEY (deleteHistoryItem quota id) /\
   confined_to STORAGE_KEY clearAllHistory) /\
  (stored SAVED_PROMPTS_KEY (getHistory w).2 = stored SAVED_PROMPTS_KEY w /\
   stored SAVED_PROMPTS_KEY (addToHistory clock quota ty b p md w).2
     = stored SAVED_PROMPTS_KEY w /\
   stored SAVED_PROMPTS_KEY (deleteHistoryItem quota id w).2
     = stored SAVED_PROMPTS_KEY w /\
   stored SAVED_PROMPTS_KEY (clearAllHistory w).2 = stored SAVED_PROMPTS_KEY w) /\
  (confined_to SAVED_PROMPTS_KEY getSavedPrompts /\
   confined_to SAVED_PROMPTS_KEY (savePrompt clock quota text) /\
   confined_to SAVED_PROMPTS_KEY (deleteSavedPrompt quota id)) /\
  (stored STORAGE_KEY (getSavedPrompts w).2 = stored STORAGE_KEY w /\
   stored STORAGE_KEY (savePrompt clock quota text w).2 = stored STORAGE_KEY w /\
   stored STORAGE_KEY (deleteSavedPrompt quota id w).2 = stored STORAGE_KEY w).
Proof.
  pose proof keys_differ as Hk.
  assert (Hk' : SAVED_PROMPTS_KEY <> STORAGE_KEY) by congruence.
  pose proof getHistory_confined.
  pose proof (addToHistory_confined clock quota ty b p md).
  pose proof (deleteHistoryItem_confined quota id).
  pose proof clearAllHistory_confined.
  pose proof getSavedPrompts_confined.
  pose proof (savePrompt_confined clock quota text).
  pose proof (deleteSavedPrompt_confined quota id).
  repeat match goal with |- _ /\ _ => split end; try assumption;
    first [ apply (confined_keeps _ STORAGE_KEY); assumption
          | apply (confined_keeps _ SAVED_PROMPTS_KEY); assumption ].
Qed.

(** *** What the operations do to the store *)

Ltac run_js :=
  cbv beta iota zeta delta
    [add addToHistory savePrompt deleteHistoryItem deleteSavedPrompt
     clearAllHistory getHistory getSavedPrompts try_catch bind ret throw
     Date_now getItem setItem removeItem emit console_error JSON_parse
     storage ticks trace fst snd a_type a_base64 a_prompt a_metadata].

Ltac run_cases E :=
  run_js; rewrite ?E; run_js;
  repeat (match goal with
          | |- context [if ?c then _ else _] => destruct c eqn:?
          end; run_js; rewrite ?E; run_js).

Section Effects.
Variable clock : nat -> N.
Variable quota : gmap string Text -> string -> Text -> bool.

Lemma getHistory_run w :
  (getHistory w).1 = Return (stored STORAGE_KEY w) /\
  storage (getHistory w).2 = storage w /\ ticks (getHistory w).2 = ticks w.
Proof.
  unfold stored. destruct w as [st tk tr]. run_js.
  destruct (st !! STORAGE_KEY) as [[|l]|]; run_js; auto.
Qed.

Lemma getSavedPrompts_run w :
  (getSavedPrompts w).1 = Return (stored SAVED_PROMPTS_KEY w) /\
  storage (getSavedPrompts w).2 = storage w /\
  ticks (getSavedPrompts w).2 = ticks w.
Proof.
  unfold stored. destruct w as [st tk tr]. run_js.
  destruct (st !! SAVED_PROMPTS_KEY) as [[|l]|]; run_js; auto.
Qed.

(** The store after [addToHistory], by the answers of the quota. *)
Lemma add_run a w :
  let h := stored STORAGE_KEY w in
  let half := ArrayJSON (newest_half h) in
  let retry := ArrayJSON (Item (newItem clock (S (S (ticks w))) a) :: newest_half h) in
  let out := add clock quota a w in
  out.1 = Return tt /\
  storage out.2 =
    (if quota (storage w) STORAGE_KEY (first_write clock a w)
     then <[STORAGE_KEY := first_write clock a w]> (storage w)
     else if 5 <? length h then
       if quota (storage w) STORAGE_KEY half then
         if quota (<[STORAGE_KEY := half]> (storage w)) STORAGE_KEY retry
         then <[STORAGE_KEY := retry]> (<[STORAGE_KEY := half]> (storage w))
         else <[STORAGE_KEY := half]> (storage w)
       else storage w
     else storage w) /\
  ticks out.2 =
    (if quota (storage w) STORAGE_KEY (first_write clock a w)
     then S (S (ticks w))
     else if 5 <? length h then
       if quota (storage w) STORAGE_KEY half
       then S (S (S (S (ticks w)))) else S (S (ticks w))
     else S (S (ticks w))).
Proof.
  unfold first_write, newest_half, stored, newItem. destruct w as [st tk tr]. run_js.
  destruct (st !! STORAGE_KEY) as [[|l]|] eqn:E; run_cases E; auto.
Qed.

(** The writes [addToHistory] attempts, by the answers of the quota. *)
Lemma add_attempts a w :
  let h := stored STORAGE_KEY w in
  let half := ArrayJSON (newest_half h) in
  let retry := ArrayJSON (Item (newItem clock (S (S (ticks w))) a) :: newest_half h) in
  let out := add clock quota a w in
  attempts (trace out.2) =
    attempts (trace w) ++
    if quota (storage w) STORAGE_KEY (first_write clock a w)
    then [(first_write clock a w, true)]
    else if 5 <? length h then
      if quota (storage w) STORAGE_KEY half then
        [(first_write clock a w, false); (half, true);
         (retry, quota (<[STORAGE_KEY := half]> (storage w)) STORAGE_KEY retry)]
      else [(first_write clock a w, false); (half, false)]
    else [(first_write clock a w, false)].
Proof.
  unfold first_write, newest_half, stored, newItem. destruct w as [st tk tr]. run_js.
  destruct (st !! STORAGE_KEY) as [[|l]|] eqn:E; run_cases E;
    cbn [attempts]; rewrite <- ?app_assoc; reflexivity.
Qed.

Lemma savePrompt_run text w :
  let ps := stored SAVED_PROMPTS_KEY w in
  let updated :=
    ArrayJSON (Prompt {| prompt_id := toString (clock (ticks w)); text := text;
                         prompt_timestamp := clock (S (ticks w)) |} :: ps) in
  let out := savePrompt clock quota text w in
  out.1 = Return tt /\ ticks out.2 = S (S (ticks w)) /\
  storage out.2 =
    if quota (storage w) SAVED_PROMPTS_KEY updated
    then <[SAVED_PROMPTS_KEY := updated]> (storage w)
    else storage w.
Proof.
  unfold stored. destruct w as [st tk tr]. run_js.
  destruct (st !! SAVED_PROMPTS_KEY) as [[|l]|] eqn:E; run_cases E; auto.
Qed.

Lemma stored_insert k l st tk tr :
  stored k {| storage := <[k := ArrayJSON l]> st; ticks := tk; trace := tr |} = l.
Proof. unfold stored. cbn [storage]. now rewrite lookup_insert_eq. Qed.

Lemma stored_storage k w w' : storage w' = storage w -> stored k w' = stored k w.
Proof. unfold stored. now intros ->. Qed.

Lemma stored_of_storage k w st l :
  storage w = <[k := ArrayJSON l]> st -> stored k w = l.
Proof. unfold stored. intros ->. now rewrite lookup_insert_eq. Qed.

(** An accepted addition prepends the new item and cuts at [MAX_ITEMS]. *)
Lemma add_accepted a w :
  quota (storage w) STORAGE_KEY (first_write clock a w) = true ->
  stored STORAGE_KEY (add clock quota a w).2 =
    take MAX_ITEMS (Item (newItem clock (ticks w) a) :: stored STORAGE_KEY w).
Proof.
  intros Hq. destruct (add_run a w) as (_ & Hst & _). rewrite Hq in Hst.
  exact (stored_of_storage _ _ _ _ Hst).
Qed.

Lemma take_app_take {A} n (l1 l2 : list A) :
  take n (l1 ++ take n l2) = take n (l1 ++ l2).
Proof.
  rewrite !take_app, take_take. f_equal. f_equal. lia.
Qed.

Lemma addAll_accepted adds : forall a w,
  allAccepted clock quota (a :: adds) w = true ->
  stored STORAGE_KEY (addAll clock quota (a :: adds) w) =
    take MAX_ITEMS (map Item (rev (itemsAdded clock quota (a :: adds) w))
                    ++ stored STORAGE_KEY w).
Proof.
  induction adds as [|a' adds IH]; intros a w Hacc.
  - cbn [allAccepted] in Hacc. apply andb_prop in Hacc as [Hq _].
    cbn [addAll itemsAdded rev map app]. now apply add_accepted.
  - change (allAccepted clock quota (a :: a' :: adds) w)
      with (quota (storage w) STORAGE_KEY (first_write clock a w)
            && allAccepted clock quota (a' :: adds) (add clock quota a w).2) in Hacc.
    apply andb_prop in Hacc as [Hq Hacc].
    change (addAll clock quota (a :: a' :: adds) w)
      with (addAll clock quota (a' :: adds) (add clock quota a w).2).
    rewrite (IH a' _ Hacc), (add_accepted a w Hq), take_app_take.
    change (itemsAdded clock quota (a :: a' :: adds) w)
      with (newItem clock (ticks w) a
            :: itemsAdded clock quota (a' :: adds) (add clock quota a w).2).
    cbn [rev]. rewrite map_app, <- app_assoc. reflexivity.
Qed.

Lemma itemsAdded_length adds : forall w,
  length (itemsAdded clock quota adds w) = length adds.
Proof. induction adds as [|a adds IH]; intros w; cbn; auto. Qed.

(** Every call of [addToHistory] reads the clock. *)
Lemma add_ticks a w : ticks w < ticks (add clock quota a w).2.
Proof.
  destruct (add_run a w) as (_ & _ & ->).
  repeat match goal with |- context [if ?c then _ else _] => destruct c end; lia.
Qed.

(** The identifier of an item of a run is a reading of the clock taken
during the run. *)
Lemma itemsAdded_ids adds : forall w x,
  In x (itemsAdded clock quota adds w) ->
  exists t, ticks w <= t /\ id x = toString (clock t).
Proof.
  induction adds as [|a adds IH]; intros w x Hin; [destruct Hin|].
  cbn [itemsAdded] in Hin. destruct Hin as [<- | Hin].
  - exists (ticks w). split; [lia | reflexivity].
  - destruct (IH _ _ Hin) as (t & Ht & E). exists t. split; [|exact E].
    pose proof (add_ticks a w). lia.
Qed.

End Effects.

Lemma toString_inj n m : toString n = toString m -> n = m.
Proof.
  unfold toString. intros H.
  assert (Hu : N.to_uint n = N.to_uint m).
  { apply (f_equal DecimalString.NilEmpty.uint_of_string) in H.
    rewrite !DecimalString.NilEmpty.usu in H. congruence. }
  apply (f_equal N.of_uint) in Hu. now rewrite !DecimalN.Unsigned.of_to in Hu.
Qed.


(** C3, as stated, fails: when the clock stands still during the run, the
    31 additions build equal items, and the item added first is among the
    30 that remain. *)
Lemma addToHistory_still_clock_counterexample :
  ~ (forall (clock : nat -> N) (quota : gmap string Text -> string -> Text -> bool)
       (a : Addition) (adds : list Addition),
       let first := newItem clock 0 a in
       let w' := addAll clock quota (a :: adds) empty_world in
       allAccepted clock quota (a :: adds) empty_world = true ->
       length adds = 30 ->
       forall h, (getHistory w').1 = Return h -> ~ In (Item first) h).
Proof.
  intros H.
  apply (H still_clock always_accepts example_addition (repeat example_addition 30)
           ltac:(vm_compute; reflexivity) eq_refl
           (repeat (Item (newItem still_clock 0 example_addition)) 30)).
  - vm_compute. reflexivity.
  - left. reflexivity.
Qed.

(** C3, amended: after a run of additions that the store accepted,
    [getHistory] returns the items of the run, latest first, in front of
    what was stored before, cut at 30; so the item added last comes first;
    and after 31 accepted additions to an empty history exactly 30 items
    remain, the 30 added last.  The item added first is among them exactly
    when a later addition built an equal item; it is absent as soon as no
    later reading of the clock equals the one its identifier was taken
    from. *)
Theorem addToHistory_prepends_and_truncates
    (clock : nat -> N) (quota : gmap string Text -> string -> Text -> bool)
    (a : Addition) (adds : list Addition) (w : World) :
  let first := newItem clock (ticks w) a in
  let later := itemsAdded clock quota adds (add clock quota a w).2 in
  let w' := addAll clock quota (a :: adds) w in
  allAccepted clock quota (a :: adds) w = true ->
  (getHistory w').1
    = Return (take MAX_ITEMS (map Item (rev (first :: later))
                              ++ stored STORAGE_KEY w)) /\
  (exists others, (getHistory w').1 = Return (Item (List.last later first) :: others)) /\
  (storage w !! STORAGE_KEY = None -> length adds = 30 ->
   (getHistory w').1 = Return (map Item (rev later)) /\
   length (map Item (rev later)) = 30 /\
   (In (Item first) (map Item (rev later)) <-> In first later) /\
   ((forall t, ticks w < t -> clock t <> clock (ticks w)) ->
    ~ In (Item first) (map Item (rev later)))).
Proof.
  intros first later w' Hacc.
  destruct (getHistory_run w') as [-> _].
  pose proof (addAll_accepted clock quota adds a w Hacc) as Hst.
  change (itemsAdded clock quota (a :: adds) w) with (first :: later) in Hst.
  fold w' in Hst. rewrite Hst. split; [reflexivity|]. split.
  - destruct (exists_last (l := first :: later)) as (init & x & Hlast);
      [discriminate|].
    assert (Hx : List.last later first = x).
    { transitivity (List.last (first :: later) first).
      - destruct later; reflexivity.
      - rewrite Hlast. apply List.last_last. }
    rewrite Hlast, rev_app_distr, Hx. cbn. eauto.
  - intros Hnone Hlen.
    assert (Hl : length later = 30)
      by (unfold later; now rewrite itemsAdded_length).
    assert (Hempty : stored STORAGE_KEY w = [])
      by (unfold stored; now rewrite Hnone).
    rewrite Hempty, app_nil_r. cbn [rev]. rewrite map_app.
    rewrite take_app_length'
      by (unfold MAX_ITEMS; rewrite length_map, length_rev; now rewrite Hl).
    assert (Hiff : In (Item first) (map Item (rev later)) <-> In first later).
    { split.
      - intros Hin. apply in_map_iff in Hin as (x & [= ->] & Hin). now apply in_rev.
      - intros Hin. apply in_map. now apply in_rev in Hin. }
    split; [reflexivity|]. split; [now rewrite length_map, length_rev|].
    split; [exact Hiff|].
    intros Hclock Hin. apply Hiff in Hin.
    apply itemsAdded_ids in Hin as (t & Ht & E).
    pose proof (add_ticks clock quota a w) as Hlt.
    apply toString_inj in E. apply (Hclock t); [lia | now symmetry].
Qed.

Lemma addToHistory_prepends_and_truncates_witness :
  let adds := repeat example_addition 30 in
  let first := newItem example_clock 0 example_addition in
  let later :=
    itemsAdded example_clock always_accepts adds
      (add example_clock always_accepts example_addition empty_world).2 in
  let w' := addAll example_clock always_accepts (example_addition :: adds)
              empty_world in
  allAccepted example_clock always_accepts (example_addition :: adds) empty_world
    = true /\
  (getHistory w').1 = Return (map Item (rev later)) /\
  length (map Item (rev later)) = 30 /\
  ~ In (Item first) (map Item (rev later)).
Proof.
  intros adds first later w'.
  assert (Hacc : allAccepted example_clock always_accepts
                   (example_addition :: adds) empty_world = true)
    by (vm_compute; reflexivity).
  split; [exact Hacc|].
  destruct (addToHistory_prepends_and_truncates example_clock always_accepts
              example_addition adds empty_world Hacc) as (_ & _ & H).
  destruct H as (H1 & H2 & _ & H3); [reflexivity | reflexivity |].
  split; [exact H1|]. split; [exact H2|].
  apply H3. intros t Ht. unfold example_clock. cbn [ticks empty_world] in *. lia.
Defined.

(** A store that takes nothing, and a history of two items. *)
Lemma small_history_attempts :
  attempts
    (trace (add example_clock never_accepts example_addition small_world).2)
  = [(first_write example_clock example_addition small_world, false)].
Proof. vm_compute. reflexivity. Qed.

(** C4, as stated, fails: with two items stored and a store that takes no
    write, [addToHistory] attempts the first write and nothing more; it
    neither halves the collection nor retries. *)
Lemma addToHistory_small_history_counterexample :
  ~ retried_once_after_halving example_clock example_addition small_world
      (add example_clock never_accepts example_addition small_world).2.
Proof.
  intros (retry & ok & H).
  rewrite small_history_attempts in H.
  cbn [attempts trace small_world app] in H. discriminate H.
Qed.

(** C4, amended: when the first write of [addToHistory] is refused, the call
    returns without throwing; if more than 5 items are stored it writes the
    newest half and, once that write is taken, tries exactly once more to
    write the new item in front of that half, the store ending with the
    retried array, or with the half alone when the retry is refused too, or
    unchanged when the half itself is refused; with 5 items or fewer it
    attempts nothing more and the store is unchanged. *)
Theorem addToHistory_quota_fallback
    (clock : nat -> N) (quota : gmap string Text -> string -> Text -> bool)
    (a : Addition) (w : World) :
  let h := stored STORAGE_KEY w in
  let half := ArrayJSON (newest_half h) in
  let halved := <[STORAGE_KEY := half]> (storage w) in
  let retry := ArrayJSON (Item (newItem clock (S (S (ticks w))) a) :: newest_half h) in
  let out := add clock quota a w in
  quota (storage w) STORAGE_KEY (first_write clock a w) = false ->
  out.1 = Return tt /\
  if 5 <? length h then
    if quota (storage w) STORAGE_KEY half then
      attempts (trace out.2) =
        attempts (trace w) ++
          [(first_write clock a w, false); (half, true);
           (retry, quota halved STORAGE_KEY retry)] /\
      storage out.2 =
        (if quota halved STORAGE_KEY retry
         then <[STORAGE_KEY := retry]> halved else halved)
    else
      attempts (trace out.2) =
        attempts (trace w) ++ [(first_write clock a w, false); (half, false)] /\
      storage out.2 = storage w
  else
    attempts (trace out.2) = attempts (trace w) ++ [(first_write clock a w, false)] /\
    storage out.2 = storage w.
Proof.
  intros h half halved retry out Hq.
  destruct (add_run clock quota a w) as (Hret & Hst & _).
  pose proof (add_attempts clock quota a w) as Hat. cbv zeta in Hat.
  rewrite Hq in Hst, Hat. split; [exact Hret|].
  subst h half halved retry out.
  destruct (5 <? length (stored STORAGE_KEY w)); [|split; assumption].
  destruct (quota (storage w) STORAGE_KEY
              (ArrayJSON (newest_half (stored STORAGE_KEY w))));
    split; assumption.
Qed.

Lemma addToHistory_quota_fallback_witness :
  accepts_four (storage six_world) STORAGE_KEY
    (first_write example_clock example_addition six_world) = false /\
  (add example_clock accepts_four example_addition six_world).1 = Return tt.
Proof.
  assert (Hq : accepts_four (storage six_world) STORAGE_KEY
                 (first_write example_clock example_addition six_world) = false)
    by (vm_compute; reflexivity).
  split; [exact Hq|].
  exact (proj1 (addToHistory_quota_fallback example_clock accepts_four
                  example_addition six_world Hq)).
Defined.

(** *** Identifiers *)

Lemma In_take {A} (x : A) n (l : list A) : In x (take n l) -> In x l.
Proof.
  revert n. induction l as [|y l IH]; intros [|n]; cbn; try tauto.
  intros [-> | H]; [now left | right; eauto].
Qed.

Lemma NoDup_map_take {A B} (f : A -> B) n (l : list A) :
  NoDup (map f l) -> NoDup (map f (take n l)).
Proof.
  rewrite !NoDup_ListNoDup.
  revert n. induction l as [|x l IH]; intros [|n] H; cbn; try constructor.
  - cbn in H. apply NoDup_cons_iff in H as [Hx Hl]. intros Hin. apply Hx.
    apply in_map_iff in Hin as (y & Hy & Hin). apply in_map_iff. exists y.
    split; [exact Hy | exact (In_take _ _ _ Hin)].
  - cbn in H. apply NoDup_cons_iff in H as [_ Hl]. now apply IH.
Qed.

Section Identifiers.
Variable clock : nat -> N.
Variable quota : gmap string Text -> string -> Text -> bool.
Hypothesis clock_monotone : forall i j, i <= j -> (clock i <= clock j)%N.

Lemma advanced_spec w :
  advanced clock w = true -> forall i, i < ticks w -> (clock i < clock (ticks w))%N.
Proof.
  unfold advanced. intros H i Hi. rewrite forallb_forall in H.
  apply N.ltb_lt, H, in_seq. lia.
Qed.

Lemma fresh_id k w t :
  advanced clock w = true -> ids_from_clock clock k w -> ticks w <= t ->
  ~ In (toString (clock t)) (map obj_id (stored k w)).
Proof.
  intros Hadv Hids Ht Hin. apply in_map_iff in Hin as (o & Ho & Hin).
  destruct (Hids o Hin) as (i & Hi & Hid). rewrite Hid in Ho.
  apply toString_inj in Ho.
  pose proof (advanced_spec w Hadv i Hi). pose proof (clock_monotone _ _ Ht). lia.
Qed.

Lemma ids_from_clock_take k w n :
  ids_from_clock clock k w ->
  forall o, In o (take n (stored k w)) ->
    exists i, i < ticks w /\ obj_id o = toString (clock i).
Proof.
  intros Hids o Hin. exact (Hids o (In_take _ _ _ Hin)).
Qed.

(** One key of the store after a write of [x :: take n old] under it, or
    under the other key. *)
Lemma ids_after_insert k w w' x n t :
  advanced clock w = true ->
  unique_ids (stored k w) -> ids_from_clock clock k w ->
  ticks w <= t -> t < ticks w' -> obj_id x = toString (clock t) ->
  stored k w' = x :: take n (stored k w) ->
  unique_ids (stored k w') /\ ids_from_clock clock k w'.
Proof.
  intros Hadv Hu Hids Ht Ht' Hx Hst'.
  rewrite Hst'. split.
  - unfold unique_ids. cbn [map]. apply NoDup_cons. split.
    + rewrite Hx, list_elem_of_In. intros Hin.
      apply (fresh_id k w t Hadv Hids Ht).
      apply in_map_iff in Hin as (y & Hy & Hin). apply in_map_iff. exists y.
      split; [exact Hy | exact (In_take _ _ _ Hin)].
    + now apply NoDup_map_take.
  - intros o Hin. rewrite Hst' in Hin. destruct Hin as [<- | Hin].
    + exists t. split; [lia | exact Hx].
    + destruct (ids_from_clock_take k w n Hids o Hin) as (i & Hi & Hid).
      exists i. split; [lia | exact Hid].
Qed.

Lemma ids_after_take k w w' n :
  unique_ids (stored k w) -> ids_from_clock clock k w -> ticks w <= ticks w' ->
  stored k w' = take n (stored k w) ->
  unique_ids (stored k w') /\ ids_from_clock clock k w'.
Proof.
  intros Hu Hids Ht Hst. rewrite Hst. split.
  - now apply NoDup_map_take.
  - intros o Hin. rewrite Hst in Hin.
    destruct (ids_from_clock_take k w n Hids o Hin) as (i & Hi & Hid).
    exists i. split; [lia | exact Hid].
Qed.

Lemma ids_kept k w w' :
  unique_ids (stored k w) -> ids_from_clock clock k w -> ticks w <= ticks w' ->
  stored k w' = stored k w ->
  unique_ids (stored k w') /\ ids_from_clock clock k w'.
Proof.
  intros Hu Hids Ht Hst. rewrite <- (take_ge (stored k w) (length (stored k w))) in Hst
    by lia.
  eapply ids_after_take; eauto.
Qed.

Lemma stored_other k k' v st w' w :
  k' <> k -> storage w = st -> storage w' = <[k := v]> st ->
  stored k' w' = stored k' w.
Proof.
  intros Hk <- Hst. unfold stored. now rewrite Hst, lookup_insert_ne by congruence.
Qed.

Lemma add_keeps_ids a w :
  advanced clock w = true -> ids_invariant clock w ->
  ids_invariant clock (add clock quota a w).2.
Proof.
  intros Hadv [[Hu Hids] [Hu' Hids']].
  destruct (add_run clock quota a w) as (_ & Hst & Htk). cbv zeta in Hst, Htk.
  assert (Htk' : ticks w <= ticks (add clock quota a w).2).
  { rewrite Htk.
    repeat match goal with
           | |- context [if ?c then _ else _] => destruct c
           end; lia. }
  assert (Hother : stored SAVED_PROMPTS_KEY (add clock quota a w).2
                   = stored SAVED_PROMPTS_KEY w).
  { apply (confined_keeps _ STORAGE_KEY SAVED_PROMPTS_KEY).
    - apply addToHistory_confined.
    - intros E. discriminate E. }
  split; [|exact (ids_kept SAVED_PROMPTS_KEY w _ Hu' Hids' Htk' Hother)].
  destruct (quota (storage w) STORAGE_KEY (first_write clock a w)).
  { apply (ids_after_insert STORAGE_KEY w _ (Item (newItem clock (ticks w) a))
             (pred MAX_ITEMS) (ticks w) Hadv Hu Hids); try lia; [reflexivity|].
    exact (stored_of_storage _ _ _ _ Hst). }
  destruct (5 <? length (stored STORAGE_KEY w)).
  2:{ exact (ids_kept STORAGE_KEY w _ Hu Hids Htk' (stored_storage _ _ _ Hst)). }
  destruct (quota (storage w) STORAGE_KEY
              (ArrayJSON (newest_half (stored STORAGE_KEY w)))).
  2:{ exact (ids_kept STORAGE_KEY w _ Hu Hids Htk' (stored_storage _ _ _ Hst)). }
  match type of Hst with context [if ?c then _ else _] => destruct c end.
  - apply (ids_after_insert STORAGE_KEY w _
             (Item (newItem clock (S (S (ticks w))) a))
             (length (stored STORAGE_KEY w) / 2) (S (S (ticks w))) Hadv Hu Hids);
      try lia; [reflexivity|].
    exact (stored_of_storage _ _ _ _ Hst).
  - apply (ids_after_take STORAGE_KEY w _ (length (stored STORAGE_KEY w) / 2)
             Hu Hids Htk').
    exact (stored_of_storage _ _ _ _ Hst).
Qed.

Lemma savePrompt_keeps_ids text w :
  advanced clock w = true -> ids_invariant clock w ->
  ids_invariant clock (savePrompt clock quota text w).2.
Proof.
  intros Hadv [[Hu Hids] [Hu' Hids']].
  destruct (savePrompt_run clock quota text w) as (_ & Htk & Hst).
  cbv zeta in Hst.
  assert (Htk' : ticks w <= ticks (savePrompt clock quota text w).2) by lia.
  assert (Hother : stored STORAGE_KEY (savePrompt clock quota text w).2
                   = stored STORAGE_KEY w).
  { apply (confined_keeps _ SAVED_PROMPTS_KEY STORAGE_KEY).
    - apply savePrompt_confined.
    - exact keys_differ. }
  split; [exact (ids_kept STORAGE_KEY w _ Hu Hids Htk' Hother)|].
  match type of Hst with context [if ?c then _ else _] => destruct c end.
  - apply (ids_after_insert SAVED_PROMPTS_KEY w _
             (Prompt {| prompt_id := toString (clock (ticks w)); text := text;
                        prompt_timestamp := clock (S (ticks w)) |})
             (length (stored SAVED_PROMPTS_KEY w)) (ticks w) Hadv Hu' Hids');
      try lia; [reflexivity|].
    rewrite firstn_all. exact (stored_of_storage _ _ _ _ Hst).
  - exact (ids_kept SAVED_PROMPTS_KEY w _ Hu' Hids' Htk' (stored_storage _ _ _ Hst)).
Qed.

Lemma runOps_keeps_ids ops : forall w,
  advancedBeforeEach clock quota ops w = true -> ids_invariant clock w ->
  ids_invariant clock (runOps clock quota ops w).
Proof.
  induction ops as [|op ops IH]; intros w Hadv Hinv; [exact Hinv|].
  cbn [advancedBeforeEach] in Hadv. apply andb_prop in Hadv as [Hw Hadv].
  cbn [runOps]. apply IH; [exact Hadv|].
  destruct op as [a | text]; cbn [runOp].
  - now apply add_keeps_ids.
  - now apply savePrompt_keeps_ids.
Qed.

End Identifiers.

(** C9, as stated, fails: two additions that read the same millisecond from
    the clock leave two history entries with the same id. *)
Lemma same_millisecond_ids_counterexample :
  ~ unique_ids
      (stored STORAGE_KEY
         (runOps still_clock always_accepts
            [AddToHistory example_addition; AddToHistory example_addition]
            empty_world)).
Proof.
  unfold unique_ids.
  replace (map obj_id _) with ["1700000000000"; "1700000000000"]%string
    by (vm_compute; reflexivity).
  intros H. apply NoDup_cons in H as [H _]. apply H. left.
Qed.

(** C9, amended: if the clock never runs backwards and, at the start of
    every add operation, reads later than all its earlier readings, then
    after every sequence of [addToHistory] and [savePrompt] calls on an
    empty store the ids within the history are pairwise distinct, and so
    are the ids within the saved prompts. *)
Theorem ids_unique_when_the_clock_advances
    (clock : nat -> N) (quota : gmap string Text -> string -> Text -> bool)
    (ops : list AddOp) (w : World) :
  (forall i j, i <= j -> (clock i <= clock j)%N) ->
  storage w = ∅ ->
  advancedBeforeEach clock quota ops w = true ->
  unique_ids (stored STORAGE_KEY (runOps clock quota ops w)) /\
  unique_ids (stored SAVED_PROMPTS_KEY (runOps clock quota ops w)).
Proof.
  intros Hmono Hempty Hadv.
  assert (Hinv : ids_invariant clock w).
  { unfold ids_invariant, ids_from_clock, unique_ids, stored. rewrite Hempty.
    rewrite !lookup_empty. cbn. repeat split; try constructor; intros o []. }
  destruct (runOps_keeps_ids clock quota Hmono ops w Hadv Hinv)
    as [[H1 _] [H2 _]].
  split; assumption.
Qed.

Lemma ids_unique_when_the_clock_advances_witness :
  let ops := [AddToHistory example_addition; SavePrompt "a cat";
              AddToHistory example_addition; SavePrompt "a dog"] in
  unique_ids (stored STORAGE_KEY
                (runOps example_clock always_accepts ops empty_world)) /\
  unique_ids (stored SAVED_PROMPTS_KEY
                (runOps example_clock always_accepts ops empty_world)).
Proof.
  intros ops.
  apply (ids_unique_when_the_clock_advances example_clock always_accepts ops
           empty_world).
  - intros i j Hij. unfold example_clock. lia.
  - reflexivity.
  - vm_compute. reflexivity.
Defined.

End StorageProofs.

(** ** The matcher against what a pattern can match *)

Module RegExpProofs.
Import RegExpSpec.
Local Open Scope nat_scope.

Lemma same_place_refl x : same_place x x.
Proof. split; reflexivity. Qed.

Lemma same_place_trans x y z : same_place x y -> same_place y z -> same_place x z.
Proof. intros [] []; split; congruence. Qed.

Lemma same_place_sym x y : same_place x y -> same_place y x.
Proof. intros []; split; congruence. Qed.

Lemma charMatches_place ok x y :
  charMatches ok x = Some y ->
  exists ch, rest x = ch :: rest y /\ ok ch = true /\
             endIndex y = S (endIndex x) /\ captures y = captures x.
Proof.
  unfold charMatches. destruct (rest x) as [|ch s] eqn:E; [discriminate|].
  destruct (ok ch) eqn:Hok; [|discriminate]. intros [= <-]. cbn. eauto.
Qed.

(** A match consumes a prefix of the input. *)
Lemma Matches_consumes ic re x y :
  Matches ic re x y ->
  exists cs, rest x = cs ++ rest y /\ endIndex y = endIndex x + length cs.
Proof.
  assert (Hnil : forall x, exists cs : jsstring,
             rest x = cs ++ rest x /\ endIndex x = endIndex x + length cs)
    by (intros x0; exists []; cbn; split; [reflexivity | lia]).
  assert (Hchar : forall ok x y, charMatches ok x = Some y ->
             exists cs, rest x = cs ++ rest y /\ endIndex y = endIndex x + length cs).
  { intros ok x0 y0 H. apply charMatches_place in H as (ch & Hr & _ & Hi & _).
    exists [ch]. cbn. split; [exact Hr | lia]. }
  assert (Htrans : forall x y z : MatchState,
             (exists cs, rest x = cs ++ rest y /\ endIndex y = endIndex x + length cs) ->
             (exists cs, rest y = cs ++ rest z /\ endIndex z = endIndex y + length cs) ->
             exists cs, rest x = cs ++ rest z /\ endIndex z = endIndex x + length cs).
  { intros x0 y0 z0 (c1 & Hr1 & Hi1) (c2 & Hr2 & Hi2). exists (c1 ++ c2).
    rewrite <- app_assoc, length_app, Hr1, Hr2. split; [reflexivity | lia]. }
  induction 1; cbn [with_captures rest endIndex]; eauto.
Qed.

(** Captures do not influence what matches. *)
Lemma Matches_same_place ic re x y :
  Matches ic re x y ->
  forall x', same_place x x' -> exists y', same_place y y' /\ Matches ic re x' y'.
Proof.
  induction 1; intros x' Hx.
  - exists x'. split; [exact Hx | constructor].
  - destruct Hx as [Hi Hr]. unfold charMatches in H. 
    destruct (rest x) as [|ch s] eqn:E; [discriminate|].
    destruct (_ =? _)%N eqn:Hok; [|discriminate]. injection H as <-.
    exists {| endIndex := S (endIndex x'); rest := s; captures := captures x' |}.
    split; [split; cbn; congruence|]. constructor. unfold charMatches.
    now rewrite <- Hr, Hok.
  - destruct Hx as [Hi Hr]. unfold charMatches in H. 
    destruct (rest x) as [|ch s] eqn:E; [discriminate|].
    destruct (p ch) eqn:Hok; [|discriminate]. injection H as <-.
    exists {| endIndex := S (endIndex x'); rest := s; captures := captures x' |}.
    split; [split; cbn; congruence|]. constructor. unfold charMatches.
    now rewrite <- Hr, Hok.
  - destruct (IHMatches1 x' Hx) as (y' & Hy & H1).
    destruct (IHMatches2 y' Hy) as (z' & Hz & H2).
    exists z'. split; [exact Hz | econstructor; eassumption].
  - destruct (IHMatches x' Hx) as (y' & Hy & H1).
    exists y'. split; [exact Hy | now apply M_Alt_l].
  - destruct (IHMatches x' Hx) as (y' & Hy & H1).
    exists y'. split; [exact Hy | now apply M_Alt_r].
  - exists x'. split; [exact Hx | now apply M_Quant_done].
  - destruct (IHMatches1 x' Hx) as (y' & Hy & H3).
    destruct (IHMatches2 y' Hy) as (z' & Hz & H4).
    exists z'. split; [exact Hz|]. eapply M_Quant_step; eauto.
    destruct Hx as [Hx _], Hy as [Hy _]. intros Hm. specialize (H1 Hm). congruence.
  - destruct (IHMatches x' Hx) as (y' & Hy & H1).
    eexists. split; [|apply M_Group; exact H1].
    destruct Hy; split; cbn; assumption.
  - destruct (IHMatches x' Hx) as (y' & Hy & H1).
    eexists. split; [|apply M_Lookahead; exact H1].
    destruct Hx; split; cbn; assumption.
  - exists x'. split; [exact Hx|]. constructor. destruct Hx. congruence.
  - exists x'. split; [exact Hx|]. constructor. destruct Hx. congruence.
Qed.

Section Repeat.
Variable ic : bool.
Variable r : regex.
Variable R : Type.
Variable g : bool.
Variable c : MatchState -> option R.
Hypothesis m_sound : forall x k z,
  matcher R ic r x k = Some z -> exists y, Matches ic r x y /\ k y = Some z.

Lemma RepeatMatcher_sound fuel : forall min max x z,
  RepeatMatcher (matcher R ic r) g c fuel min max x = Some z ->
  exists y, Matches ic (Quant r min max g) x y /\ c y = Some z.
Proof.
  induction fuel as [|fuel IH]; intros min max x z H; [discriminate|].
  cbn [RepeatMatcher] in H.
  set (d := fun y0 : MatchState =>
         if (min =? 0) && (endIndex y0 =? endIndex x) then None
         else RepeatMatcher (matcher R ic r) g c fuel (Nat.pred min)
                (option_map Nat.pred max) y0) in *.
  assert (Hstep : matcher R ic r x d = Some z -> max <> Some 0 ->
    exists y', Matches ic (Quant r min max g) x y' /\ c y' = Some z).
  { intros Hm Hmax. apply m_sound in Hm as (y & Hy & Hd). unfold d in Hd.
    destruct ((min =? 0) && (endIndex y =? endIndex x)) eqn:Hc; [discriminate|].
    destruct (IH _ _ _ _ Hd) as (y' & Hy' & Hz). exists y'. split; [|exact Hz].
    eapply M_Quant_step; eauto. intros ->. cbn in Hc.
    now apply Nat.eqb_neq in Hc. }
  assert (Hdone : c x = Some z -> max = Some 0 \/ min = 0 ->
                  exists y', Matches ic (Quant r min max g) x y' /\ c y' = Some z).
  { intros Hc Hm. exists x. split; [now apply M_Quant_done | exact Hc]. }
  assert (Hmain :
    (if negb (min =? 0) then matcher R ic r x d
     else if g then match matcher R ic r x d with Some z0 => Some z0 | None => c x end
          else match c x with Some z0 => Some z0 | None => matcher R ic r x d end) = Some z ->
    max <> Some 0 ->
    exists y', Matches ic (Quant r min max g) x y' /\ c y' = Some z).
  { intros H0 Hmax. destruct (Nat.eqb_spec min 0) as [Hmin|Hmin]; cbn [negb] in H0.
    - destruct g.
      + destruct (matcher R ic r x d) as [z'|] eqn:Hm.
        * injection H0 as ->. now apply Hstep.
        * apply Hdone; auto.
      + destruct (c x) as [z'|] eqn:Hc.
        * injection H0 as ->. apply Hdone; auto.
        * now apply Hstep.
    - now apply Hstep. }
  destruct max as [[|n]|]; [apply Hdone; auto | |]; apply Hmain; try exact H;
    discriminate.
Qed.

Hypothesis m_complete : forall x k,
  matcher R ic r x k = None -> forall y, Matches ic r x y ->
  exists y', same_place y y' /\ k y' = None.

Lemma RepeatMatcher_complete fuel : forall min max x,
  min + length (rest x) + 1 <= fuel ->
  RepeatMatcher (matcher R ic r) g c fuel min max x = None ->
  forall y, Matches ic (Quant r min max g) x y ->
  exists y', same_place y y' /\ c y' = None.
Proof.
  induction fuel as [|fuel IH]; intros min max x Hfuel H y Hy; [lia|].
  cbn [RepeatMatcher] in H.
  inversion Hy as [| | | | | | ? ? ? ? ? Hdone | ? ? ? ? ? y1 ? Hmax Hy1 Hprog Hrest | | | | ];
    subst.
  - (* no further iteration *)
    exists y. split; [apply same_place_refl|].
    destruct max as [[|n]|]; [exact H | |];
      (destruct Hdone as [Hd | ->]; [discriminate Hd|]; cbn [Nat.eqb negb] in H;
       destruct g;
       [ destruct (matcher R ic r y _); [discriminate | exact H]
       | destruct (c y); [discriminate | reflexivity] ]).
  - (* one iteration, then the rest *)
    set (d := fun y0 : MatchState =>
           if (min =? 0) && (endIndex y0 =? endIndex x) then None
           else RepeatMatcher (matcher R ic r) g c fuel (Nat.pred min)
                (option_map Nat.pred max) y0) in *.
    assert (Hm : matcher R ic r x d = None).
    { destruct max as [[|n]|]; [congruence | |];
        (revert H; destruct (min =? 0); cbn [negb]; intros H; [|exact H];
         destruct g;
         [ destruct (matcher R ic r x d); [discriminate | reflexivity]
         | destruct (c x); [discriminate | exact H] ]). }
    destruct (m_complete _ _ Hm _ Hy1) as (y1' & Hsame & Hd).
    destruct (Matches_consumes _ _ _ _ Hy1) as (cs & Hcs & Hidx).
    destruct Hsame as [Hi Hr]. unfold d in Hd.
    assert (Hcond : (min =? 0) && (endIndex y1' =? endIndex x) = false).
    { destruct (Nat.eqb_spec min 0) as [->|]; [|reflexivity]. cbn.
      apply Nat.eqb_neq. specialize (Hprog eq_refl). congruence. }
    rewrite Hcond in Hd.
    destruct (Matches_same_place _ _ _ _ Hrest y1' (conj Hi Hr)) as (y'' & Hs'' & Hrest').
    assert (Hlen : Nat.pred min + length (rest y1') + 1 <= fuel).
    { rewrite <- Hr. apply (f_equal (@length _)) in Hcs. rewrite length_app in Hcs.
      destruct (Nat.eqb_spec min 0) as [->|]; [|lia].
      specialize (Hprog eq_refl). lia. }
    destruct (IH _ _ _ Hlen Hd _ Hrest') as (y' & Hs' & Hc).
    exists y'. split; [eapply same_place_trans; eassumption | exact Hc].
Qed.

End Repeat.

Lemma matcher_sound ic re : forall R x c z,
  matcher R ic re x c = Some z -> exists y, Matches ic re x y /\ c y = Some z.
Proof.
  induction re as [| p | p | r1 IH1 r2 IH2 | r1 IH1 r2 IH2 | r IH min max g
                   | i r IH | r IH | |]; intros R x c z H; cbn [matcher] in H.
  - exists x. split; [constructor | exact H].
  - destruct (charMatches _ x) as [y|] eqn:Hy; [|discriminate].
    exists y. split; [now constructor | exact H].
  - destruct (charMatches _ x) as [y|] eqn:Hy; [|discriminate].
    exists y. split; [now constructor | exact H].
  - apply IH1 in H as (y & Hy & H). apply IH2 in H as (y' & Hy' & H).
    exists y'. split; [econstructor; eassumption | exact H].
  - destruct (matcher R ic r1 x c) as [z'|] eqn:H1.
    + injection H as ->. apply IH1 in H1 as (y & Hy & H1).
      exists y. split; [now apply M_Alt_l | exact H1].
    + apply IH2 in H as (y & Hy & H).
      exists y. split; [now apply M_Alt_r | exact H].
  - eapply RepeatMatcher_sound; [|exact H]. intros; now apply IH.
  - apply IH in H as (y & Hy & H). eexists. split; [apply M_Group, Hy | exact H].
  - destruct (matcher MatchState ic r x Some) as [y|] eqn:Hy; [|discriminate].
    apply IH in Hy as (y' & Hy' & [= ->]).
    eexists. split; [apply M_Lookahead, Hy' | exact H].
  - destruct (Nat.eqb_spec (endIndex x) 0); [|discriminate].
    exists x. split; [now constructor | exact H].
  - destruct (rest x) eqn:Hr; [|discriminate].
    exists x. split; [now constructor | exact H].
Qed.

Lemma matcher_complete ic re : forall R x c,
  matcher R ic re x c = None ->
  forall y, Matches ic re x y -> exists y', same_place y y' /\ c y' = None.
Proof.
  induction re as [| p | p | r1 IH1 r2 IH2 | r1 IH1 r2 IH2 | r IH min max g
                   | i r IH | r IH | |]; intros R x c H y Hy; cbn [matcher] in H.
  - inversion Hy; subst. exists y. split; [apply same_place_refl | exact H].
  - inversion Hy as [| ? ? ? Hc | | | | | | | | | | ]; subst. rewrite Hc in H.
    exists y. split; [apply same_place_refl | exact H].
  - inversion Hy as [| | ? ? ? Hc | | | | | | | | | ]; subst. rewrite Hc in H.
    exists y. split; [apply same_place_refl | exact H].
  - inversion Hy as [| | | ? ? ? y1 ? H1 H2 | | | | | | | | ]; subst.
    destruct (IH1 _ _ _ H _ H1) as (y1' & Hs & Hk).
    destruct (Matches_same_place _ _ _ _ H2 y1' Hs) as (y2 & Hs2 & H2').
    destruct (IH2 _ _ _ Hk _ H2') as (y' & Hs' & Hc).
    exists y'. split; [eapply same_place_trans; eassumption | exact Hc].
  - destruct (matcher R ic r1 x c) eqn:H1; [discriminate|].
    inversion Hy; subst; eauto.
  - eapply RepeatMatcher_complete; [| |exact H|exact Hy]; [|lia].
    intros; eapply IH; eassumption.
  - inversion Hy as [| | | | | | | | ? ? ? y1 H1 | | | ]; subst.
    destruct (IH _ _ _ H _ H1) as (y1' & [Hi Hr] & Hk).
    eexists. split; [|exact Hk]. split; cbn; assumption.
  - inversion Hy as [| | | | | | | | | ? ? y1 H1 | | ]; subst.
    destruct (matcher MatchState ic r x Some) as [y0|] eqn:H0.
    + eexists. split; [|exact H]. split; reflexivity.
    + destruct (IH _ _ _ H0 _ H1) as (? & _ & [=]).
  - inversion Hy as [| | | | | | | | | | ? Hi | ]; subst. rewrite Hi in H.
    exists y. split; [apply same_place_refl | exact H].
  - inversion Hy as [| | | | | | | | | | | ? Hr ]; subst. rewrite Hr in H.
    exists y. split; [apply same_place_refl | exact H].
Qed.

Lemma segment_advance x y cs : segment x y cs -> y = advance x cs (rest y).
Proof. destruct y. unfold segment, advance. cbn. intros (_ & -> & ->). reflexivity. Qed.

Lemma advance_segment x cs s : rest x = cs ++ s -> segment x (advance x cs s) cs.
Proof. intros H. unfold segment, advance. cbn. auto. Qed.

Lemma segment_nil x y : segment x y [] <-> y = x.
Proof.
  split.
  - destruct x, y. unfold segment. cbn. intros (-> & -> & ->). f_equal. lia.
  - intros ->. unfold segment. cbn. repeat split. lia.
Qed.

Lemma segment_app x y z a b : segment x y a -> segment y z b -> segment x z (a ++ b).
Proof.
  unfold segment. intros (Hr1 & Hi1 & Hc1) (Hr2 & Hi2 & Hc2).
  rewrite <- app_assoc, length_app, Hr1, Hr2. repeat split; [lia | congruence].
Qed.

Lemma segment_split x z a b :
  segment x z (a ++ b) -> exists y, segment x y a /\ segment y z b.
Proof.
  unfold segment. intros (Hr & Hi & Hc). rewrite <- app_assoc in Hr.
  rewrite length_app in Hi.
  exists (advance x a (b ++ rest z)). unfold advance. cbn. repeat split; auto. lia.
Qed.

Lemma charMatches_segment ok x y :
  charMatches ok x = Some y <-> exists ch, segment x y [ch] /\ ok ch = true.
Proof.
  split.
  - intros H. apply charMatches_place in H as (ch & Hr & Hok & Hi & Hc).
    exists ch. split; [|exact Hok]. unfold segment. cbn. repeat split; auto. lia.
  - intros (ch & Hs & Hok). rewrite (segment_advance _ _ _ Hs).
    destruct Hs as (Hr & _). unfold charMatches, advance. rewrite Hr. cbn.
    rewrite Hok. do 2 f_equal. lia.
Qed.

Section Shapes.
Variable ic : bool.

Lemma Matches_Empty x y : Matches ic Empty x y <-> y = x.
Proof. split; [now inversion 1 | intros ->; constructor]. Qed.

Lemma Matches_Char p x y :
  Matches ic (Char p) x y <-> exists ch, segment x y [ch] /\ same_char ic ch p.
Proof.
  split.
  - inversion 1 as [| ? ? ? Hc | | | | | | | | | | ]; subst.
    apply charMatches_segment in Hc as (ch & Hs & Hok).
    exists ch. split; [exact Hs | now apply N.eqb_eq].
  - intros (ch & Hs & Hok). constructor. apply charMatches_segment.
    exists ch. split; [exact Hs | now apply N.eqb_eq].
Qed.

Lemma Matches_CharSet p x y :
  Matches ic (CharSet p) x y <-> exists ch, segment x y [ch] /\ p ch = true.
Proof.
  split.
  - inversion 1 as [| | ? ? ? Hc | | | | | | | | | ]; subst.
    now apply charMatches_segment.
  - intros H. constructor. now apply charMatches_segment.
Qed.

Lemma Matches_Seq r1 r2 x z :
  Matches ic (Seq r1 r2) x z <-> exists y, Matches ic r1 x y /\ Matches ic r2 y z.
Proof.
  split.
  - inversion 1; subst; eauto.
  - intros (y & H1 & H2). econstructor; eassumption.
Qed.

Lemma Matches_Alt r1 r2 x y :
  Matches ic (Alt r1 r2) x y <-> Matches ic r1 x y \/ Matches ic r2 x y.
Proof.
  split.
  - inversion 1; subst; auto.
  - intros [H | H]; [now apply M_Alt_l | now apply M_Alt_r].
Qed.

Lemma Matches_Group i r x z :
  Matches ic (Group i r) x z <->
  exists y, Matches ic r x y /\
    z = with_captures y
          ((i, firstn (endIndex y - endIndex x) (rest x)) :: captures y).
Proof.
  split.
  - inversion 1; subst; eauto.
  - intros (y & H & ->). now constructor.
Qed.

Lemma Matches_Lookahead r x z :
  Matches ic (Lookahead r) x z <->
  exists y, Matches ic r x y /\ z = with_captures x (captures y).
Proof.
  split.
  - inversion 1; subst; eauto.
  - intros (y & H & ->). now constructor.
Qed.

Lemma Matches_AssertEnd x y : Matches ic AssertEnd x y <-> y = x /\ rest x = [].
Proof. split; [inversion 1; auto | intros [-> H]; now constructor]. Qed.

Lemma Matches_AssertStart x y : Matches ic AssertStart x y <-> y = x /\ endIndex x = 0.
Proof. split; [inversion 1; auto | intros [-> H]; now constructor]. Qed.

Lemma Matches_chars l : forall x y,
  Matches ic (fold_right (fun ch re => Seq (Char ch) re) Empty l) x y <->
  exists cs, segment x y cs /\ same_text ic cs l.
Proof.
  induction l as [|p l IH]; intros x y; cbn [fold_right].
  - rewrite Matches_Empty. split.
    + intros ->. exists []. split; [now apply segment_nil | reflexivity].
    + intros (cs & Hs & Ht). destruct cs; [|discriminate]. now apply segment_nil.
  - rewrite Matches_Seq. split.
    + intros (y1 & H1 & H2). apply Matches_Char in H1 as (ch & Hs & Hch).
      apply IH in H2 as (cs & Hs' & Ht). exists (ch :: cs). split.
      * exact (segment_app _ _ _ [ch] cs Hs Hs').
      * unfold same_text in *. cbn. now rewrite Hch, Ht.
    + intros (cs & Hs & Ht). destruct cs as [|ch cs]; [discriminate|].
      injection Ht as Hch Ht.
      destruct (segment_split x y [ch] cs Hs) as (y1 & Hs1 & Hs2).
      exists y1. split; [apply Matches_Char; eauto | apply IH; eauto].
Qed.

Lemma Matches_text s x y :
  Matches ic (text s) x y <-> exists cs, segment x y cs /\ same_text ic cs (js s).
Proof. apply Matches_chars. Qed.

(** [p?] *)
Lemma Matches_opt_Char p x y :
  Matches ic (opt (Char p)) x y <->
  exists cs, segment x y cs /\ (cs = [] \/ exists ch, cs = [ch] /\ same_char ic ch p).
Proof.
  unfold opt. split.
  - inversion 1 as [| | | | | | | ? ? ? ? ? y1 ? Hmax H1 _ H2 | | | | ]; subst.
    + exists []. split; [now apply segment_nil | now left].
    + apply Matches_Char in H1 as (ch & Hs & Hch).
      inversion H2 as [| | | | | | | ? ? ? ? ? ? ? Hmax' | | | | ]; subst.
      * exists [ch]. split; [exact Hs | right; eauto].
      * now contradiction Hmax'.
  - intros (cs & Hs & [-> | (ch & -> & Hch)]).
    + apply segment_nil in Hs as ->. apply M_Quant_done. now right.
    + apply (M_Quant_step ic (Char p) 0 (Some 1) true x y y).
      * discriminate.
      * apply Matches_Char; eauto.
      * intros _. destruct Hs as (_ & Hi & _). cbn in Hi. lia.
      * apply M_Quant_done. now left.
Qed.

(** A quantified class: between [min] and [max] characters of the class. *)
Lemma Matches_Quant_CharSet_1 p g re x y :
  Matches ic re x y ->
  forall min max, re = Quant (CharSet p) min max g ->
  (forall n, max = Some n -> min <= n) ->
  exists cs, segment x y cs /\ forallb p cs = true /\
    min <= length cs /\ (forall n, max = Some n -> length cs <= n).
Proof.
  induction 1 as [| | | | | | r0 min0 max0 g0 x Hdone
                  | r0 min0 max0 g0 x y z Hmax H1 _ Hprog H2 IH2 | | | | ];
    intros min max E Hle; try discriminate E; inversion E; subst; clear E.
  - exists []. split; [now apply segment_nil|]. cbn. split; [reflexivity|].
    destruct Hdone as [-> | ->]; [|split; [lia | intros; lia]].
    specialize (Hle 0 eq_refl). split; [lia | intros; lia].
  - apply Matches_CharSet in H1 as (ch & Hs & Hch).
    destruct (IH2 (Nat.pred min) (option_map Nat.pred max) eq_refl)
      as (cs & Hs' & Hall & Hmin & Hmx).
    { intros n Hn. destruct max as [m|]; [|discriminate]. injection Hn as <-.
      specialize (Hle m eq_refl). lia. }
    exists (ch :: cs). split; [exact (segment_app _ _ _ [ch] cs Hs Hs')|].
    cbn. rewrite Hch, Hall. split; [reflexivity|]. split; [lia|].
    intros n ->. specialize (Hmx (Nat.pred n) eq_refl).
    destruct n; [now contradiction Hmax | cbn in Hmx; lia].
Qed.

Lemma Matches_Quant_CharSet_2 p g cs : forall min max x y,
  segment x y cs -> forallb p cs = true ->
  min <= length cs -> (forall n, max = Some n -> length cs <= n) ->
  Matches ic (Quant (CharSet p) min max g) x y.
Proof.
  induction cs as [|ch cs IH]; intros min max x y Hs Hall Hmin Hmax.
  - apply segment_nil in Hs as ->. apply M_Quant_done. cbn in Hmin. right. lia.
  - cbn in Hall. apply andb_prop in Hall as [Hch Hall].
    destruct (segment_split x y [ch] cs Hs) as (y1 & Hs1 & Hs2).
    eapply M_Quant_step.
    + intros ->. specialize (Hmax 0 eq_refl). cbn in Hmax. lia.
    + apply Matches_CharSet. eauto.
    + intros _. destruct Hs1 as (_ & Hi & _). cbn in Hi. lia.
    + apply IH; auto; [cbn in Hmin; lia|].
      intros n Hn. destruct max as [m|]; [|discriminate]. injection Hn as <-.
      specialize (Hmax m eq_refl). cbn in Hmax. lia.
Qed.

Lemma Matches_Quant_CharSet p g min max x y :
  (forall n, max = Some n -> min <= n) ->
  Matches ic (Quant (CharSet p) min max g) x y <->
  exists cs, segment x y cs /\ forallb p cs = true /\
    min <= length cs /\ (forall n, max = Some n -> length cs <= n).
Proof.
  intros Hle. split.
  - intros H. eapply Matches_Quant_CharSet_1; eauto.
  - intros (cs & Hs & Hall & Hmin & Hmax). eapply Matches_Quant_CharSet_2; eauto.
Qed.

End Shapes.

(** *** The search loop *)

Lemma search_None ic re s : forall i,
  search ic re i s = None ->
  forall pre post y, s = pre ++ post -> ~ Matches ic re (start (i + length pre) post) y.
Proof.
  induction s as [|ch s IH]; intros i H pre post y E Hy; cbn [search] in H.
  - destruct pre; [|discriminate]. cbn in E. subst post.
    destruct (matcher _ _ _ _ _) eqn:Hm in H; [discriminate|].
    replace (i + length (@nil char)) with i in Hy by (cbn; lia).
    destruct (matcher_complete _ _ _ _ _ Hm _ Hy) as (? & _ & [=]).
  - destruct (matcher _ _ _ _ _) eqn:Hm in H; [discriminate|].
    destruct pre as [|ch' pre].
    + cbn in E. subst post. replace (i + length (@nil char)) with i in Hy by (cbn; lia).
      destruct (matcher_complete _ _ _ _ _ Hm _ Hy) as (? & _ & [=]).
    + injection E as -> ->.
      apply (IH (S i) H pre post y eq_refl).
      replace (S i + length pre) with (i + length (ch' :: pre)) by (cbn; lia).
      exact Hy.
Qed.

(** The match [exec] returns is the one the matcher finds at the first index
where the pattern can match. *)
Lemma search_Some_matcher ic re s : forall i res,
  search ic re i s = Some res ->
  exists pre post y, s = pre ++ post /\ index res = i + length pre /\
    matcher MatchState ic re (start (i + length pre) post) Some = Some y /\
    groups res = captures y /\
    (forall pre' post' y', s = pre' ++ post' -> length pre' < length pre ->
       ~ Matches ic re (start (i + length pre') post') y').
Proof.
  induction s as [|ch s IH]; intros i res H; cbn [search] in H.
  - destruct (matcher _ _ _ _ _) as [y|] eqn:Hm in H; [|discriminate].
    injection H as <-. exists [], [], y. cbn. rewrite Nat.add_0_r.
    repeat split; auto. intros ? ? ? _ Hlt. cbn in Hlt. lia.
  - destruct (matcher _ _ _ _ _) as [y|] eqn:Hm in H.
    + injection H as <-. exists [], (ch :: s), y. cbn. rewrite Nat.add_0_r.
      repeat split; auto. intros ? ? ? _ Hlt. cbn in Hlt. lia.
    + destruct (IH _ _ H) as (pre & post & y & -> & Hi & Hy & Hg & Hfirst).
      exists (ch :: pre), post, y. cbn [length app].
      replace (i + S (length pre)) with (S i + length pre) by lia.
      repeat split; auto.
      intros pre' post' y' E Hlt. destruct pre' as [|ch' pre'].
      * cbn in E. subst post'. cbn. rewrite Nat.add_0_r. intros Hy'.
        destruct (matcher_complete _ _ _ _ _ Hm _ Hy') as (? & _ & [=]).
      * injection E as -> E. cbn [length].
        replace (i + S (length pre')) with (S i + length pre') by lia.
        apply (Hfirst pre' post' y' E). cbn in Hlt. lia.
Qed.

Lemma search_Some ic re s i res :
  search ic re i s = Some res ->
  exists pre post y, s = pre ++ post /\ index res = i + length pre /\
    Matches ic re (start (i + length pre) post) y /\
    groups res = captures y /\
    (forall pre' post' y', s = pre' ++ post' -> length pre' < length pre ->
       ~ Matches ic re (start (i + length pre') post') y').
Proof.
  intros H.
  apply search_Some_matcher in H as (pre & post & y & E & Hi & Hm & Hg & Hfirst).
  apply matcher_sound in Hm as (y' & Hy & [= ->]).
  exists pre, post, y. auto.
Qed.

End RegExpProofs.

(** ** The choices of the matcher: greedy runs *)

Module GreedyProofs.
Import RegExpSpec RegExpProofs ResponseSpec.
Local Open Scope nat_scope.

Lemma matcher_Seq R ic r1 r2 x c :
  matcher R ic (Seq r1 r2) x c =
  matcher R ic r1 x (fun y => matcher R ic r2 y c).
Proof. reflexivity. Qed.

Lemma matcher_Group_Quant R ic i r min max g x c :
  matcher R ic (Group i (Quant r min max g)) x c =
  RepeatMatcher (matcher R ic r) g
    (fun y => c (with_captures y
                   ((i, firstn (endIndex y - endIndex x) (rest x)) :: captures y)))
    (min + length (rest x) + 1) min max x.
Proof. reflexivity. Qed.

Lemma matcher_Quant R ic r min max g x c :
  matcher R ic (Quant r min max g) x c =
  RepeatMatcher (matcher R ic r) g c (min + length (rest x) + 1) min max x.
Proof. reflexivity. Qed.

Lemma takeWhile_dropWhile p s : takeWhile p s ++ dropWhile p s = s.
Proof. induction s as [|ch s IH]; cbn; [reflexivity|]. destruct (p ch); cbn; congruence. Qed.

Lemma skipn_takeWhile p s : skipn (length (takeWhile p s)) s = dropWhile p s.
Proof.
  rewrite <- (takeWhile_dropWhile p s) at 2.
  now rewrite drop_app_length.
Qed.

(** A greedy quantifier over a class takes the whole run of the class when
what follows accepts that. *)
Lemma matcher_CharSet R ic p x c :
  matcher R ic (CharSet p) x c =
  match charMatches p x with Some y => c y | None => None end.
Proof. reflexivity. Qed.

Lemma RepeatMatcher_greedy_run R ic p (c : MatchState -> option R) fuel :
  forall min i s caps z,
  min + length s + 1 <= fuel ->
  min <= length (takeWhile p s) ->
  c {| endIndex := i + length (takeWhile p s); rest := dropWhile p s;
       captures := caps |} = Some z ->
  RepeatMatcher (matcher R ic (CharSet p)) true c fuel min None
    {| endIndex := i; rest := s; captures := caps |} = Some z.
Proof.
  induction fuel as [|fuel IH]; intros min i s caps z Hfuel Hmin Hc; [lia|].
  cbn [RepeatMatcher]. rewrite matcher_CharSet. unfold charMatches.
  cbn [rest endIndex captures option_map].
  destruct s as [|ch s]; cbn [takeWhile dropWhile length] in *.
  - replace min with 0 by lia. cbn. now rewrite Nat.add_0_r in Hc.
  - destruct (p ch) eqn:Hp; cbn [length] in *.
    + assert (Hrec : RepeatMatcher (matcher R ic (CharSet p)) true c fuel
                       (Nat.pred min) None
                       {| endIndex := S i; rest := s; captures := caps |} = Some z).
      { apply IH; [lia | lia |].
        replace (S i + length (takeWhile p s)) with (i + S (length (takeWhile p s)))
          by lia. exact Hc. }
      cbn [endIndex].
      replace (S i =? i) with false by (symmetry; apply Nat.eqb_neq; lia).
      rewrite andb_false_r, Hrec. now destruct (min =? 0).
    + replace min with 0 by lia. cbn. now rewrite Nat.add_0_r in Hc.
Qed.

Lemma takeWhile_all p s : forallb p (takeWhile p s) = true.
Proof.
  induction s as [|ch s IH]; simpl; [reflexivity|].
  destruct (p ch) eqn:E; simpl; [now rewrite E | reflexivity].
Qed.

Lemma takeWhile_prefix p d post :
  forallb p d = true -> length d <= length (takeWhile p (d ++ post)).
Proof.
  induction d as [|ch d IH]; simpl; [lia|].
  intros H. apply andb_prop in H as [-> H]. simpl. specialize (IH H). lia.
Qed.

Lemma take_takeWhile (p : char -> bool) s : forall k,
  k <= length (takeWhile p s) -> forallb p (take k s) = true.
Proof.
  induction s as [|ch s IH]; intros [|k] Hk; try reflexivity.
  simpl in Hk |- *. destruct (p ch) eqn:E; simpl in Hk; [|lia].
  apply IH. lia.
Qed.

Lemma forallb_take (p : char -> bool) n s :
  forallb p s = true -> forallb p (take n s) = true.
Proof.
  revert n. induction s as [|ch s IH]; intros [|n] H; try reflexivity.
  cbn in H |- *. apply andb_prop in H as [-> H]. now apply IH.
Qed.

Lemma dropWhile_ends_run p s : ends_run p (dropWhile p s).
Proof.
  intros ch t E. induction s as [|c s IH]; simpl in E; [discriminate|].
  destruct (p c) eqn:Hp; [auto | now injection E as <- _].
Qed.

Lemma ends_run_app p (a b : jsstring) :
  (a = [] -> ends_run p b) ->
  (forall ch t, a = ch :: t -> p ch = false) -> ends_run p (a ++ b).
Proof.
  intros Hb Ha ch t E. destruct a as [|c a]; [now apply (Hb eq_refl ch t)|].
  injection E as <- _. now apply (Ha c a).
Qed.

(** A greedy quantifier over a class takes the run of the class before it,
when the run ends there or the quantifier is at its bound, and what follows
accepts that. *)
Lemma RepeatMatcher_greedy_take R ic p (c : MatchState -> option R) d post caps z :
  forall fuel min max i,
  forallb p d = true -> min <= length d ->
  (forall m, max = Some m -> length d <= m) ->
  max = Some (length d) \/ ends_run p post ->
  min + length (d ++ post) + 1 <= fuel ->
  c {| endIndex := i + length d; rest := post; captures := caps |} = Some z ->
  RepeatMatcher (matcher R ic (CharSet p)) true c fuel min max
    {| endIndex := i; rest := d ++ post; captures := caps |} = Some z.
Proof.
  induction d as [|ch d IH]; intros fuel min max i Hd Hmin Hmax Hend Hfuel Hc;
    (destruct fuel as [|fuel]; [lia|]); cbn [RepeatMatcher length app] in *.
  - rewrite Nat.add_0_r in Hc. replace min with 0 by lia.
    destruct max as [[|m]|]; [exact Hc | |];
      (destruct Hend as [Hend | Hend]; [discriminate|]);
      rewrite matcher_CharSet; unfold charMatches; cbn [rest negb Nat.eqb];
      (destruct post as [|c0 t]; [exact Hc|]);
      now rewrite (Hend c0 t eq_refl).
  - apply andb_prop in Hd as [Hch Hd].
    assert (Hrec : RepeatMatcher (matcher R ic (CharSet p)) true c fuel
                     (Nat.pred min) (option_map Nat.pred max)
                     {| endIndex := S i; rest := d ++ post; captures := caps |} = Some z).
    { apply IH; [exact Hd | lia | | | lia |].
      - intros m E. destruct max as [m'|]; [|discriminate]. injection E as <-.
        specialize (Hmax m' eq_refl). lia.
      - destruct Hend as [-> | Hend]; [now left | now right].
      - replace (S i + length d) with (i + S (length d)) by lia. exact Hc. }
    assert (Hmax0 : max <> Some 0) by (intros E; specialize (Hmax 0 E); lia).
    destruct max as [[|m]|]; [congruence | |];
      rewrite matcher_CharSet; unfold charMatches; cbn [rest endIndex captures];
      rewrite Hch; cbn [endIndex];
      replace (S i =? i) with false by (symmetry; apply Nat.eqb_neq; lia);
      rewrite andb_false_r, Hrec; now destruct (min =? 0).
Qed.

(** A greedy quantifier over a class that fails: what follows refuses every
part of the run. *)
Lemma RepeatMatcher_greedy_none R ic p (c : MatchState -> option R) :
  forall fuel i s caps,
  length s + 1 <= fuel ->
  RepeatMatcher (matcher R ic (CharSet p)) true c fuel 0 None
    {| endIndex := i; rest := s; captures := caps |} = None ->
  forall j, j <= length (takeWhile p s) ->
    c {| endIndex := i + j; rest := drop j s; captures := caps |} = None.
Proof.
  induction fuel as [|fuel IH]; intros i s caps Hfuel H j Hj; [lia|].
  cbn [RepeatMatcher Nat.eqb negb andb] in H. rewrite matcher_CharSet in H.
  unfold charMatches in H. cbn [rest endIndex captures option_map Nat.pred] in H.
  assert (H0 : forall o : option R,
            match o with Some z => Some z | None =>
              c {| endIndex := i; rest := s; captures := caps |} end = None ->
            o = None /\ c {| endIndex := i + 0; rest := drop 0 s; captures := caps |} = None).
  { intros [z|] E; [discriminate|]. rewrite Nat.add_0_r. auto. }
  destruct s as [|ch s].
  - apply (H0 None) in H as [_ H]. cbn in Hj. now replace j with 0 by lia.
  - simpl in Hj. destruct (p ch) eqn:Hp; cbn [endIndex] in H.
    + replace (S i =? i) with false in H by (symmetry; apply Nat.eqb_neq; lia).
      apply H0 in H as [Hrec Hc]. destruct j as [|j]; [exact Hc|].
      cbn [drop]. replace (i + S j) with (S i + j) by lia.
      apply (IH (S i) s caps); [cbn [length] in Hfuel; lia | exact Hrec | cbn in Hj; lia].
    + apply (H0 None) in H as [_ H]. cbn in Hj. now replace j with 0 by lia.
Qed.

(** A greedy quantifier over a class takes the longest part of the run that
what follows accepts. *)
Lemma RepeatMatcher_greedy_choice R ic p (c : MatchState -> option R) z :
  forall fuel i s caps,
  length s + 1 <= fuel ->
  RepeatMatcher (matcher R ic (CharSet p)) true c fuel 0 None
    {| endIndex := i; rest := s; captures := caps |} = Some z ->
  exists k, k <= length (takeWhile p s) /\
    c {| endIndex := i + k; rest := drop k s; captures := caps |} = Some z /\
    forall j, k < j <= length (takeWhile p s) ->
      c {| endIndex := i + j; rest := drop j s; captures := caps |} = None.
Proof.
  induction fuel as [|fuel IH]; intros i s caps Hfuel H; [lia|].
  cbn [RepeatMatcher Nat.eqb negb andb] in H. rewrite matcher_CharSet in H.
  unfold charMatches in H. cbn [rest endIndex captures option_map Nat.pred] in H.
  assert (H0 : c {| endIndex := i; rest := s; captures := caps |} = Some z ->
               (forall j, 0 < j <= length (takeWhile p s) ->
                  c {| endIndex := i + j; rest := drop j s; captures := caps |} = None) ->
               exists k, k <= length (takeWhile p s) /\
                 c {| endIndex := i + k; rest := drop k s; captures := caps |} = Some z /\
                 forall j, k < j <= length (takeWhile p s) ->
                   c {| endIndex := i + j; rest := drop j s; captures := caps |} = None).
  { intros Hc Hn. exists 0. rewrite Nat.add_0_r. split; [lia|]. split; [exact Hc | exact Hn]. }
  destruct s as [|ch s].
  - apply H0; [exact H|]. cbn. intros; lia.
  - simpl takeWhile in *. destruct (p ch) eqn:Hp; cbn [endIndex] in H.
    + replace (S i =? i) with false in H by (symmetry; apply Nat.eqb_neq; lia).
      destruct (RepeatMatcher _ _ _ fuel _ _ _) as [z'|] eqn:Hrec in H.
      * injection H as ->.
        apply IH in Hrec as (k & Hk & Hc & Hn); [|cbn [length] in Hfuel; lia].
        exists (S k). cbn [length drop]. split; [lia|].
        replace (i + S k) with (S i + k) by lia. split; [exact Hc|].
        intros [|j] Hj; [lia|]. cbn [drop]. replace (i + S j) with (S i + j) by lia.
        apply Hn. lia.
      * apply H0; [exact H|]. intros [|j] Hj; [lia|].
        cbn [drop]. replace (i + S j) with (S i + j) by lia.
        apply (RepeatMatcher_greedy_none R ic p c fuel (S i) s caps);
          [cbn [length] in Hfuel; lia | exact Hrec | cbn [length] in Hj; lia].
    + apply H0; [exact H|]. cbn. intros; lia.
Qed.

End GreedyProofs.

(** ** Dimensions in a prompt *)

Module DimensionsProofs.
Import RegExpSpec RegExpProofs ResponseSpec GreedyProofs.
Local Open Scope nat_scope.

Lemma Group_segment (i : nat) x y z cs :
  segment x y cs ->
  z = with_captures y ((i, firstn (endIndex y - endIndex x) (rest x)) :: captures y) ->
  rest x = cs ++ rest z /\ endIndex z = endIndex x + length cs /\
  captures z = (i, cs) :: captures x.
Proof.
  intros (Hr & Hi & Hc) ->. cbn. repeat split; auto.
  rewrite Hc, Hr, Hi. replace (endIndex x + length cs - endIndex x) with (length cs) by lia.
  now rewrite take_app_length.
Qed.

Lemma times_digit_ok : forall n : nat, Some 5 = Some n -> 3 <= n.
Proof. intros n [= <-]. lia. Qed.

Lemma star_ok : forall n : nat, @None nat = Some n -> 0 <= n.
Proof. discriminate. Qed.

Lemma dimensions_re_sound x y :
  Matches true dimensions_re x y ->
  exists d1 ws1 sep ws2 d2,
    rest x = d1 ++ ws1 ++ sep ++ ws2 ++ d2 ++ rest y /\
    three_to_five_digits d1 /\ whitespace ws1 /\ x_or_by sep /\
    whitespace ws2 /\ three_to_five_digits d2 /\
    captures y = (2, d2) :: (1, d1) :: captures x.
Proof.
  unfold dimensions_re. cbn [sequence]. intros H.
  apply Matches_Seq in H as (y1 & H1 & H).
  apply Matches_Seq in H as (y2 & H2 & H).
  apply Matches_Seq in H as (y3 & H3 & H).
  apply Matches_Seq in H as (y4 & H4 & H5).
  apply Matches_Group in H1 as (y1' & H1 & E1).
  apply Matches_Quant_CharSet in H1 as (d1 & Hs1 & Hd1 & Hmin1 & Hmax1);
    [|exact times_digit_ok].
  destruct (Group_segment 1 _ _ _ _ Hs1 E1) as (Hr1 & Hi1 & Hc1).
  apply Matches_Quant_CharSet in H2 as (ws1 & (Hr2 & Hi2 & Hc2) & Hw1 & _);
    [|exact star_ok].
  assert (exists sep, segment y2 y3 sep /\ x_or_by sep) as (sep & (Hr3 & Hi3 & Hc3) & Hsep).
  { apply Matches_Alt in H3 as [H3 | H3];
      apply Matches_text in H3 as (sep & Hs & Ht); exists sep;
      (split; [exact Hs|]); [now left | now right]. }
  apply Matches_Quant_CharSet in H4 as (ws2 & (Hr4 & Hi4 & Hc4) & Hw2 & _);
    [|exact star_ok].
  apply Matches_Group in H5 as (y5' & H5 & E5).
  apply Matches_Quant_CharSet in H5 as (d2 & Hs5 & Hd2 & Hmin2 & Hmax2);
    [|exact times_digit_ok].
  destruct (Group_segment 2 _ _ _ _ Hs5 E5) as (Hr5 & Hi5 & Hc5).
  exists d1, ws1, sep, ws2, d2.
  specialize (Hmax1 5 eq_refl). specialize (Hmax2 5 eq_refl).
  split; [now rewrite Hr1, Hr2, Hr3, Hr4, Hr5|].
  split; [split; [exact Hd1 | lia]|].
  split; [exact Hw1|]. split; [exact Hsep|]. split; [exact Hw2|].
  split; [split; [exact Hd2 | lia]|].
  now rewrite Hc5, Hc4, Hc3, Hc2, Hc1.
Qed.

Lemma dimensions_re_complete x d1 ws1 sep ws2 d2 post :
  rest x = d1 ++ ws1 ++ sep ++ ws2 ++ d2 ++ post ->
  three_to_five_digits d1 -> whitespace ws1 -> x_or_by sep ->
  whitespace ws2 -> three_to_five_digits d2 ->
  exists y, Matches true dimensions_re x y.
Proof.
  intros Hr [Hd1 Hl1] Hw1 Hsep Hw2 [Hd2 Hl2].
  unfold dimensions_re. cbn [sequence].
  set (y1 := advance x d1 (ws1 ++ sep ++ ws2 ++ d2 ++ post)).
  assert (Hs1 : segment x y1 d1) by now apply advance_segment.
  set (y1c := with_captures y1
                ((1, firstn (endIndex y1 - endIndex x) (rest x)) :: captures y1)).
  set (y2 := advance y1c ws1 (sep ++ ws2 ++ d2 ++ post)).
  assert (Hs2 : segment y1c y2 ws1) by now apply advance_segment.
  set (y3 := advance y2 sep (ws2 ++ d2 ++ post)).
  assert (Hs3 : segment y2 y3 sep) by now apply advance_segment.
  set (y4 := advance y3 ws2 (d2 ++ post)).
  assert (Hs4 : segment y3 y4 ws2) by now apply advance_segment.
  set (y5 := advance y4 d2 post).
  assert (Hs5 : segment y4 y5 d2) by now apply advance_segment.
  eexists.
  apply Matches_Seq. exists y1c. split.
  { apply Matches_Group. exists y1. split; [|reflexivity].
    apply Matches_Quant_CharSet; [exact times_digit_ok|].
    exists d1. repeat split; auto; try lia. intros n [= <-]. lia. }
  apply Matches_Seq. exists y2. split.
  { apply Matches_Quant_CharSet; [exact star_ok|].
    exists ws1. repeat split; auto; try lia; try apply Hs2. discriminate. }
  apply Matches_Seq. exists y3. split.
  { apply Matches_Alt. destruct Hsep as [Hsep | Hsep]; [left | right];
      apply Matches_text; eauto. }
  apply Matches_Seq. exists y4. split.
  { apply Matches_Quant_CharSet; [exact star_ok|].
    exists ws2. repeat split; auto; try lia; try apply Hs4. discriminate. }
  apply Matches_Group. exists y5. split; [|reflexivity].
  apply Matches_Quant_CharSet; [exact times_digit_ok|].
  exists d2. repeat split; auto; try lia; try apply Hs5. intros n [= <-]. lia.
Qed.

(** ** [parseInt] on a string of digits *)

Lemma is_digit_range ch : is_digit ch = true <-> (48 <= ch <= 57)%N.
Proof. unfold is_digit. rewrite andb_true_iff, !N.leb_le. tauto. Qed.

Lemma digit_not_space ch : is_digit ch = true -> is_space ch = false.
Proof.
  intros H. apply is_digit_range in H.
  assert (E : (ch = 48 \/ ch = 49 \/ ch = 50 \/ ch = 51 \/ ch = 52 \/ ch = 53 \/
               ch = 54 \/ ch = 55 \/ ch = 56 \/ ch = 57)%N) by lia.
  repeat (destruct E as [-> | E]; [reflexivity|]). now subst.
Qed.

Lemma digit_value_digit ch :
  is_digit ch = true -> digit_value 10 ch = Some (ch - 48)%N.
Proof.
  intros H. unfold digit_value. rewrite H. apply is_digit_range in H.
  destruct (N.ltb_spec (ch - 48) 10); [reflexivity | lia].
Qed.

Lemma digits_prefix_digits d : forall acc n,
  forallb is_digit d = true ->
  digits_prefix 10 acc n d =
    (fold_left (fun a ch => (a * 10 + (ch - 48))%N) d acc, n + length d).
Proof.
  induction d as [|ch d IH]; intros acc n H; cbn [digits_prefix fold_left length].
  - f_equal. lia.
  - cbn in H. apply andb_prop in H as [Hch H].
    rewrite (digit_value_digit _ Hch), (IH _ _ H). f_equal. lia.
Qed.

Lemma parseInt_digits d :
  forallb is_digit d = true -> d <> [] ->
  parseInt d = of_Z (Z.of_N (decimal d)).
Proof.
  intros Hd Hne. destruct d as [|c1 d]; [congruence|].
  pose proof Hd as Hall. cbn in Hd. apply andb_prop in Hd as [H1 Hd].
  unfold parseInt. cbn [trimStart]. rewrite (digit_not_space _ H1).
  pose proof (proj1 (is_digit_range _) H1) as R1.
  replace (c1 =? 45)%N with false by (symmetry; apply N.eqb_neq; lia).
  replace (c1 =? 43)%N with false by (symmetry; apply N.eqb_neq; lia).
  cbn [orb].
  assert (Hhex : match c1 :: d with
                 | c0 :: c2 :: _ => ((c0 =? 48) && ((c2 =? 120) || (c2 =? 88)))%N
                 | _ => false
                 end = false).
  { destruct d as [|c2 d]; [reflexivity|]. cbn in Hd.
    apply andb_prop in Hd as [H2 _]. apply is_digit_range in H2.
    replace (c2 =? 120)%N with false by (symmetry; apply N.eqb_neq; lia).
    replace (c2 =? 88)%N with false by (symmetry; apply N.eqb_neq; lia).
    now rewrite andb_false_r. }
  rewrite Hhex, (digits_prefix_digits _ _ _ Hall). cbn [length Nat.add].
  reflexivity.
Qed.

Lemma dimensions_at_matches prompt pre d1 d2 :
  dimensions_at prompt pre d1 d2 ->
  exists post y, prompt = pre ++ post /\
    Matches true dimensions_re (start (0 + length pre) post) y.
Proof.
  intros (ws1 & sep & ws2 & post & -> & Hd1 & Hw1 & Hsep & Hw2 & Hd2).
  destruct (dimensions_re_complete
              (start (0 + length pre) (d1 ++ ws1 ++ sep ++ ws2 ++ d2 ++ post))
              d1 ws1 sep ws2 d2 post eq_refl Hd1 Hw1 Hsep Hw2 Hd2) as (y & Hy).
  eauto.
Qed.

Lemma space_not_digit ch : is_space ch = true -> is_digit ch = false.
Proof.
  intros Hs. destruct (is_digit ch) eqn:Hd; [|reflexivity].
  rewrite (digit_not_space _ Hd) in Hs. discriminate.
Qed.

Lemma x_or_by_start sep :
  x_or_by sep -> exists c t, sep = c :: t /\ is_digit c = false /\ is_space c = false.
Proof.
  assert (Hcan : forall c k, (k = 88 \/ k = 66)%N -> Canonicalize true c = k ->
                   is_digit c = false /\ is_space c = false).
  { intros c k Hk Hc. unfold Canonicalize in Hc. cbn [andb] in Hc. revert Hc.
    destruct ((97 <=? c)%N && (c <=? 122)%N) eqn:E; intros Hc.
    - apply andb_prop in E as [E1 E2]. apply N.leb_le in E1, E2.
      assert (c = 120 \/ c = 98)%N as [-> | ->] by lia; split; reflexivity.
    - assert (c = 88 \/ c = 66)%N as [-> | ->] by lia; split; reflexivity. }
  intros [H | H]; destruct sep as [|c t]; try discriminate H;
    injection H as Hc _; exists c, t; (split; [reflexivity|]);
    (change (Canonicalize true c = 88%N) in Hc
     || change (Canonicalize true c = 66%N) in Hc);
    (eapply Hcan; [|exact Hc]); lia.
Qed.

(** x|by : the alternative that fits is taken. *)
Lemma matcher_x_or_by R sep i r caps (c : MatchState -> option R) z :
  x_or_by sep ->
  c {| endIndex := i + length sep; rest := r; captures := caps |} = Some z ->
  matcher R true (Alt (text "x") (text "by"))
    {| endIndex := i; rest := sep ++ r; captures := caps |} c = Some z.
Proof.
  intros [H | H] Hc.
  - destruct sep as [|c1 [|? ?]]; try discriminate H. injection H as H1.
    change (Canonicalize true c1 = 88%N) in H1.
    cbn [length app] in *. replace (i + 1) with (S i) in Hc by lia.
    unfold text. cbn [js list_ascii_of_string map fold_right matcher].
    unfold charMatches. cbn [rest endIndex captures].
    change (Canonicalize true (N_of_ascii "x")) with 88%N.
    rewrite H1. cbn [N.eqb Pos.eqb]. now rewrite Hc.
  - destruct sep as [|c1 [|c2 [|? ?]]]; try discriminate H. injection H as H1 H2.
    change (Canonicalize true c1 = 66%N) in H1.
    change (Canonicalize true c2 = 89%N) in H2.
    cbn [length app] in *. replace (i + 2) with (S (S i)) in Hc by lia.
    unfold text. cbn [js list_ascii_of_string map fold_right matcher].
    unfold charMatches. cbn [rest endIndex captures].
    change (Canonicalize true (N_of_ascii "x")) with 88%N.
    change (Canonicalize true (N_of_ascii "b")) with 66%N.
    change (Canonicalize true (N_of_ascii "y")) with 89%N.
    rewrite H1. cbn [N.eqb Pos.eqb rest endIndex captures]. rewrite H2.
    cbn [N.eqb Pos.eqb]. exact Hc.
Qed.

(** What the matcher finds at a place where the pattern can match: the
reading in which the second number goes as far as it can. *)
Lemma dimensions_re_matcher x d1 ws1 sep ws2 d2 post :
  rest x = d1 ++ ws1 ++ sep ++ ws2 ++ d2 ++ post ->
  three_to_five_digits d1 -> whitespace ws1 -> x_or_by sep ->
  whitespace ws2 -> three_to_five_digits d2 ->
  length d2 = 5 \/ ends_run is_digit post ->
  exists y, matcher MatchState true dimensions_re x Some = Some y /\
    captures y = (2, d2) :: (1, d1) :: captures x.
Proof.
  intros Hr [Hd1 Hl1] Hw1 Hsep Hw2 [Hd2 Hl2] Hend.
  destruct x as [i s caps]. cbn [rest captures] in *. subst s.
  destruct (x_or_by_start _ Hsep) as (c0 & t0 & Esep & Hc0d & Hc0s).
  assert (Hd2h : exists c2 t2, d2 = c2 :: t2 /\ is_digit c2 = true).
  { destruct d2 as [|c2 t2]; [cbn in Hl2; lia|]. exists c2, t2.
    cbn in Hd2. apply andb_prop in Hd2 as [? _]. auto. }
  destruct Hd2h as (c2 & t2 & Ed2 & Hc2).
  unfold dimensions_re, times, star, digit, space. cbn [sequence].
  eexists. split.
  - rewrite matcher_Seq, matcher_Group_Quant. cbn [rest endIndex].
    apply RepeatMatcher_greedy_take;
      [exact Hd1 | apply Hl1 | intros m [= <-]; apply Hl1 | | apply Nat.le_refl |].
    { right. apply ends_run_app.
      - intros ->. cbn [app]. rewrite Esep. intros ch t [= <- _]. exact Hc0d.
      - intros ch t ->. cbn in Hw1. apply andb_prop in Hw1 as [Hch _].
        now apply space_not_digit. }
    cbn [with_captures endIndex rest captures].
    rewrite matcher_Seq, matcher_Quant. cbn [rest].
    apply RepeatMatcher_greedy_take;
      [exact Hw1 | apply Nat.le_0_l | discriminate | | apply Nat.le_refl |].
    { right. rewrite Esep. intros ch t [= <- _]. exact Hc0s. }
    rewrite matcher_Seq. cbn [endIndex].
    apply matcher_x_or_by; [exact Hsep|].
    rewrite matcher_Seq, matcher_Quant. cbn [rest].
    apply RepeatMatcher_greedy_take;
      [exact Hw2 | apply Nat.le_0_l | discriminate | | apply Nat.le_refl |].
    { right. rewrite Ed2. intros ch t [= <- _]. now apply digit_not_space. }
    rewrite matcher_Group_Quant. cbn [rest endIndex].
    apply RepeatMatcher_greedy_take;
      [exact Hd2 | apply Hl2 | intros m [= <-]; apply Hl2 | | apply Nat.le_refl |].
    { destruct Hend as [-> | Hend]; [now left | now right]. }
    reflexivity.
  - cbn [with_captures captures endIndex rest].
    repeat match goal with
    | |- context [take (?a + length ?d - ?a) (?d ++ ?r)] =>
        replace (a + length d - a) with (length d) by lia;
        rewrite (take_app_length d r)
    end.
    reflexivity.
Qed.

Lemma dimensions_read_at prompt pre d1 d2 :
  dimensions_read prompt pre d1 d2 -> dimensions_at prompt pre d1 d2.
Proof.
  intros (ws1 & sep & ws2 & post & E & Hd1 & Hw1 & Hsep & Hw2 & Hd2 & _).
  exists ws1, sep, ws2, post. auto 10.
Qed.

(** Where the pattern can match, there is a reading in which the second
number goes as far as it can. *)
Lemma dimensions_at_read prompt pre d1 d2 :
  dimensions_at prompt pre d1 d2 -> exists d2', dimensions_read prompt pre d1 d2'.
Proof.
  intros (ws1 & sep & ws2 & post & -> & Hd1 & Hw1 & Hsep & Hw2 & [Hd2 Hl2]).
  set (run := takeWhile is_digit (d2 ++ post)).
  pose proof (takeWhile_prefix is_digit d2 post Hd2) as Hrun. fold run in Hrun.
  exists (take 5 run), ws1, sep, ws2, (drop 5 run ++ dropWhile is_digit (d2 ++ post)).
  split.
  { rewrite (app_assoc (take 5 run)), take_drop. unfold run.
    now rewrite takeWhile_dropWhile. }
  do 4 (split; [assumption|]). split; [split|].
  - apply forallb_take, takeWhile_all.
  - rewrite length_take. lia.
  - destruct (le_lt_dec 5 (length run)) as [Hge | Hlt].
    + left. rewrite length_take. lia.
    + right. rewrite drop_ge by lia. apply dropWhile_ends_run.
Qed.

(** The reading is determined by the place where it starts. *)
Lemma dimensions_read_unique prompt pre d1 d2 pre' d1' d2' :
  dimensions_read prompt pre d1 d2 -> dimensions_read prompt pre' d1' d2' ->
  length pre = length pre' -> d1 = d1' /\ d2 = d2'.
Proof.
  intros (ws1 & sep & ws2 & post & E & Hd1 & Hw1 & Hsep & Hw2 & Hd2 & Hend)
         (ws1' & sep' & ws2' & post' & E' & Hd1' & Hw1' & Hsep' & Hw2' & Hd2' & Hend') Hlen.
  rewrite E in E'. apply app_inj_1 in E' as [_ E']; [|exact Hlen].
  destruct (dimensions_re_matcher (start 0 (d1 ++ ws1 ++ sep ++ ws2 ++ d2 ++ post))
              d1 ws1 sep ws2 d2 post eq_refl Hd1 Hw1 Hsep Hw2 Hd2 Hend) as (y & Hy & Hc).
  destruct (dimensions_re_matcher (start 0 (d1 ++ ws1 ++ sep ++ ws2 ++ d2 ++ post))
              d1' ws1' sep' ws2' d2' post' E' Hd1' Hw1' Hsep' Hw2' Hd2' Hend')
    as (y' & Hy' & Hc').
  rewrite Hy in Hy'. injection Hy' as <-. rewrite Hc in Hc'.
  injection Hc' as -> ->. auto.
Qed.

Lemma extractDimensions_cases prompt :
  match extractDimensionsFromPrompt prompt with
  | None => ~ exists pre d1 d2, dimensions_at prompt pre d1 d2
  | Some dims =>
      exists pre d1 d2, dimensions_read prompt pre d1 d2 /\
        dims = {| width := of_Z (Z.of_N (decimal d1));
                  height := of_Z (Z.of_N (decimal d2)) |} /\
        forall pre' d1' d2', dimensions_at prompt pre' d1' d2' ->
          length pre <= length pre'
  end.
Proof.
  unfold extractDimensionsFromPrompt, match_.
  destruct (search true dimensions_re 0 prompt) as [res|] eqn:Hs.
  - apply search_Some_matcher in Hs as (pre & post & y & -> & _ & Hm & Hg & Hfirst).
    destruct (matcher_sound _ _ _ _ _ _ Hm) as (y0 & Hy & [= ->]).
    apply dimensions_re_sound in Hy
      as (d1 & ws1 & sep & ws2 & d2 & Hr & Hd1 & Hw1 & Hsep & Hw2 & Hd2 & _).
    cbn [rest start] in Hr.
    assert (Hat : dimensions_at (pre ++ post) pre d1 d2).
    { exists ws1, sep, ws2, (rest y). rewrite Hr. auto 10. }
    destruct (dimensions_at_read _ _ _ _ Hat) as (d2' & Hread).
    pose proof Hread as (v1 & s & v2 & post' & E & Hd1' & Hv1 & Hs & Hv2 & Hd2' & Hend).
    apply app_inv_head in E.
    destruct (dimensions_re_matcher (start (0 + length pre) post)
                d1 v1 s v2 d2' post' E Hd1' Hv1 Hs Hv2 Hd2' Hend) as (y' & Hy' & Hc).
    rewrite Hm in Hy'. injection Hy' as <-.
    cbn [captures start] in Hc. rewrite Hg, Hc. cbn [capture Nat.eqb].
    exists pre, d1, d2'. split; [exact Hread|]. split.
    + f_equal; apply parseInt_digits.
      * apply Hd1.
      * destruct Hd1 as [_ Hl]. intros ->. cbn in Hl. lia.
      * apply Hd2'.
      * destruct Hd2' as [_ Hl]. intros ->. cbn in Hl. lia.
    + intros pre' d1' d2'' Hat'.
      destruct (le_lt_dec (length pre) (length pre')) as [|Hlt]; [assumption|].
      destruct (dimensions_at_matches _ _ _ _ Hat') as (post'' & y' & E' & Hy').
      now destruct (Hfirst pre' post'' y' E' Hlt).
  - intros (pre & d1 & d2 & Hat).
    destruct (dimensions_at_matches _ _ _ _ Hat) as (post & y & E & Hy).
    exact (search_None _ _ _ _ Hs pre post y E Hy).
Qed.

(** C7: [extractDimensionsFromPrompt] returns no match exactly when the
prompt has no substring made of a number of three to five digits, optional
white space, "x" or "by" in any case, optional white space and a number of
three to five digits.  Otherwise it returns the two numbers, as integers,
of the first such substring: no such substring starts earlier in the
prompt, and at that place the second number takes the digits that follow,
up to five of them (the first is a whole run of digits by what follows
it).  This reading determines the result: whenever the prompt can be read
so at a place before which no such substring starts, the function returns
these two numbers.  The function is total, and the stated results hold. *)
Theorem extractDimensionsFromPrompt_first_match (prompt : jsstring) :
  (extractDimensionsFromPrompt prompt = None <->
   ~ exists pre d1 d2, dimensions_at prompt pre d1 d2) /\
  (forall dims, extractDimensionsFromPrompt prompt = Some dims ->
     exists pre d1 d2, dimensions_read prompt pre d1 d2 /\
       width dims = of_Z (Z.of_N (decimal d1)) /\
       height dims = of_Z (Z.of_N (decimal d2)) /\
       forall pre' d1' d2', dimensions_at prompt pre' d1' d2' ->
         length pre <= length pre') /\
  (forall pre d1 d2, dimensions_read prompt pre d1 d2 ->
     (forall pre' d1' d2', dimensions_at prompt pre' d1' d2' ->
        length pre <= length pre') ->
     extractDimensionsFromPrompt prompt
       = Some {| width := of_Z (Z.of_N (decimal d1));
                 height := of_Z (Z.of_N (decimal d2)) |}) /\
  extractDimensionsFromPrompt (js "Cyberpunk city 1920x1080")
    = Some {| width := of_Z 1920; height := of_Z 1080 |} /\
  extractDimensionsFromPrompt (js "wide 800 BY 1234567")
    = Some {| width := of_Z 800; height := of_Z 12345 |} /\
  extractDimensionsFromPrompt (js "a nice sunset") = None.
Proof.
  pose proof (extractDimensions_cases prompt) as H.
  split; [|split; [|split; [|repeat split; vm_compute; reflexivity]]].
  - destruct (extractDimensionsFromPrompt prompt) as [dims|].
    + split; [discriminate|]. intros Hno. exfalso. apply Hno.
      destruct H as (pre & d1 & d2 & Hread & _).
      exists pre, d1, d2. now apply dimensions_read_at.
    + split; [intros _; exact H | reflexivity].
  - intros dims E. rewrite E in H. destruct H as (pre & d1 & d2 & Hread & -> & Hmin).
    exists pre, d1, d2. auto.
  - intros pre d1 d2 Hread Hmin.
    destruct (extractDimensionsFromPrompt prompt) as [dims|].
    + destruct H as (pre0 & d10 & d20 & Hread0 & -> & Hmin0).
      destruct (dimensions_read_unique _ _ _ _ _ _ _ Hread Hread0) as [-> ->];
        [|reflexivity].
      apply Nat.le_antisymm.
      * apply (Hmin pre0 d10 d20), dimensions_read_at, Hread0.
      * apply (Hmin0 pre d1 d2), dimensions_read_at, Hread.
    + exfalso. apply H. exists pre, d1, d2. now apply dimensions_read_at.
Qed.

End DimensionsProofs.

(** ** Sections of a response *)

Module ResponseProofs.
Import RegExpSpec RegExpProofs GreedyProofs DimensionsProofs ResponseSpec.
Local Open Scope nat_scope.

Lemma same_char_symbol ic ch p : (p < 65)%N -> same_char ic ch p -> ch = p.
Proof.
  unfold same_char, Canonicalize. intros Hp.
  replace (ic && (97 <=? p)%N && (p <=? 122)%N) with false.
  2:{ symmetry. destruct ic; [|reflexivity]. cbn.
      destruct (N.leb_spec 97 p); [lia | reflexivity]. }
  destruct (ic && (97 <=? ch)%N && (ch <=? 122)%N) eqn:E; [|auto].
  apply andb_prop in E as [E _]. apply andb_prop in E as [_ E].
  apply N.leb_le in E. lia.
Qed.

Lemma same_text_symbols ic l : Forall (fun p => (p < 65)%N) l ->
  forall cs, same_text ic cs l -> cs = l.
Proof.
  induction 1 as [|p l Hp _ IH]; intros cs H.
  - destruct cs; [reflexivity | discriminate].
  - destruct cs as [|ch cs]; [discriminate|]. injection H as Hch H.
    f_equal; [exact (same_char_symbol ic ch p Hp Hch) | now apply IH].
Qed.

Lemma same_text_refl ic l : same_text ic l l.
Proof. reflexivity. Qed.

Lemma opt_star x y :
  Matches true (opt (Char 42)) x y <->
  exists cs, segment x y cs /\ (cs = [] \/ cs = [42%N]).
Proof.
  rewrite Matches_opt_Char. split; intros (cs & Hs & H); exists cs; (split; [exact Hs|]).
  - destruct H as [-> | (ch & -> & Hch)]; [now left | right].
    f_equal. now apply (same_char_symbol true).
  - destruct H as [-> | ->]; [now left | right]. exists 42%N. split; reflexivity.
Qed.

Lemma opt_colon x y :
  Matches true (opt (Char 58)) x y <-> exists cs, segment x y cs /\ optional_colon cs.
Proof.
  rewrite Matches_opt_Char. split; intros (cs & Hs & H); exists cs; (split; [exact Hs|]).
  - destruct H as [-> | (ch & -> & Hch)]; [now left | right].
    f_equal. now apply (same_char_symbol true).
  - destruct H as [-> | ->]; [now left | right]. exists 58%N. split; reflexivity.
Qed.

(** One or two asterisks: \*\*? *)
Lemma Matches_stars re x z :
  Matches true (Seq (Char 42) (Seq (opt (Char 42)) re)) x z <->
  exists s y, segment x y s /\ stars s /\ Matches true re y z.
Proof.
  rewrite Matches_Seq. split.
  - intros (y1 & H1 & H). apply Matches_Seq in H as (y2 & H2 & H).
    apply Matches_Char in H1 as (ch & Hs1 & Hch).
    apply (same_char_symbol true) in Hch as ->; [|reflexivity].
    apply opt_star in H2 as (cs & Hs2 & Hcs).
    exists ([42%N] ++ cs), y2. split; [eapply segment_app; eassumption|].
    split; [|exact H]. destruct Hcs as [-> | ->]; [now left | now right].
  - intros (s & y & Hs & Hst & H).
    assert (exists cs, s = [42%N] ++ cs /\ (cs = [] \/ cs = [42%N])) as (cs & -> & Hcs).
    { destruct Hst as [-> | ->]; [exists [] | exists [42%N]]; auto. }
    destruct (segment_split _ _ _ _ Hs) as (y1 & Hs1 & Hs2).
    exists y1. split; [apply Matches_Char; exists 42%N; split; [exact Hs1 | reflexivity]|].
    apply Matches_Seq. exists y. split; [apply opt_star; eauto | exact H].
Qed.

Lemma Matches_stars_end x z :
  Matches true (Seq (Char 42) (opt (Char 42))) x z <->
  exists s, segment x z s /\ stars s.
Proof.
  rewrite Matches_Seq. split.
  - intros (y1 & H1 & H2).
    apply Matches_Char in H1 as (ch & Hs1 & Hch).
    apply (same_char_symbol true) in Hch as ->; [|reflexivity].
    apply opt_star in H2 as (cs & Hs2 & Hcs).
    exists ([42%N] ++ cs). split; [eapply segment_app; eassumption|].
    destruct Hcs as [-> | ->]; [now left | now right].
  - intros (s & Hs & Hst).
    assert (exists cs, s = [42%N] ++ cs /\ (cs = [] \/ cs = [42%N])) as (cs & -> & Hcs).
    { destruct Hst as [-> | ->]; [exists [] | exists [42%N]]; auto. }
    destruct (segment_split _ _ _ _ Hs) as (y1 & Hs1 & Hs2).
    exists y1. split; [apply Matches_Char; exists 42%N; split; [exact Hs1 | reflexivity]|].
    apply opt_star; eauto.
Qed.

Lemma emphasised_shape name x z :
  Matches true (emphasised name) x z <->
  exists lab, segment x z lab /\ labelled stars name lab.
Proof.
  unfold emphasised. cbn [sequence]. rewrite Matches_stars. split.
  - intros (s1 & y1 & Hs1 & Hst1 & H).
    apply Matches_Seq in H as (y2 & H2 & H).
    apply Matches_Seq in H as (y3 & H3 & H).
    apply Matches_text in H2 as (nm & Hs2 & Hnm).
    apply opt_colon in H3 as (col & Hs3 & Hcol).
    apply Matches_stars_end in H as (s2 & Hs4 & Hst2).
    exists (s1 ++ nm ++ col ++ s2). split.
    + eapply segment_app; [eassumption|]. eapply segment_app; [eassumption|].
      eapply segment_app; eassumption.
    + exists s1, nm, col, s2. auto.
  - intros (lab & Hs & s1 & nm & col & s2 & -> & Hst1 & Hnm & Hcol & Hst2).
    destruct (segment_split _ _ _ _ Hs) as (y1 & Hs1 & Hs').
    destruct (segment_split _ _ _ _ Hs') as (y2 & Hs2 & Hs'').
    destruct (segment_split _ _ _ _ Hs'') as (y3 & Hs3 & Hs4).
    exists s1, y1. split; [exact Hs1|]. split; [exact Hst1|].
    apply Matches_Seq. exists y2. split; [apply Matches_text; eauto|].
    apply Matches_Seq. exists y3. split; [apply opt_colon; eauto|].
    apply Matches_stars_end. eauto.
Qed.

(** *** Bullets *)

Lemma trimStart_dropWhile s : trimStart s = dropWhile is_space s.
Proof. induction s as [|ch s IH]; cbn; [reflexivity|]. now destruct (is_space ch). Qed.

Lemma search_AssertStart_later ic re s : forall i,
  search ic (Seq AssertStart re) (S i) s = None.
Proof. induction s as [|ch s IH]; intros i; cbn; auto. Qed.

Lemma bullet_test line :
  is_Some_b (match_ false bullet_re line) = starts_with_bullet line.
Proof.
  unfold match_, bullet_re. cbn [sequence].
  destruct line as [|ch s]; [reflexivity|].
  cbn [search matcher charMatches rest endIndex Nat.eqb starts_with_bullet].
  destruct (is_bullet ch); [reflexivity|].
  now rewrite search_AssertStart_later.
Qed.

Lemma bullet_strip line :
  starts_with_bullet line = true ->
  replace_empty false bullet_prefix_re line = strip_bullets line.
Proof.
  intros Hb. unfold replace_empty, match_, bullet_prefix_re, strip_bullets, plus, star.
  cbn [sequence].
  set (run1 := takeWhile is_bullet line).
  set (rest1 := dropWhile is_bullet line).
  set (run2 := takeWhile is_space rest1).
  assert (Hm : matcher MatchState false
                 (Seq AssertStart
                    (Seq (Quant (CharSet is_bullet) 1 None true)
                         (Quant space 0 None true)))
                 {| endIndex := 0; rest := line; captures := [] |} Some
               = Some {| endIndex := 0 + length run1 + length run2;
                         rest := dropWhile is_space rest1; captures := [] |}).
  { unfold space. set (cb := CharSet is_bullet). set (cs := CharSet is_space).
    cbn [matcher endIndex Nat.eqb rest]. subst cb cs.
    apply RepeatMatcher_greedy_run; [lia | |].
    - destruct line as [|ch s]; [discriminate|]. cbn in Hb |- *. rewrite Hb. cbn. lia.
    - cbn [rest]. apply RepeatMatcher_greedy_run; [lia | lia | reflexivity]. }
  destruct line as [|ch s]; [discriminate|]. cbn [search]. rewrite Hm.
  cbn [index matched endIndex firstn app Nat.add].
  rewrite Nat.sub_0_r, length_take.
  assert (Hline : ch :: s = run1 ++ run2 ++ dropWhile is_space rest1).
  { unfold run2. rewrite takeWhile_dropWhile. unfold run1, rest1.
    now rewrite takeWhile_dropWhile. }
  rewrite Hline, app_assoc, drop_app_length'; [reflexivity|].
  rewrite !length_app. lia.
Qed.

Lemma style_lines_spec (body : jsstring) :
  map (fun line => replace_empty false bullet_prefix_re line)
    (filter (fun line => is_Some_b (match_ false bullet_re line) = true)
       (map trim (split_char LF body)))
  = style_lines body.
Proof.
  unfold style_lines.
  rewrite (list_filter_iff _ (fun line => starts_with_bullet line = true))
    by (intros line; now rewrite bullet_test).
  apply map_ext_in. intros line Hin.
  apply list_elem_of_In, list_elem_of_filter in Hin as [Hb _].
  now apply bullet_strip.
Qed.

(** *** The choices of the matcher *)

Lemma matcher_Lookahead R ic r x c :
  matcher R ic (Lookahead r) x c =
  match matcher MatchState ic r x Some with
  | Some y => c (with_captures x (captures y))
  | None => None
  end.
Proof. reflexivity. Qed.

Lemma matcher_any R ic x c :
  matcher R ic any x c =
  match rest x with
  | ch :: s' => c {| endIndex := S (endIndex x); rest := s'; captures := captures x |}
  | [] => None
  end.
Proof. cbn. unfold charMatches. now destruct (rest x). Qed.

(** [p?] takes the character when what follows accepts that. *)
Lemma opt_Char_greedy R ic p x (c : MatchState -> option R) z :
  matcher R ic (opt (Char p)) x c = Some z ->
  (exists ch y, segment x y [ch] /\ same_char ic ch p /\ c y = Some z) \/
  (c x = Some z /\
   forall ch y, segment x y [ch] -> same_char ic ch p -> c y = None).
Proof.
  unfold opt. cbn [matcher]. rewrite Nat.add_1_r. cbn [RepeatMatcher Nat.eqb negb].
  cbn [matcher Nat.add andb option_map Nat.pred].
  destruct (charMatches _ x) as [y|] eqn:Hy.
  - pose proof Hy as Hy'.
    apply charMatches_segment in Hy' as (ch & Hs & Hok). apply N.eqb_eq in Hok.
    pose proof Hs as (Hr & Hi & _).
    replace (endIndex y =? endIndex x) with false
      by (symmetry; apply Nat.eqb_neq; cbn in Hi; lia).
    rewrite Hr. cbn [length app RepeatMatcher].
    destruct (c y) as [z'|] eqn:Hc.
    + intros [= <-]. left. eauto.
    + intros H. right. split; [exact H|]. intros ch' y' Hs' Hch'.
      assert (E : charMatches
                (fun ch0 => (Canonicalize ic ch0 =? Canonicalize ic p)%N) x = Some y').
      { apply charMatches_segment. exists ch'. split; [exact Hs' | now apply N.eqb_eq]. }
      rewrite Hy in E. now injection E as <-.
  - intros H. right. split; [exact H|]. intros ch' y' Hs' Hch'.
    assert (E : charMatches
              (fun ch0 => (Canonicalize ic ch0 =? Canonicalize ic p)%N) x = Some y').
    { apply charMatches_segment. exists ch'. split; [exact Hs' | now apply N.eqb_eq]. }
    rewrite Hy in E. discriminate E.
Qed.

(** A lazy quantifier over [\s\S] stops at the first place where what
follows accepts. *)
Lemma RepeatMatcher_lazy_any R ic (c : MatchState -> option R) fuel :
  forall min i s caps z,
  RepeatMatcher (matcher R ic any) false c fuel min None
    {| endIndex := i; rest := s; captures := caps |} = Some z ->
  exists k, min <= k <= length s /\
    c {| endIndex := i + k; rest := drop k s; captures := caps |} = Some z /\
    forall j, min <= j < k ->
      c {| endIndex := i + j; rest := drop j s; captures := caps |} = None.
Proof.
  induction fuel as [|fuel IH]; intros min i s caps z H; [discriminate|].
  cbn [RepeatMatcher] in H. rewrite !matcher_any in H.
  cbn [rest endIndex captures option_map] in H.
  assert (Hzero : c {| endIndex := i; rest := s; captures := caps |} = Some z ->
                  min = 0 ->
                  exists k, min <= k <= length s /\
                    c {| endIndex := i + k; rest := drop k s; captures := caps |} = Some z /\
                    forall j, min <= j < k ->
                      c {| endIndex := i + j; rest := drop j s; captures := caps |} = None).
  { intros Hc ->. exists 0. rewrite Nat.add_0_r. cbn [drop]. split; [lia|].
    split; [exact Hc | intros; lia]. }
  destruct s as [|ch s].
  - destruct (min =? 0) eqn:Hmin; cbn [negb] in H; [|discriminate].
    apply Nat.eqb_eq in Hmin.
    destruct (c _) eqn:Hc in H; [|discriminate]. injection H as ->. now apply Hzero.
  - replace (S i =? i) with false in H by (symmetry; apply Nat.eqb_neq; lia).
    rewrite andb_false_r in H.
    assert (Hstep : RepeatMatcher (matcher R ic any) false c fuel (Nat.pred min) None
                      {| endIndex := S i; rest := s; captures := caps |} = Some z ->
                    (min = 0 -> c {| endIndex := i; rest := ch :: s; captures := caps |} = None) ->
                    exists k, min <= k <= length (ch :: s) /\
                      c {| endIndex := i + k; rest := drop k (ch :: s);
                           captures := caps |} = Some z /\
                      forall j, min <= j < k ->
                        c {| endIndex := i + j; rest := drop j (ch :: s);
                             captures := caps |} = None).
    { intros Hr Hnone. apply IH in Hr as (k & Hk & Hc & Hbefore).
      exists (S k). cbn [length drop]. split; [lia|].
      replace (i + S k) with (S i + k) by lia. split; [exact Hc|].
      intros [|j] Hj.
      - rewrite Nat.add_0_r. cbn [drop]. apply Hnone. lia.
      - cbn [drop]. replace (i + S j) with (S i + j) by lia. apply Hbefore. lia. }
    destruct (min =? 0) eqn:Hmin; cbn [negb] in H.
    + apply Nat.eqb_eq in Hmin.
      destruct (c _) eqn:Hc in H.
      * injection H as ->. now apply Hzero.
      * apply Hstep; auto.
    + apply Nat.eqb_neq in Hmin. apply Hstep; [exact H | intros; lia].
Qed.

(** What a lazy capture followed by a lookahead yields: the capture stops
at the first place where the lookahead can match. *)
Lemma lazy_capture_lookahead look min x z :
  matcher MatchState true
    (Seq (Group 1 (Quant any min None false)) (Lookahead look)) x Some = Some z ->
  exists body y,
    rest x = body ++ rest z /\ min <= length body /\
    Matches true look
      {| endIndex := endIndex x + length body; rest := rest z;
         captures := (1, body) :: captures x |} y /\
    captures z = captures y /\
    forall j y', min <= j < length body ->
      ~ Matches true look (start (endIndex x + j) (drop j (rest x))) y'.
Proof.
  rewrite matcher_Seq, matcher_Group_Quant. destruct x as [i s caps].
  cbn [rest endIndex captures]. intros H.
  apply RepeatMatcher_lazy_any in H as (k & Hk & Hc & Hbefore).
  cbn [with_captures rest endIndex captures] in Hc, Hbefore.
  rewrite matcher_Lookahead in Hc.
  destruct (matcher MatchState true look _ Some) as [y|] eqn:Hl in Hc; [|discriminate].
  injection Hc as <-. cbn [with_captures rest captures].
  apply matcher_sound in Hl as (y' & Hy & [= ->]).
  replace (i + k - i) with k in * by lia.
  exists (take k s), y. rewrite take_drop, length_take.
  replace (k `min` length s) with k by lia.
  split; [reflexivity|]. split; [lia|].
  split; [exact Hy|]. split; [reflexivity|].
  intros j y' Hj Hy'. specialize (Hbefore j ltac:(lia)).
  rewrite matcher_Lookahead in Hbefore.
  destruct (matcher MatchState true look _ Some) as [y0|] eqn:Hl in Hbefore;
    [discriminate|].
  destruct (Matches_same_place _ _ _ _ Hy'
              {| endIndex := i + j; rest := drop j s;
                 captures := (1, take (i + j - i) s) :: caps |})
    as (y'' & _ & Hy''); [split; reflexivity|].
  destruct (matcher_complete _ _ _ _ _ Hl _ Hy'') as (? & _ & [=]).
Qed.

(** The label pattern up to its last, optional, asterisk. *)
Lemma matcher_emphasised R name k x c :
  matcher R true (Seq (emphasised name) k) x c =
  matcher R true
    (sequence [Char 42; opt (Char 42); text name; opt (Char 58); Char 42]) x
    (fun y => matcher R true (opt (Char 42)) y (fun y' => matcher R true k y' c)).
Proof. reflexivity. Qed.

Lemma label_open_shape name x y :
  Matches true
    (sequence [Char 42; opt (Char 42); text name; opt (Char 58); Char 42]) x y ->
  exists s1 nm col,
    segment x y (s1 ++ nm ++ col ++ [42%N]) /\ stars s1 /\
    same_text true nm (js name) /\ optional_colon col.
Proof.
  cbn [sequence]. rewrite Matches_stars.
  intros (s1 & y1 & Hs1 & Hst1 & H).
  apply Matches_Seq in H as (y2 & H2 & H).
  apply Matches_Seq in H as (y3 & H3 & H).
  apply Matches_text in H2 as (nm & Hs2 & Hnm).
  apply opt_colon in H3 as (col & Hs3 & Hcol).
  apply Matches_Char in H as (ch & Hs4 & Hch).
  apply (same_char_symbol true) in Hch as ->; [|reflexivity].
  exists s1, nm, col. split; [|auto].
  eapply segment_app; [eassumption|]. eapply segment_app; [eassumption|].
  eapply segment_app; eassumption.
Qed.

(** *** The "Style Suggestions" section *)

Lemma any_ok : forall n : nat, @None nat = Some n -> 0 <= n.
Proof. discriminate. Qed.

Lemma rule_symbols : Forall (fun p => (p < 65)%N) (js "---").
Proof. repeat constructor. Qed.

Lemma rule_look x y :
  Matches true (Alt AssertEnd (text "---")) x y ->
  rule_or_end (rest x) /\ captures y = captures x.
Proof.
  intros H. apply Matches_Alt in H as [H | H].
  - apply Matches_AssertEnd in H as [-> Hend]. split; [now left | reflexivity].
  - apply Matches_text in H as (cs & (Hr & _ & Hc) & Ht).
    apply (same_text_symbols true _ rule_symbols) in Ht as ->.
    split; [right; eauto | exact Hc].
Qed.

Lemma rule_look_complete x :
  rule_or_end (rest x) -> exists y, Matches true (Alt AssertEnd (text "---")) x y.
Proof.
  intros [Hend | (t & Ht)].
  - exists x. apply Matches_Alt. left. now apply Matches_AssertEnd.
  - exists (advance x (js "---") t). apply Matches_Alt. right.
    apply Matches_text. exists (js "---").
    split; [now apply advance_segment | reflexivity].
Qed.

Lemma styles_body_complete x body tail :
  rest x = body ++ tail -> rule_or_end tail ->
  exists z, Matches true
              (Seq (Group 1 (star_lazy any))
                   (Lookahead (Alt AssertEnd (text "---")))) x z.
Proof.
  intros Hr Htail.
  set (y := advance x body tail).
  assert (Hs : segment x y body) by now apply advance_segment.
  set (yc := with_captures y
               ((1, firstn (endIndex y - endIndex x) (rest x)) :: captures y)).
  destruct (rule_look_complete yc Htail) as (y3 & Hy3).
  eexists. apply Matches_Seq. exists yc. split.
  - apply Matches_Group. exists y. split; [|reflexivity].
    apply Matches_Quant_CharSet; [exact any_ok|].
    exists body. split; [exact Hs|]. split; [apply forallb_forall; auto|].
    split; [lia | discriminate].
  - apply Matches_Lookahead. eauto.
Qed.

Lemma styles_re_complete x lab body tail :
  rest x = lab ++ body ++ tail ->
  labelled stars "Style Suggestions" lab -> rule_or_end tail ->
  exists z, Matches true styles_re x z.
Proof.
  intros Hr Hlab Htail. unfold styles_re. cbn [sequence].
  set (y1 := advance x lab (body ++ tail)).
  assert (Hs1 : segment x y1 lab) by now apply advance_segment.
  destruct (styles_body_complete y1 body tail eq_refl Htail) as (z & Hz).
  exists z. apply Matches_Seq. exists y1. split; [apply emphasised_shape; eauto|].
  exact Hz.
Qed.

(** What the matcher finds after the label: the shortest block before a
"---" or the end. *)
Lemma styles_body_lazy x z :
  matcher MatchState true
    (Seq (Group 1 (star_lazy any)) (Lookahead (Alt AssertEnd (text "---"))))
    x Some = Some z ->
  exists body,
    rest x = body ++ rest z /\ rule_or_end (rest z) /\
    captures z = (1, body) :: captures x /\
    first_end rule_or_end 0 body (rest z).
Proof.
  intros H.
  apply lazy_capture_lookahead in H as (body & y & Hr & _ & Hy & Hc & Hbefore).
  apply rule_look in Hy as [Hend Hcy]. cbn [rest captures] in Hend, Hcy.
  exists body. split; [exact Hr|]. split; [exact Hend|].
  split; [now rewrite Hc, Hcy|].
  intros j Hj Hj'. rewrite <- Hr in Hj'.
  destruct (rule_look_complete (start (endIndex x + j) (drop j (rest x))) Hj')
    as (y' & Hy').
  exact (Hbefore j y' Hj Hy').
Qed.

Lemma styles_re_matcher x z :
  matcher MatchState true styles_re x Some = Some z ->
  exists lab body,
    rest x = lab ++ body ++ rest z /\
    labelled stars "Style Suggestions" lab /\ takes_both_stars lab body /\
    rule_or_end (rest z) /\ first_end rule_or_end 0 body (rest z) /\
    captures z = (1, body) :: captures x.
Proof.
  unfold styles_re. cbn [sequence]. rewrite matcher_emphasised. intros H.
  apply matcher_sound in H as (y1 & H1 & H).
  apply label_open_shape in H1 as (s1 & nm & col & (Hr1 & _ & Hc1) & Hst & Hnm & Hcol).
  apply opt_Char_greedy in H
    as [(ch & y2 & (Hr2 & _ & Hc2) & Hch & H) | [H Hno]];
    apply styles_body_lazy in H as (body & Hr & Hend & Hc & Hfirst).
  - apply (same_char_symbol true) in Hch as ->; [|reflexivity].
    exists (s1 ++ nm ++ col ++ js "**"), body. split.
    { rewrite Hr1, Hr2, Hr. cbn. now rewrite <- !app_assoc. }
    split.
    { exists s1, nm, col, (js "**"). split; [reflexivity|]. split; [exact Hst|].
      split; [exact Hnm|]. split; [exact Hcol | now right]. }
    split.
    { left. exists (s1 ++ nm ++ col). now rewrite <- !app_assoc. }
    split; [exact Hend|]. split; [exact Hfirst|]. now rewrite Hc, Hc2, Hc1.
  - exists (s1 ++ nm ++ col ++ [42%N]), body. split.
    { rewrite Hr1, Hr. now rewrite <- !app_assoc. }
    split.
    { exists s1, nm, col, [42%N]. split; [reflexivity|]. split; [exact Hst|].
      split; [exact Hnm|]. split; [exact Hcol | now left]. }
    split.
    { right. intros t ->. cbn [app] in Hr.
      specialize (Hno 42%N (advance y1 [42%N] (t ++ rest z))
                    (advance_segment y1 [42%N] (t ++ rest z) Hr) eq_refl).
      destruct (styles_body_complete (advance y1 [42%N] (t ++ rest z)) t (rest z)
                  eq_refl Hend) as (z' & Hz').
      destruct (matcher_complete _ _ _ _ _ Hno _ Hz') as (? & _ & [=]). }
    split; [exact Hend|]. split; [exact Hfirst|]. now rewrite Hc, Hc1.
Qed.

Lemma styles_section_matches text pre body :
  styles_section stars text pre body ->
  exists post z, text = pre ++ post /\
    Matches true styles_re (start (0 + length pre) post) z.
Proof.
  intros (lab & tail & -> & Hlab & Htail).
  destruct (styles_re_complete (start (0 + length pre) (lab ++ body ++ tail))
              lab body tail eq_refl Hlab Htail) as (z & Hz).
  eauto.
Qed.

Lemma styles_block_section text pre body :
  styles_block text pre body -> styles_section stars text pre body.
Proof. intros (lab & tail & E & Hlab & _ & Htail & _). exists lab, tail. auto. Qed.

Lemma extractStyles_cases text :
  (exists pre body, styles_block text pre body /\
     extractStyles text = style_lines body /\
     forall pre' body', styles_section stars text pre' body' ->
       length pre <= length pre') \/
  ((~ exists pre body, styles_section stars text pre body) /\
   extractStyles text = []).
Proof.
  unfold extractStyles, match_.
  destruct (search true styles_re 0 text) as [res|] eqn:Hs.
  - left.
    apply search_Some_matcher in Hs as (pre & post & z & -> & _ & Hz & Hg & Hfirst).
    apply styles_re_matcher in Hz as (lab & body & Hr & Hlab & Hboth & Htail & Hlazy & Hc).
    cbn [rest start captures] in Hr, Hc. rewrite Hg, Hc. cbn [capture Nat.eqb].
    exists pre, body. split; [|split].
    + exists lab, (rest z). rewrite Hr. auto.
    + destruct body as [|ch t]; [reflexivity|]. apply style_lines_spec.
    + intros pre' body' Hsec.
      destruct (le_lt_dec (length pre) (length pre')) as [|Hlt]; [assumption|].
      destruct (styles_section_matches _ _ _ Hsec) as (post' & z' & E & Hz').
      now destruct (Hfirst pre' post' z' E Hlt).
  - right. split; [|reflexivity]. intros (pre & body & Hsec).
    destruct (styles_section_matches _ _ _ Hsec) as (post & z & E & Hz).
    exact (search_None _ _ _ _ Hs pre post z E Hz).
Qed.

(** C6, as stated, fails: under a "Style Suggestions:" label without
asterisks the section of the claim exists and its lines give ["Anime"], but
[extractStyles] returns the empty list. *)
Lemma extractStyles_plain_label_counterexample :
  ~ (forall pre body,
       styles_section optional_stars plain_styles_example pre body ->
       extractStyles plain_styles_example = style_lines body).
Proof.
  intros H. specialize (H [] ([LF] ++ js "* Anime")).
  assert (Hsec : styles_section optional_stars plain_styles_example []
                   ([LF] ++ js "* Anime")).
  { exists (js "Style Suggestions:"), []. split; [reflexivity|].
    split; [|now left].
    exists [], (js "Style Suggestions"), [58%N], [].
    split; [reflexivity|]. split; [now left|]. split; [reflexivity|].
    split; [now right | now left]. }
  specialize (H Hsec). vm_compute in H. discriminate H.
Qed.

(** C6, amended: for every text, either no "Style Suggestions" label between
asterisks (one or two on each side, optional colon, any case) is followed
by a block ending at a "---" or at the end of the text, and the result is
empty; or the result is made from the block after the first such label,
the label taking its second closing asterisk when the text has one and the
block stopping at the first "---", or at the end of the text without one:
the block is split into lines, each line trimmed, the lines starting with
an asterisk, a hyphen, a bullet, a digit or a full stop kept, and the
leading run of such characters and the white space after it removed from
each, in the original order.  The function is total, and the stated example
gives ["Anime"]. *)
Theorem extractStyles_sections (text : jsstring) :
  ((exists pre body, styles_block text pre body /\
      extractStyles text = style_lines body /\
      forall pre' body', styles_section stars text pre' body' ->
        length pre <= length pre') \/
   ((~ exists pre body, styles_section stars text pre body) /\
    extractStyles text = [])) /\
  extractStyles enhanced_example = [js "Anime"].
Proof. split; [apply extractStyles_cases | vm_compute; reflexivity]. Qed.

(** *** The "Enhanced Prompt" section *)

Lemma heading_shape name x z :
  Matches true (heading name) x z <->
  exists s nm, segment x z (s ++ nm) /\ stars s /\ same_text true nm (js name).
Proof.
  unfold heading. cbn [sequence]. rewrite Matches_stars. split.
  - intros (s & y & Hs & Hst & H). apply Matches_text in H as (nm & Hs' & Hnm).
    exists s, nm. split; [eapply segment_app; eassumption | auto].
  - intros (s & nm & Hs & Hst & Hnm).
    destruct (segment_split _ _ _ _ Hs) as (y & Hs1 & Hs2).
    exists s, y. split; [exact Hs1|]. split; [exact Hst|].
    apply Matches_text. eauto.
Qed.

Lemma terminator_sound x z :
  Matches true terminator_re x z -> terminator (rest x).
Proof.
  unfold terminator_re. cbn [sequence]. intros H.
  apply Matches_Seq in H as (y1 & H1 & H).
  apply Matches_Seq in H as (y2 & H2 & H3).
  apply Matches_Char in H1 as (ch & (Hr1 & _) & Hch).
  apply (same_char_symbol true) in Hch as ->; [|reflexivity].
  apply Matches_Quant_CharSet in H2 as (ws & (Hr2 & _) & Hws & _); [|exact star_ok].
  apply Matches_Group in H3 as (y3 & H3 & _).
  exists ws. rewrite Hr1, Hr2.
  apply Matches_Alt in H3 as [H3 | H3]; [|apply Matches_Alt in H3 as [H3 | H3];
                                           [|apply Matches_Alt in H3 as [H3 | H3]]].
  - apply heading_shape in H3 as (s & nm & (Hr3 & _) & Hst & Hnm).
    exists (s ++ nm), (rest y3). rewrite Hr3. split; [reflexivity|].
    split; [exact Hws|]. left. exists s, nm. auto.
  - apply heading_shape in H3 as (s & nm & (Hr3 & _) & Hst & Hnm).
    exists (s ++ nm), (rest y3). rewrite Hr3. split; [reflexivity|].
    split; [exact Hws|]. left. exists s, nm. auto.
  - apply Matches_text in H3 as (cs & (Hr3 & _) & Ht).
    apply (same_text_symbols true _ rule_symbols) in Ht as ->.
    exists (js "---"), (rest y3). rewrite Hr3. split; [reflexivity|].
    split; [exact Hws|]. right. now left.
  - apply Matches_AssertEnd in H3 as [-> Hend].
    exists [], []. rewrite Hend. split; [reflexivity|].
    split; [exact Hws|]. right. now right.
Qed.

Lemma terminator_complete x :
  terminator (rest x) -> exists z, Matches true terminator_re x z.
Proof.
  intros (ws & term & t & Hr & Hws & Hterm). unfold terminator_re. cbn [sequence].
  set (y1 := advance x [LF] (ws ++ term ++ t)).
  assert (Hs1 : segment x y1 [LF]) by now apply advance_segment.
  set (y2 := advance y1 ws (term ++ t)).
  assert (Hs2 : segment y1 y2 ws) by now apply advance_segment.
  assert (Hterm' : exists y3,
            Matches true (Alt (heading "Style") (Alt (heading "Options")
                           (Alt (text "---") AssertEnd))) y2 y3).
  { destruct Hterm as [(s & nm & -> & Hst & [Hnm | Hnm]) | [-> | [-> ->]]].
    - exists (advance y2 (s ++ nm) t). apply Matches_Alt. left.
      apply heading_shape. exists s, nm. split; [now apply advance_segment | auto].
    - exists (advance y2 (s ++ nm) t). apply Matches_Alt. right.
      apply Matches_Alt. left.
      apply heading_shape. exists s, nm. split; [now apply advance_segment | auto].
    - exists (advance y2 (js "---") t). apply Matches_Alt. right.
      apply Matches_Alt. right. apply Matches_Alt. left.
      apply Matches_text. exists (js "---").
      split; [now apply advance_segment | reflexivity].
    - exists y2. apply Matches_Alt. right. apply Matches_Alt. right.
      apply Matches_Alt. right. now apply Matches_AssertEnd. }
  destruct Hterm' as (y3 & Hy3).
  eexists. apply Matches_Seq. exists y1. split.
  { apply Matches_Char. exists LF. split; [exact Hs1 | reflexivity]. }
  apply Matches_Seq. exists y2. split.
  { apply Matches_Quant_CharSet; [exact star_ok|].
    exists ws. split; [exact Hs2|]. split; [exact Hws|]. split; [lia | discriminate]. }
  apply Matches_Group. eauto.
Qed.

(** The captures of the lookahead come on top of capture 1. *)
Lemma terminator_captures x z :
  Matches true terminator_re x z -> capture 1 (captures z) = capture 1 (captures x).
Proof.
  unfold terminator_re. cbn [sequence]. intros H.
  apply Matches_Seq in H as (t1 & T1 & H).
  apply Matches_Seq in H as (t2 & T2 & T3).
  apply Matches_Char in T1 as (? & (_ & _ & Tc1) & _).
  apply Matches_Quant_CharSet in T2 as (? & (_ & _ & Tc2) & _); [|exact star_ok].
  apply Matches_Group in T3 as (t3 & T3 & ->). cbn [captures with_captures capture].
  assert (Tc3 : captures t3 = captures t2).
  { repeat (apply Matches_Alt in T3 as [T3 | T3]).
    - apply heading_shape in T3 as (? & ? & (_ & _ & Tc) & _). exact Tc.
    - apply heading_shape in T3 as (? & ? & (_ & _ & Tc) & _). exact Tc.
    - apply Matches_text in T3 as (? & (_ & _ & Tc) & _). exact Tc.
    - apply Matches_AssertEnd in T3 as [-> _]. reflexivity. }
  now rewrite Tc3, Tc2, Tc1.
Qed.

Lemma plus_ok : forall n : nat, @None nat = Some n -> 1 <= n.
Proof. discriminate. Qed.

Lemma capture_complete x :
  can_capture (rest x) ->
  exists z, Matches true
    (Seq (Group 1 (plus_lazy any)) (Lookahead terminator_re)) x z.
Proof.
  intros (body & tail & Hr & Hbody & Htail).
  set (y := advance x body tail).
  assert (Hs : segment x y body) by now apply advance_segment.
  set (yc := with_captures y
               ((1, firstn (endIndex y - endIndex x) (rest x)) :: captures y)).
  destruct (terminator_complete yc Htail) as (y' & Hy').
  eexists. apply Matches_Seq. exists yc. split.
  - apply Matches_Group. exists y. split; [|reflexivity].
    apply Matches_Quant_CharSet; [exact plus_ok|].
    exists body. split; [exact Hs|]. split; [apply forallb_forall; auto|].
    split; [destruct body; [congruence | cbn; lia] | discriminate].
  - apply Matches_Lookahead. eauto.
Qed.

Lemma follow_complete x :
  can_capture (rest x) ->
  exists z, Matches true
    (Seq (star space) (Seq (Group 1 (plus_lazy any)) (Lookahead terminator_re))) x z.
Proof.
  intros H. destruct (capture_complete x H) as (z & Hz).
  exists z. apply Matches_Seq. exists x. split; [|exact Hz].
  apply Matches_Quant_CharSet; [exact star_ok|].
  exists []. split; [now apply segment_nil|]. split; [reflexivity|].
  split; [cbn; lia | discriminate].
Qed.

(** After the label: the longest white space after which a capture can be
made, and the shortest non-empty body before a terminator. *)
Lemma enhanced_tail_matcher y z :
  matcher MatchState true
    (Seq (star space) (Seq (Group 1 (plus_lazy any)) (Lookahead terminator_re)))
    y Some = Some z ->
  exists ws body,
    rest y = ws ++ body ++ rest z /\ whitespace ws /\ body <> [] /\
    terminator (rest z) /\
    (forall ws' r, body ++ rest z = ws' ++ r -> ws' <> [] -> whitespace ws' ->
       ~ can_capture r) /\
    first_end terminator 1 body (rest z) /\
    capture 1 (captures z) = Some body.
Proof.
  rewrite matcher_Seq. unfold star, space. rewrite matcher_Quant.
  destruct y as [i s caps]. cbn [rest]. intros H.
  apply RepeatMatcher_greedy_choice in H as (k & Hk & Hc & Hn); [|lia].
  unfold plus_lazy in Hc.
  apply lazy_capture_lookahead in Hc as (body & y & Hr & Hmin & Hy & Hcz & Hbefore).
  cbn [rest endIndex captures] in *.
  exists (take k s), body.
  split; [now rewrite <- Hr, take_drop|].
  split; [now apply take_takeWhile|].
  split; [intros ->; cbn in Hmin; lia|].
  split; [exact (terminator_sound _ _ Hy)|]. split; [|split].
  - intros ws' r E Hne Hws' Hcap. rewrite <- Hr in E.
    assert (Hs : s = (take k s ++ ws') ++ r)
      by now rewrite <- app_assoc, <- E, take_drop.
    assert (Hall : forallb is_space (take k s ++ ws') = true).
    { rewrite forallb_app, (take_takeWhile is_space s k Hk). exact Hws'. }
    pose proof (takeWhile_prefix is_space _ r Hall) as Hlen. rewrite <- Hs in Hlen.
    assert (Hk' : length (take k s) = k).
    { rewrite length_take. pose proof (takeWhile_dropWhile is_space s) as Ht.
      apply (f_equal (@length _)) in Ht. rewrite length_app in Ht. lia. }
    rewrite length_app, Hk' in Hlen.
    assert (Hdrop : drop (k + length ws') s = r).
    { rewrite Hs at 1. rewrite <- Hk' at 1. rewrite <- length_app.
      apply drop_app_length. }
    assert (Hpos : 0 < length ws') by (destruct ws'; [congruence | cbn; lia]).
    specialize (Hn (k + length ws') ltac:(lia)). rewrite Hdrop in Hn.
    destruct (capture_complete
                {| endIndex := i + (k + length ws'); rest := r; captures := caps |} Hcap)
      as (z' & Hz').
    destruct (matcher_complete _ _ _ _ _ Hn _ Hz') as (? & _ & [=]).
  - intros j Hj Hend. rewrite <- Hr in Hend.
    destruct (terminator_complete (start (i + k + j) (drop j (drop k s))) Hend)
      as (y' & Hy').
    exact (Hbefore j y' Hj Hy').
  - rewrite Hcz, (terminator_captures _ _ Hy). cbn. reflexivity.
Qed.

(** What the matcher finds: the label with its closing asterisks, the white
space skipped and the shortest non-empty body before a terminator, each by
the priorities of the pattern. *)
Lemma enhanced_re_matcher x z :
  matcher MatchState true enhanced_re x Some = Some z ->
  exists s1 nm col s2 ws body,
    rest x = (s1 ++ nm ++ col ++ s2) ++ ws ++ body ++ rest z /\
    stars s1 /\ same_text true nm (js "Enhanced Prompt") /\ optional_colon col /\
    stars s2 /\ whitespace ws /\ body <> [] /\ terminator (rest z) /\
    (s2 = js "**" \/
     forall t, ws ++ body ++ rest z = 42%N :: t -> ~ can_capture t) /\
    (forall ws' r, body ++ rest z = ws' ++ r -> ws' <> [] -> whitespace ws' ->
       ~ can_capture r) /\
    first_end terminator 1 body (rest z) /\
    capture 1 (captures z) = Some body.
Proof.
  unfold enhanced_re. cbn [sequence]. rewrite matcher_emphasised. intros H.
  apply (matcher_sound true
           (sequence [Char 42; opt (Char 42); text "Enhanced Prompt"; opt (Char 58);
                      Char 42])) in H as (y1 & H1 & H).
  apply label_open_shape in H1 as (s1 & nm & col & (Hr1 & _) & Hst1 & Hnm & Hcol).
  apply opt_Char_greedy in H as [(ch & y2 & (Hr2 & _) & Hch & H) | [H Hno]].
  - apply (same_char_symbol true) in Hch as ->; [|reflexivity].
    apply enhanced_tail_matcher in H
      as (ws & body & Hr & Hws & Hb & Ht & Hpri & Hlazy & Hc).
    exists s1, nm, col, (js "**"), ws, body.
    split; [rewrite Hr1, Hr2, Hr, <- !app_assoc; reflexivity|].
    do 3 (split; [assumption|]). split; [now right|].
    do 3 (split; [assumption|]). split; [now left | auto].
  - apply enhanced_tail_matcher in H
      as (ws & body & Hr & Hws & Hb & Ht & Hpri & Hlazy & Hc).
    exists s1, nm, col, [42%N], ws, body.
    split; [rewrite Hr1, Hr, <- !app_assoc; reflexivity|].
    do 3 (split; [assumption|]). split; [now left|].
    do 3 (split; [assumption|]). split; [|auto].
    right. intros t Et Hcap. rewrite <- Hr in Et.
    specialize (Hno 42%N (advance y1 [42%N] t) (advance_segment y1 [42%N] t Et) eq_refl).
    destruct (follow_complete (advance y1 [42%N] t) Hcap) as (z' & Hz').
    destruct (matcher_complete _ _ _ _ _ Hno _ Hz') as (? & _ & [=]).
Qed.

Lemma enhanced_re_complete x lab ws body tail :
  rest x = lab ++ ws ++ body ++ tail ->
  labelled stars "Enhanced Prompt" lab -> whitespace ws -> body <> [] ->
  terminator tail ->
  exists z, Matches true enhanced_re x z.
Proof.
  intros Hr Hlab Hws Hbody Htail. unfold enhanced_re. cbn [sequence].
  set (y1 := advance x lab (ws ++ body ++ tail)).
  assert (Hs1 : segment x y1 lab) by now apply advance_segment.
  set (y2 := advance y1 ws (body ++ tail)).
  assert (Hs2 : segment y1 y2 ws) by now apply advance_segment.
  set (y3 := advance y2 body tail).
  assert (Hs3 : segment y2 y3 body) by now apply advance_segment.
  set (y3c := with_captures y3
                ((1, firstn (endIndex y3 - endIndex y2) (rest y2)) :: captures y3)).
  destruct (terminator_complete y3c Htail) as (y4 & Hy4).
  eexists. apply Matches_Seq. exists y1. split; [apply emphasised_shape; eauto|].
  apply Matches_Seq. exists y2. split.
  { apply Matches_Quant_CharSet; [exact star_ok|].
    exists ws. split; [exact Hs2|]. split; [exact Hws|]. split; [lia | discriminate]. }
  apply Matches_Seq. exists y3c. split.
  - apply Matches_Group. exists y3. split; [|reflexivity].
    apply Matches_Quant_CharSet; [exact plus_ok|].
    exists body. split; [exact Hs3|]. split; [apply forallb_forall; auto|].
    split; [destruct body; [congruence | cbn; lia] | discriminate].
  - apply Matches_Lookahead. eauto.
Qed.

Lemma enhanced_section_matches text pre body :
  enhanced_section text pre body ->
  exists post z, text = pre ++ post /\
    Matches true enhanced_re (start (0 + length pre) post) z.
Proof.
  intros (lab & ws & tail & -> & Hlab & Hws & Hbody & Htail).
  destruct (enhanced_re_complete (start (0 + length pre) (lab ++ ws ++ body ++ tail))
              lab ws body tail eq_refl Hlab Hws Hbody Htail) as (z & Hz).
  eauto.
Qed.

Lemma enhanced_block_section text pre body :
  enhanced_block text pre body -> enhanced_section text pre body.
Proof.
  intros (s1 & nm & col & s2 & ws & tail & E & H1 & Hnm & Hcol & H2 & Hws & Hb & Ht & _).
  exists (s1 ++ nm ++ col ++ s2), ws, tail. split; [exact E|].
  split; [exists s1, nm, col, s2; auto|]. auto.
Qed.

Lemma enhanced_match_cases msg :
  match match_ true enhanced_re msg with
  | Some res =>
      exists pre body, enhanced_block msg pre body /\
        capture 1 (groups res) = Some body /\
        forall pre' body', enhanced_section msg pre' body' ->
          length pre <= length pre'
  | None => ~ exists pre body, enhanced_section msg pre body
  end.
Proof.
  unfold match_. destruct (search true enhanced_re 0 msg) as [res|] eqn:Hs.
  - apply search_Some_matcher in Hs as (pre & post & z & -> & _ & Hz & Hg & Hfirst).
    apply enhanced_re_matcher in Hz
      as (s1 & nm & col & s2 & ws & body & Hr & H1 & Hnm & Hcol & H2 & Hws & Hb & Ht
          & Hstar & Hpri & Hlazy & Hc).
    cbn [rest start] in Hr. exists pre, body. split; [|split].
    + exists s1, nm, col, s2, ws, (rest z). rewrite Hr. auto 12.
    + now rewrite Hg.
    + intros pre' body' Hsec.
      destruct (le_lt_dec (length pre) (length pre')) as [|Hlt]; [assumption|].
      destruct (enhanced_section_matches _ _ _ Hsec) as (post' & z' & E & Hz').
      now destruct (Hfirst pre' post' z' E Hlt).
  - intros (pre & body & Hsec).
    destruct (enhanced_section_matches _ _ _ Hsec) as (post & z & E & Hz).
    exact (search_None _ _ _ _ Hs pre post z E Hz).
Qed.

(** *** The fallback: splitting at "Enhanced Prompt" *)

Lemma label_re_Some q s y :
  matcher MatchState true enhanced_label_re (start q s) Some = Some y ->
  exists nm col, s = nm ++ col ++ rest y /\
    same_text true nm (js "Enhanced Prompt") /\ colon_taken col (rest y) /\
    endIndex y = q + length nm + length col.
Proof.
  unfold enhanced_label_re. cbn [sequence]. rewrite matcher_Seq. intros H.
  apply (matcher_sound true (text "Enhanced Prompt")) in H as (y1 & H1 & H).
  apply Matches_text in H1 as (nm & (Hr1 & Hi1 & _) & Hnm). cbn [rest endIndex start] in *.
  exists nm.
  apply opt_Char_greedy in H as [(ch & y2 & (Hr2 & Hi2 & _) & Hch & [= ->]) | [[= ->] Hno]].
  - apply (same_char_symbol true) in Hch as ->; [|reflexivity].
    exists [58%N]. rewrite Hr1, Hr2. split; [reflexivity|]. split; [exact Hnm|].
    split; [now left | cbn in *; lia].
  - exists []. split; [exact Hr1|]. split; [exact Hnm|]. split; [|cbn; lia].
    right. split; [reflexivity|]. intros t Ht.
    specialize (Hno 58%N (advance y [58%N] t) (advance_segment y [58%N] t Ht) eq_refl).
    discriminate Hno.
Qed.

Lemma label_re_None x :
  matcher MatchState true enhanced_label_re x Some = None -> ~ label_starts (rest x).
Proof.
  intros H (nm & post & Hr & Hnm).
  assert (Hy : Matches true enhanced_label_re x (advance x nm post)).
  { unfold enhanced_label_re. cbn [sequence]. apply Matches_Seq.
    exists (advance x nm post). split.
    - apply Matches_text. exists nm. split; [now apply advance_segment | exact Hnm].
    - apply opt_colon. exists []. split; [now apply segment_nil | now left]. }
  destruct (matcher_complete _ _ _ _ _ H _ Hy) as (? & _ & [=]).
Qed.

Lemma label_length nm : same_text true nm (js "Enhanced Prompt") -> length nm = 15.
Proof. intros H. apply (f_equal (@length _)) in H. now rewrite !length_map in H. Qed.

Lemma label_starts_nil : ~ label_starts [].
Proof.
  intros (nm & post & E & Hnm). apply label_length in Hnm.
  symmetry in E. apply app_eq_nil in E as [-> _]. discriminate Hnm.
Qed.

(** Scanning for the separator: either it does not occur from here on, or
the piece collected ends where it first occurs. *)
Lemma split_from_scan : forall sq fuel p q acc,
  length sq < fuel -> p <= q ->
  ((forall j, ~ label_starts (drop j sq)) /\
   split_from true enhanced_label_re fuel p q acc sq = [acc ++ sq]) \/
  (exists a nm col b,
     sq = a ++ nm ++ col ++ b /\ same_text true nm (js "Enhanced Prompt") /\
     label_free sq (length a) /\ colon_taken col b /\
     exists fuel' e, length b < fuel' /\
       split_from true enhanced_label_re fuel p q acc sq =
       (acc ++ a) :: split_from true enhanced_label_re fuel' e e [] b).
Proof.
  induction sq as [|ch sq IH]; intros fuel p q acc Hfuel Hpq;
    (destruct fuel as [|fuel]; [cbn in Hfuel; lia|]); cbn [split_from].
  - left. split; [|now rewrite app_nil_r].
    intros j. rewrite drop_nil. exact label_starts_nil.
  - change {| endIndex := q; rest := ch :: sq; captures := [] |}
      with (start q (ch :: sq)).
    destruct (matcher _ _ _ _ _) as [y|] eqn:Hm.
    + apply label_re_Some in Hm as (nm & col & E & Hnm & Hcol & He).
      pose proof (label_length _ Hnm) as Hlen.
      replace (endIndex y =? p) with false by (symmetry; apply Nat.eqb_neq; lia).
      right. exists [], nm, col, (rest y). split; [exact E|]. split; [exact Hnm|].
      split; [intros j Hj; cbn in Hj; lia|]. split; [exact Hcol|].
      exists fuel, (endIndex y). rewrite app_nil_r. split; [|reflexivity].
      apply (f_equal (@length _)) in E. rewrite !length_app in E. cbn in *. lia.
    + apply label_re_None in Hm. cbn [rest start] in Hm.
      destruct (IH fuel p (S q) (acc ++ [ch])) as
        [[Hno E] | (a & nm & col & b & E & Hnm & Hfree & Hcol & f & e & Hf & Es)];
        [cbn in Hfuel; lia | lia | |].
      * left. split; [|now rewrite E, <- app_assoc].
        intros [|j]; [exact Hm | apply Hno].
      * right. exists (ch :: a), nm, col, b. split; [now rewrite E|].
        split; [exact Hnm|]. split.
        { intros [|j] Hj; [exact Hm | apply Hfree; cbn in Hj; lia]. }
        split; [exact Hcol|]. exists f, e. split; [exact Hf|].
        now rewrite Es, <- app_assoc.
Qed.

Lemma mentions_label msg :
  mentions_enhanced_prompt msg <-> exists j, label_starts (drop j msg).
Proof.
  split.
  - intros (pre & nm & post & -> & Hnm). exists (length pre).
    rewrite drop_app_length. exists nm, post. auto.
  - intros (j & nm & post & E & Hnm). exists (take j msg), nm, post.
    split; [|exact Hnm]. now rewrite <- E, take_drop.
Qed.

Lemma fallback_cases msg :
  (exists piece, second_piece msg piece /\ fallback msg = trim piece) \/
  (~ mentions_enhanced_prompt msg /\ fallback msg = []).
Proof.
  unfold fallback, split. destruct msg as [|ch0 msg0].
  - right. split.
    + rewrite mentions_label. intros (j & H). rewrite drop_nil in H.
      exact (label_starts_nil H).
    + now destruct (matcher _ _ _ _ _).
  - set (msg := ch0 :: msg0).
    destruct (split_from_scan msg (2 * length msg + 2) 0 0 []) as
      [[Hno E] | (a & nm & col & b & E & Hnm & Hfree & Hcol & f & e & Hf & Es)];
      [lia | lia | |].
    + right. rewrite E. split; [|reflexivity].
      rewrite mentions_label. intros (j & H). exact (Hno j H).
    + left. rewrite Es. cbn [nth_error app].
      destruct (split_from_scan b f e e []) as
        [[Hno2 E2] | (a2 & nm2 & col2 & b2 & E2 & Hnm2 & Hfree2 & _ & f2 & e2 & _ & Es2)];
        [exact Hf | lia | |].
      * rewrite E2. cbn [nth_error app]. exists b. split.
        { exists a, nm, col, []. rewrite app_nil_r. repeat split; auto.
          intros j _. apply Hno2. }
        destruct b; reflexivity.
      * rewrite Es2. cbn [nth_error app]. exists a2. split.
        { exists a, nm, col, (nm2 ++ col2 ++ b2). rewrite <- E2. repeat split; auto.
          right. exists nm2, (col2 ++ b2). auto. }
        destruct a2; reflexivity.
Qed.

Lemma enhanced_section_mentions msg pre body :
  enhanced_section msg pre body -> mentions_enhanced_prompt msg.
Proof.
  intros (lab & ws & tail & -> & (s1 & nm & col & s2 & -> & _ & Hnm & _) & _).
  exists (pre ++ s1), nm, ((col ++ s2) ++ ws ++ body ++ tail).
  split; [now rewrite <- !app_assoc | exact Hnm].
Qed.

(** *** The section read is determined by where it starts *)












(** *** The section in the words of the specification, on the example *)

Lemma claimed_end_head tail :
  claimed_end tail -> tail = [] \/ exists t, tail = LF :: t.
Proof. intros [-> | (ws & term & t & -> & _)]; [now left | right; eauto]. Qed.

Lemma plain_example_end :
  claimed_end ([LF] ++ js "**Style Suggestions:**" ++ [LF] ++ js "* Anime").
Proof.
  right. exists [], (js "**Style"), (js " Suggestions:**" ++ [LF] ++ js "* Anime").
  split; [reflexivity|]. split; [reflexivity|]. left.
  exists (js "**"), (js "Style"). split; [reflexivity|].
  split; [right; now right | now left].
Qed.


(** On the example without emphasis the section of the specification is
the one that holds "A cat.". *)
Lemma plain_example_claimed pre body :
  claimed_enhanced_section plain_enhanced_example pre body ->
  trim body = js "A cat.".
Proof.
  intros (s1 & nm & col & s2 & tail & E & H1 & Hnm & Hfree & Hcol & Hst & Hend & Hfirst).
  assert (Hzero : length (pre ++ s1) = 0).
  { destruct (length (pre ++ s1)) as [|n] eqn:Hn; [reflexivity|].
    destruct (Hfree 0 ltac:(lia)).
    exists (js "Enhanced Prompt"),
      (js ": A cat." ++ [LF] ++ js "**Style Suggestions:**" ++ [LF] ++ js "* Anime").
    split; reflexivity. }
  apply length_zero_iff_nil, app_eq_nil in Hzero as [-> ->].
  cbn [app] in E. pose proof (label_length _ Hnm) as Hlen.
  do 15 (destruct nm as [|? nm]; [discriminate Hlen|]).
  destruct nm; [|discriminate Hlen]. clear Hlen Hnm Hfree H1.
  injection E as _ _ _ _ _ _ _ _ _ _ _ _ _ _ _ E.
  destruct Hcol as [-> | [-> Hc]]; [|now destruct (Hc _ (eq_sym E))].
  injection E as E.
  destruct Hst as [-> | [[-> | ->] _]]; try discriminate E.
  cbn [app] in E.
  assert (Htail : tail = drop (length body) (body ++ tail))
    by now rewrite drop_app_length.
  assert (Hb : body = take (length body) (body ++ tail))
    by now rewrite take_app_length.
  unfold first_end in Hfirst.
  remember (body ++ tail) as rest' eqn:Hrest. vm_compute in E.
  rewrite <- E in Htail, Hb, Hfirst. clear E Hrest rest'.
  destruct (Nat.lt_trichotomy (length body) 7) as [Hlt | [Heq | Hgt]].
  - apply claimed_end_head in Hend. rewrite Htail in Hend.
    destruct (length body) as [|n];
      [cbn [drop] in Hend; unfold LF in Hend; destruct Hend as [Hend | (t & Hend)]; discriminate Hend|].
    do 6 (destruct n as [|n];
          [cbn [drop] in Hend; unfold LF in Hend; destruct Hend as [Hend | (t & Hend)];
           discriminate Hend|]).
    lia.
  - rewrite Hb, Heq. reflexivity.
  - destruct (Hfirst 7 ltac:(lia)). exact plain_example_end.
Qed.


(** The two strategies: the section read, or the fallback when the text
holds no section. *)
Lemma extractEnhancedPrompt_by_section msg :
  (exists pre body, enhanced_block msg pre body /\
     extractEnhancedPrompt msg = trim body /\
     forall pre' body', enhanced_section msg pre' body' ->
       length pre <= length pre') \/
  ((~ exists pre body, enhanced_section msg pre body) /\
   extractEnhancedPrompt msg = fallback msg).
Proof.
  pose proof (enhanced_match_cases msg) as H. unfold extractEnhancedPrompt.
  destruct (match_ true enhanced_re msg) as [res|].
  - left. destruct H as (pre & body & Hsec & Hc & Hfirst).
    exists pre, body. split; [exact Hsec|]. split; [|exact Hfirst].
    rewrite Hc. apply enhanced_block_section in Hsec.
    destruct Hsec as (_ & _ & _ & _ & _ & _ & Hb & _).
    destruct body; [congruence | reflexivity].
  - right. split; [exact H | reflexivity].
Qed.


End ResponseProofs.

(** * Further properties of the code *)

(** ** The store: reading, deleting, saving *)

Module StoreLaws.
Import Storage StorageSpec StorageProofs.
Local Open Scope nat_scope.
Import Views StoreRuns.

Section Laws.
Variable clock : nat -> N.
Variable quota : gmap string Text -> string -> Text -> bool.

Lemma delete_run (k : string) (op : string -> JS unit) id w :
  (k = STORAGE_KEY /\ op = deleteHistoryItem quota \/
   k = SAVED_PROMPTS_KEY /\ op = deleteSavedPrompt quota) ->
  let kept := ArrayJSON (filter (fun o => obj_id o ≠ id) (stored k w)) in
  (op id w).1 = Return tt /\ ticks (op id w).2 = ticks w /\
  storage (op id w).2 =
    if quota (storage w) k kept then <[k := kept]> (storage w) else storage w.
Proof.
  intros [[-> ->] | [-> ->]]; unfold stored; destruct w as [st tk tr]; run_js.
  - destruct (st !! STORAGE_KEY) as [[|l]|] eqn:E; run_cases E; auto.
  - destruct (st !! SAVED_PROMPTS_KEY) as [[|l]|] eqn:E; run_cases E; auto.
Qed.


Lemma stored_lookup k w :
  stored k w = match storage w !! k with Some (ArrayJSON l) => l | _ => [] end.
Proof. reflexivity. Qed.

(** X1: The getters: a missing key and a text that does not parse both read as
the empty array; the call returns normally and writes nothing. *)
Theorem getters_read_without_failing (w : World) :
  match storage w !! STORAGE_KEY with
  | Some (ArrayJSON l) => (getHistory w).1 = Return l
  | _ => (getHistory w).1 = Return []
  end /\
  match storage w !! SAVED_PROMPTS_KEY with
  | Some (ArrayJSON l) => (getSavedPrompts w).1 = Return l
  | _ => (getSavedPrompts w).1 = Return []
  end /\
  storage (getHistory w).2 = storage w /\
  storage (getSavedPrompts w).2 = storage w.
Proof.
  destruct (getHistory_run w) as (Hh & Hsh & _).
  destruct (getSavedPrompts_run w) as (Hp & Hsp & _).
  rewrite stored_lookup in Hh, Hp.
  repeat split; try assumption.
  - destruct (storage w !! STORAGE_KEY) as [[|l]|]; exact Hh.
  - destruct (storage w !! SAVED_PROMPTS_KEY) as [[|l]|]; exact Hp.
Qed.

Lemma getHistory_result w : (getHistory w).1 = Return (stored STORAGE_KEY w).
Proof. apply getHistory_run. Qed.

Lemma getSavedPrompts_result w :
  (getSavedPrompts w).1 = Return (stored SAVED_PROMPTS_KEY w).
Proof. apply getSavedPrompts_run. Qed.

Lemma filter_idem (id : string) (l : list Obj) :
  filter (fun o => obj_id o ≠ id) (filter (fun o => obj_id o ≠ id) l)
  = filter (fun o => obj_id o ≠ id) l.
Proof.
  induction l as [|o l IH]; [reflexivity|].
  rewrite (filter_cons _ o l). destruct (decide (obj_id o ≠ id)) as [Ho|Ho].
  - rewrite filter_cons, decide_True by exact Ho. now rewrite IH.
  - exact IH.
Qed.

(** X2: [deleteHistoryItem]: it returns normally; when the store takes the
write, the history read back is the former one without the items of that
id, the others in their order, and a second deletion of the same id
changes nothing; when the store refuses the write, nothing changes. *)
Theorem deleteHistoryItem_removes_by_id (id : string) (w : World) :
  let kept := filter (fun o => obj_id o ≠ id) (stored STORAGE_KEY w) in
  let w' := (deleteHistoryItem quota id w).2 in
  (deleteHistoryItem quota id w).1 = Return tt /\
  (quota (storage w) STORAGE_KEY (ArrayJSON kept) = true ->
     (getHistory w').1 = Return kept /\
     (forall o, In o kept <-> In o (stored STORAGE_KEY w) /\ obj_id o <> id) /\
     (quota (storage w') STORAGE_KEY (ArrayJSON kept) = true ->
      storage (deleteHistoryItem quota id w').2 = storage w')) /\
  (quota (storage w) STORAGE_KEY (ArrayJSON kept) = false ->
     storage w' = storage w).
Proof.
  intros kept w'.
  destruct (delete_run STORAGE_KEY (deleteHistoryItem quota) id w)
    as (Hr & _ & Hst); [now left|]. cbv zeta in Hst. fold kept w' in Hst.
  split; [exact Hr|]. split.
  - intros Hq. rewrite Hq in Hst.
    assert (Hkept : stored STORAGE_KEY w' = kept)
      by exact (stored_of_storage _ _ _ _ Hst).
    split; [now rewrite getHistory_result, Hkept|]. split.
    + intros o. unfold kept. rewrite <- !list_elem_of_In, list_elem_of_filter. tauto.
    + intros Hq'.
      destruct (delete_run STORAGE_KEY (deleteHistoryItem quota) id w')
        as (_ & _ & Hst'); [now left|]. cbv zeta in Hst'.
      rewrite Hkept in Hst'. unfold kept in Hst' at 1 2. rewrite filter_idem in Hst'.
      fold kept in Hst'. rewrite Hq' in Hst'. rewrite Hst', Hst.
      apply insert_insert_eq.
  - intros Hq. now rewrite Hq in Hst.
Qed.


(** *** No operation throws, and the history stays within its bound *)

(** X3: Every exported operation of the store returns normally, whatever the
quota answers and whatever a store of the model holds: under each key
nothing, a text that does not parse, or an array of objects. *)
Theorem store_operations_never_throw (op : StoreOp) (w : World) :
  (call clock quota op w).1 = Return tt.
Proof.
  destruct op as [|a|id| |  |text|id]; cbn [call].
  - unfold bind. pose proof (getHistory_result w) as H.
    destruct (getHistory w) as [[l|e] w']; [reflexivity | discriminate H].
  - apply (add_run clock quota a w).
  - apply (delete_run STORAGE_KEY (deleteHistoryItem quota) id w). now left.
  - reflexivity.
  - unfold bind. pose proof (getSavedPrompts_result w) as H.
    destruct (getSavedPrompts w) as [[l|e] w']; [reflexivity | discriminate H].
  - apply (savePrompt_run clock quota text w).
  - apply (delete_run SAVED_PROMPTS_KEY (deleteSavedPrompt quota) id w). now right.
Qed.

Lemma stored_delete k st tk tr :
  stored k {| storage := delete k st; ticks := tk; trace := tr |} = [].
Proof. unfold stored. cbn [storage]. now rewrite lookup_delete_eq. Qed.

Lemma call_keeps_bound op w :
  length (stored STORAGE_KEY w) <= MAX_ITEMS ->
  length (stored STORAGE_KEY (call clock quota op w).2) <= MAX_ITEMS.
Proof.
  intros Hb. destruct op as [|a|id| |  |text|id]; cbn [call].
  - unfold bind. destruct (getHistory_run w) as (_ & Hst & _).
    destruct (getHistory w) as [[l|e] w']; cbn [snd] in *;
      now rewrite (stored_storage _ _ _ Hst).
  - destruct (add_run clock quota a w) as (_ & Hst & _). cbv zeta in Hst.
    assert (Hhalf : length (newest_half (stored STORAGE_KEY w)) < MAX_ITEMS).
    { unfold newest_half. rewrite length_take.
      unfold MAX_ITEMS in *.
      assert (length (stored STORAGE_KEY w) / 2 <= 15)
        by (apply Nat.Div0.div_le_upper_bound; lia).
      lia. }
    repeat match type of Hst with
           | context [if ?c then _ else _] => destruct c
           end;
      first [ rewrite (stored_storage _ _ _ Hst); exact Hb
            | rewrite (stored_of_storage _ _ _ _ Hst) ].
    + unfold first_write in Hst. rewrite length_take. unfold MAX_ITEMS. lia.
    + cbn [length]. lia.
    + lia.
  - destruct (delete_run STORAGE_KEY (deleteHistoryItem quota) id w)
      as (_ & _ & Hst); [now left|]. cbv zeta in Hst.
    destruct (quota _ _ _).
    + rewrite (stored_of_storage _ _ _ _ Hst).
      etransitivity; [apply length_filter | exact Hb].
    + now rewrite (stored_storage _ _ _ Hst).
  - destruct w as [st tk tr]. unfold clearAllHistory, removeItem. cbn [snd].
    rewrite stored_delete. cbn. lia.
  - unfold bind. destruct (getSavedPrompts_run w) as (_ & Hst & _).
    destruct (getSavedPrompts w) as [[l|e] w']; cbn [snd] in *;
      now rewrite (stored_storage _ _ _ Hst).
  - rewrite (confined_keeps _ SAVED_PROMPTS_KEY STORAGE_KEY);
      [exact Hb | apply savePrompt_confined | exact keys_differ].
  - rewrite (confined_keeps _ SAVED_PROMPTS_KEY STORAGE_KEY);
      [exact Hb | apply deleteSavedPrompt_confined | exact keys_differ].
Qed.

(** X4: A history of at most [MAX_ITEMS] items stays so under every sequence of
operations, whatever the quota answers. *)
Theorem history_stays_within_MAX_ITEMS (ops : list StoreOp) (w : World) :
  length (stored STORAGE_KEY w) <= MAX_ITEMS ->
  length (stored STORAGE_KEY (calls clock quota ops w)) <= MAX_ITEMS.
Proof.
  revert w. induction ops as [|op ops IH]; intros w Hb; [exact Hb|].
  cbn [calls]. apply IH. now apply call_keeps_bound.
Qed.

(** *** Saved prompts *)

(** X5: [savePrompt] returns normally; when the store takes the write, the new
prompt is read back in front of all the former ones, none being dropped;
when it refuses, nothing changes. *)
Theorem savePrompt_prepends_without_limit (text : string) (w : World) :
  let updated := Prompt (newPrompt clock (ticks w) text)
                 :: stored SAVED_PROMPTS_KEY w in
  let w' := (savePrompt clock quota text w).2 in
  (savePrompt clock quota text w).1 = Return tt /\
  (quota (storage w) SAVED_PROMPTS_KEY (ArrayJSON updated) = true ->
     (getSavedPrompts w').1 = Return updated) /\
  (quota (storage w) SAVED_PROMPTS_KEY (ArrayJSON updated) = false ->
     storage w' = storage w).
Proof.
  intros updated w'.
  destruct (savePrompt_run clock quota text w) as (Hr & _ & Hst). cbv zeta in Hst.
  fold (newPrompt clock (ticks w) text) in Hst. fold updated w' in Hst.
  split; [exact Hr|]. split; intros Hq; rewrite Hq in Hst; [|exact Hst].
  now rewrite getSavedPrompts_result, (stored_of_storage _ _ _ _ Hst).
Qed.

Lemma filter_all_kept (id : string) (l : list Obj) :
  (forall o, In o l -> obj_id o <> id) -> filter (fun o => obj_id o ≠ id) l = l.
Proof.
  induction l as [|o l IH]; intros H; [reflexivity|].
  rewrite filter_cons, decide_True by (apply H; now left).
  f_equal. apply IH. intros o' Ho'. apply H. now right.
Qed.

(** X6: Saving a prompt and deleting it by its id gives back the former list,
when no former prompt has that id and the store takes both writes. *)
Theorem savePrompt_then_delete_restores (text : string) (w : World) :
  let id := toString (clock (ticks w)) in
  let former := stored SAVED_PROMPTS_KEY w in
  let w1 := (savePrompt clock quota text w).2 in
  let w2 := (deleteSavedPrompt quota id w1).2 in
  (forall o, In o former -> obj_id o <> id) ->
  quota (storage w) SAVED_PROMPTS_KEY
    (ArrayJSON (Prompt (newPrompt clock (ticks w) text) :: former)) = true ->
  quota (storage w1) SAVED_PROMPTS_KEY (ArrayJSON former) = true ->
  (getSavedPrompts w2).1 = Return former.
Proof.
  intros id former w1 w2 Hfresh Hq1 Hq2.
  destruct (savePrompt_run clock quota text w) as (_ & _ & Hst1). cbv zeta in Hst1.
  fold (newPrompt clock (ticks w) text) in Hst1. fold former w1 in Hst1.
  rewrite Hq1 in Hst1.
  destruct (delete_run SAVED_PROMPTS_KEY (deleteSavedPrompt quota) id w1)
    as (_ & _ & Hst2); [now right|]. cbv zeta in Hst2. fold w2 in Hst2.
  rewrite (stored_of_storage _ _ _ _ Hst1) in Hst2.
  rewrite filter_cons, decide_False in Hst2 by (cbn; intros H; now apply H).
  rewrite (filter_all_kept id former Hfresh), Hq2 in Hst2.
  now rewrite getSavedPrompts_result, (stored_of_storage _ _ _ _ Hst2).
Qed.

(** X7: Two prompts saved within the same millisecond get the same id, and one
deletion by that id removes both. *)
Theorem same_millisecond_prompts_are_deleted_together
    (text1 text2 : string) (w : World) :
  let id := toString (clock (ticks w)) in
  let w1 := (savePrompt clock quota text1 w).2 in
  let w2 := (savePrompt clock quota text2 w1).2 in
  let w3 := (deleteSavedPrompt quota id w2).2 in
  clock (S (S (ticks w))) = clock (ticks w) ->
  (forall st v, quota st SAVED_PROMPTS_KEY v = true) ->
  (getSavedPrompts w2).1 =
    Return (Prompt (newPrompt clock (S (S (ticks w))) text2)
            :: Prompt (newPrompt clock (ticks w) text1)
            :: stored SAVED_PROMPTS_KEY w) /\
  (getSavedPrompts w3).1 =
    Return (filter (fun o => obj_id o ≠ id) (stored SAVED_PROMPTS_KEY w)).
Proof.
  intros id w1 w2 w3 Hclock Hq.
  destruct (savePrompt_run clock quota text1 w) as (_ & Htk1 & Hst1).
  cbv zeta in Hst1. fold (newPrompt clock (ticks w) text1) in Hst1.
  fold w1 in Hst1, Htk1. rewrite Hq in Hst1.
  destruct (savePrompt_run clock quota text2 w1) as (_ & _ & Hst2).
  cbv zeta in Hst2. fold (newPrompt clock (ticks w1) text2) in Hst2.
  fold w2 in Hst2. rewrite Hq, Htk1, (stored_of_storage _ _ _ _ Hst1) in Hst2.
  destruct (delete_run SAVED_PROMPTS_KEY (deleteSavedPrompt quota) id w2)
    as (_ & _ & Hst3); [now right|]. cbv zeta in Hst3. fold w3 in Hst3.
  rewrite Hq, (stored_of_storage _ _ _ _ Hst2) in Hst3.
  split; [now rewrite getSavedPrompts_result, (stored_of_storage _ _ _ _ Hst2)|].
  rewrite filter_cons, decide_False in Hst3
    by (cbn; rewrite Hclock; intros H; now apply H).
  rewrite filter_cons, decide_False in Hst3 by (cbn; intros H; now apply H).
  now rewrite getSavedPrompts_result, (stored_of_storage _ _ _ _ Hst3).
Qed.


(** *** What the panels show *)

Lemma bind_ret_run {A B} (m : JS A) (b : B) w a :
  (m w).1 = Return a -> bind m (fun _ => ret b) w = (Return b, (m w).2).
Proof.
  unfold bind, ret. destruct (m w) as [[a'|e] w']; [reflexivity | discriminate].
Qed.

(** X8: The history panel: after a deletion that the store took, the list
shown is the list stored; clearing, once confirmed, empties both; a
declined clearing changes nothing. *)
Theorem history_panel_matches_store (id : string) (items : list Obj) (w : World) :
  items = stored STORAGE_KEY w ->
  (quota (storage w) STORAGE_KEY
     (ArrayJSON (filter (fun i => obj_id i ≠ id) items)) = true ->
   (handleDelete quota id items w).1
   = Return (stored STORAGE_KEY (handleDelete quota id items w).2)) /\
  ((handleClearAll true items w).1 = Return [] /\
   stored STORAGE_KEY (handleClearAll true items w).2 = []) /\
  handleClearAll false items w = (Return items, w).
Proof.
  intros ->. split; [|split; [|reflexivity]].
  - intros Hq. unfold handleDelete.
    destruct (delete_run STORAGE_KEY (deleteHistoryItem quota) id w)
      as (Hr & _ & Hst); [now left|]. cbv zeta in Hst. rewrite Hq in Hst.
    rewrite (bind_ret_run _ _ w tt Hr). cbn [fst snd].
    now rewrite (stored_of_storage _ _ _ _ Hst).
  - destruct w as [st tk tr]. unfold handleClearAll, clearAllHistory, removeItem, bind, ret.
    cbn [fst snd]. now rewrite stored_delete.
Qed.

(** X9: When the store refuses the write of a deletion, the panel drops the
item all the same, and the list shown differs from the list stored. *)
Theorem refused_delete_parts_panel_and_store
    (id : string) (items : list Obj) (w : World) :
  items = stored STORAGE_KEY w ->
  (exists o, In o items /\ obj_id o = id) ->
  quota (storage w) STORAGE_KEY
    (ArrayJSON (filter (fun i => obj_id i ≠ id) items)) = false ->
  exists shown,
    (handleDelete quota id items w).1 = Return shown /\
    stored STORAGE_KEY (handleDelete quota id items w).2 = items /\
    shown <> items.
Proof.
  intros -> (o & Hin & Ho) Hq. unfold handleDelete.
  destruct (delete_run STORAGE_KEY (deleteHistoryItem quota) id w)
    as (Hr & _ & Hst); [now left|]. cbv zeta in Hst. rewrite Hq in Hst.
  rewrite (bind_ret_run _ _ w tt Hr). cbn [fst snd].
  eexists. split; [reflexivity|]. split; [exact (stored_storage _ _ _ Hst)|].
  intros E. rewrite <- E in Hin.
  apply list_elem_of_In, list_elem_of_filter in Hin as [Hne _]. now apply Hne.
Qed.

(** X10: The saved-prompts panel: after [handleSavePrompt] the list shown is the
list stored, whether the store took the write or not; after a deletion
that the store took, likewise. *)
Theorem saved_prompts_panel_matches_store
    (text id : string) (shown : list Obj) (w : World) :
  (handleSavePrompt clock quota text w).1
  = Return (stored SAVED_PROMPTS_KEY (handleSavePrompt clock quota text w).2) /\
  (shown = stored SAVED_PROMPTS_KEY w ->
   quota (storage w) SAVED_PROMPTS_KEY
     (ArrayJSON (filter (fun p => obj_id p ≠ id) shown)) = true ->
   (handleDeletePrompt quota id shown w).1
   = Return (stored SAVED_PROMPTS_KEY (handleDeletePrompt quota id shown w).2)).
Proof.
  split.
  - unfold handleSavePrompt, bind.
    destruct (savePrompt_run clock quota text w) as (Hr & _ & _).
    destruct (savePrompt clock quota text w) as [[[]|e] w1]; [|discriminate Hr].
    destruct (getSavedPrompts_run w1) as (Hg & Hst & _).
    rewrite Hg. now rewrite (stored_storage _ _ _ Hst).
  - intros -> Hq. unfold handleDeletePrompt.
    destruct (delete_run SAVED_PROMPTS_KEY (deleteSavedPrompt quota) id w)
      as (Hr & _ & Hst); [now right|]. cbv zeta in Hst. rewrite Hq in Hst.
    rewrite (bind_ret_run _ _ w tt Hr). cbn [fst snd].
    now rewrite (stored_of_storage _ _ _ _ Hst).
Qed.

End Laws.

Lemma history_stays_within_MAX_ITEMS_witness :
  length (stored STORAGE_KEY
            (calls example_clock accepts_four
               [AddItem example_addition; DeleteItem "1700000000000"; ClearAll]
               six_world)) <= MAX_ITEMS.
Proof.
  apply (history_stays_within_MAX_ITEMS example_clock accepts_four). vm_compute. lia.
Defined.

Lemma savePrompt_then_delete_restores_witness :
  (getSavedPrompts
     (deleteSavedPrompt always_accepts "1700000000000"
        (savePrompt example_clock always_accepts "a cat" empty_world).2).2).1
  = Return [].
Proof.
  apply (savePrompt_then_delete_restores example_clock always_accepts "a cat"
           empty_world); [intros o [] | reflexivity | reflexivity].
Defined.

Lemma same_millisecond_prompts_are_deleted_together_witness :
  (getSavedPrompts
     (deleteSavedPrompt always_accepts "1700000000000"
        (savePrompt still_clock always_accepts "a dog"
           (savePrompt still_clock always_accepts "a cat" empty_world).2).2).2).1
  = Return [].
Proof.
  apply (same_millisecond_prompts_are_deleted_together still_clock always_accepts
           "a cat" "a dog" empty_world); reflexivity.
Defined.

Lemma history_panel_matches_store_witness :
  (handleDelete always_accepts "1700000000000" (stored STORAGE_KEY small_world)
     small_world).1
  = Return (stored STORAGE_KEY
              (handleDelete always_accepts "1700000000000"
                 (stored STORAGE_KEY small_world) small_world).2).
Proof.
  apply (history_panel_matches_store always_accepts "1700000000000"
           (stored STORAGE_KEY small_world) small_world eq_refl). reflexivity.
Defined.

Lemma refused_delete_parts_panel_and_store_witness :
  exists shown,
    (handleDelete never_accepts "1700000000000" (stored STORAGE_KEY small_world)
       small_world).1 = Return shown /\
    stored STORAGE_KEY
      (handleDelete never_accepts "1700000000000" (stored STORAGE_KEY small_world)
         small_world).2 = stored STORAGE_KEY small_world /\
    shown <> stored STORAGE_KEY small_world.
Proof.
  apply (refused_delete_parts_panel_and_store never_accepts "1700000000000"
           (stored STORAGE_KEY small_world) small_world eq_refl);
    [|reflexivity].
  eexists. split; [vm_compute; right; left; reflexivity | reflexivity].
Defined.

End StoreLaws.

(** ** The service: errors and images *)

Module ServiceProofs.
Local Open Scope nat_scope.
Import Service ServiceSpec.

Lemma startsWith_spec s t : startsWith s t = true <-> exists post, s = t ++ post.
Proof.
  revert s. induction t as [|c t IH]; intros s; cbn [startsWith].
  - split; [intros _; now exists s | reflexivity].
  - destruct s as [|ch s].
    + split; [discriminate | intros (post & E); discriminate E].
    + rewrite andb_true_iff, N.eqb_eq, IH. split.
      * intros (-> & post & ->). now exists post.
      * intros (post & E). injection E as -> ->. eauto.
Qed.

Lemma includes_spec s t :
  includes s t = true <-> exists pre post, s = pre ++ t ++ post.
Proof.
  induction s as [|ch s IH]; cbn [includes]; rewrite orb_true_iff, startsWith_spec.
  - split.
    + intros [(post & E) | H]; [|discriminate H]. now exists [], post.
    + intros (pre & post & E). left. destruct pre; [now exists post | discriminate E].
  - rewrite IH. split.
    + intros [(post & E) | (pre & post & ->)]; [now exists [], post|].
      now exists (ch :: pre), post.
    + intros (pre & post & E). destruct pre as [|c pre].
      * left. now exists post.
      * right. injection E as -> ->. now exists pre, post.
Qed.

Lemma includes_occurs s t : includes s (js t) = true <-> occurs t s.
Proof. apply includes_spec. Qed.


Lemma permission_spec error :
  status_is error 403 || includes (errorMessage error) (js "403")
  || includes (errorMessage error) (js "PERMISSION_DENIED") = true <->
  status_is error 403 = true \/ occurs "403" (errorMessage error)
  \/ occurs "PERMISSION_DENIED" (errorMessage error).
Proof. rewrite !orb_true_iff, !includes_occurs. tauto. Qed.

Lemma rate_spec error :
  status_is error 429 || includes (errorMessage error) (js "429")
  || includes (errorMessage error) (js "RESOURCE_EXHAUSTED") = true <->
  status_is error 429 = true \/ occurs "429" (errorMessage error)
  \/ occurs "RESOURCE_EXHAUSTED" (errorMessage error).
Proof. rewrite !orb_true_iff, !includes_occurs. tauto. Qed.

(** X11: How [handleGeminiError] words an error: as a denied access as soon as
the status is 403 or the text holds "403" or "PERMISSION_DENIED" anywhere,
with the wording for the Pro model exactly for that model, also when the
error is a rate limit as well; otherwise as a rate limit when the status is
429 or the text holds "429" or "RESOURCE_EXHAUSTED"; otherwise with its own
text. *)
Theorem handleGeminiError_wording (error : ErrorValue) (modelType : ModelType) :
  let text := errorMessage error in
  let denied :=
    status_is error 403 = true \/ occurs "403" text
    \/ occurs "PERMISSION_DENIED" text in
  let limited :=
    status_is error 429 = true \/ occurs "429" text
    \/ occurs "RESOURCE_EXHAUSTED" text in
  (denied ->
   handleGeminiError error modelType =
   Thrown (match modelType with
           | Pro => ACCESS_DENIED_PRO
           | _ => ACCESS_DENIED
           end)) /\
  (~ denied -> limited -> handleGeminiError error modelType = Thrown RATE_LIMIT) /\
  (~ denied -> ~ limited -> handleGeminiError error modelType = Thrown text).
Proof.
  intros text denied limited. unfold handleGeminiError.
  pose proof (permission_spec error) as Hp. pose proof (rate_spec error) as Hr.
  fold text denied in Hp. fold text limited in Hr. fold text.
  destruct (status_is error 403 || includes text (js "403")
            || includes text (js "PERMISSION_DENIED")).
  - split; [intros _; now destruct modelType|].
    split; intros Hno; destruct Hno; now apply Hp.
  - assert (Hnd : ~ denied) by (intros H; apply Hp in H; discriminate H).
    split; [intros H; now destruct Hnd|].
    destruct (status_is error 429 || includes text (js "429")
              || includes text (js "RESOURCE_EXHAUSTED")).
    + split; [reflexivity|]. intros _ Hno. destruct Hno. now apply Hr.
    + split; [|reflexivity]. intros _ H. apply Hr in H. discriminate H.
Qed.

(** X12: [handleGeminiError] never returns: the three callers end by throwing,
and the [return ""] after the call is not reached. *)
Theorem handleGeminiError_never_returns
    (error : ErrorValue) (modelType : ModelType) (useThinking usePro : bool) :
  (exists m, handleGeminiError error modelType = Thrown m) /\
  (exists m, sendChatMessage_catch error useThinking = Thrown m) /\
  (exists m, generateImage_catch error usePro = Thrown m) /\
  (exists m, editImage_catch error = Thrown m).
Proof.
  assert (H : forall mt, exists m, handleGeminiError error mt = Thrown m).
  { intros mt. unfold handleGeminiError.
    destruct (_ || _ || _); [destruct mt; eauto|].
    destruct (_ || _ || _); eauto. }
  split; [apply H|].
  unfold sendChatMessage_catch, generateImage_catch, editImage_catch.
  repeat split.
  - destruct (H (if useThinking then Pro else Text)) as (m & ->). eauto.
  - destruct (H (if usePro then Pro else Flash)) as (m & ->). eauto.
  - destruct (H Flash) as (m & ->). eauto.
Qed.

(** *** Data URLs *)

Lemma split_char_none sep s : ~ In sep s -> split_char sep s = [s].
Proof.
  induction s as [|ch s IH]; intros Hno; cbn [split_char]; [reflexivity|].
  destruct (N.eqb_spec ch sep) as [->|_]; [destruct Hno; now left|].
  rewrite IH; [reflexivity|]. intros H. apply Hno. now right.
Qed.

Lemma split_char_field sep a rest :
  ~ In sep a -> split_char sep (a ++ sep :: rest) = a :: split_char sep rest.
Proof.
  induction a as [|ch a IH]; intros Hno; cbn [split_char app].
  - now rewrite N.eqb_refl.
  - destruct (N.eqb_spec ch sep) as [->|_]; [destruct Hno; now left|].
    rewrite IH; [reflexivity|]. intros H. apply Hno. now right.
Qed.

Lemma cleanBase64_field before data rest :
  ~ In comma before -> ~ In comma data -> data <> [] ->
  cleanBase64 (before ++ [comma] ++ data) = data /\
  cleanBase64 (before ++ [comma] ++ data ++ [comma] ++ rest) = data.
Proof.
  unfold comma. intros Hb Hd Hne. unfold cleanBase64. cbn [app].
  rewrite !split_char_field by assumption.
  rewrite (split_char_none _ _ Hd). cbn [nth_error].
  split; destruct data; [congruence | reflexivity | congruence | reflexivity].
Qed.

(** X13: [cleanBase64] keeps what stands between the first comma and the next
one, or the end; a string without comma, or with nothing there, is kept
whole. *)
Theorem cleanBase64_takes_the_data (before data rest : jsstring) :
  ~ In comma before -> ~ In comma data ->
  (data <> [] ->
   cleanBase64 (before ++ [comma] ++ data) = data /\
   cleanBase64 (before ++ [comma] ++ data ++ [comma] ++ rest) = data) /\
  cleanBase64 before = before /\
  cleanBase64 (before ++ [comma]) = before ++ [comma] /\
  cleanBase64 (before ++ [comma] ++ [comma] ++ rest)
  = before ++ [comma] ++ [comma] ++ rest.
Proof.
  intros Hb Hd. split; [now apply cleanBase64_field|].
  unfold comma in *. unfold cleanBase64. cbn [app].
  rewrite !split_char_field by assumption.
  rewrite (split_char_none _ _ Hb).
  cbn [split_char nth_error]. rewrite N.eqb_refl. repeat split.
Qed.

Lemma cleanBase64_takes_the_data_witness :
  cleanBase64 (js "data:image/png;base64,AAAA") = js "AAAA".
Proof.
  apply (cleanBase64_takes_the_data (js "data:image/png;base64") (js "AAAA") []).
  - vm_compute. intuition discriminate.
  - vm_compute. intuition discriminate.
  - discriminate.
Defined.

(** X14: The image a call returns is built from the first part that has
[inlineData]; handed back to [generateImage] or [editImage], it is sent
with exactly the data received, when the data are not empty and hold no
comma; without such a part no image is returned. *)
Theorem returned_image_gives_back_its_data
    (others : list Part) (part : Part) (after : list Part) (data : jsstring) :
  Forall (fun p => inlineData p = None) others ->
  inlineData part = Some data ->
  imageOf (others ++ part :: after) = Some (js "data:image/png;base64," ++ data) /\
  (data <> [] -> ~ In comma data ->
   cleanBase64 (js "data:image/png;base64," ++ data) = data) /\
  imageOf others = None.
Proof.
  intros Hothers Hpart.
  assert (Hskip : forall tl, imageOf (others ++ tl) = imageOf tl).
  { intros tl. induction Hothers as [|p ps Hp _ IH]; [reflexivity|].
    cbn [app imageOf]. now rewrite Hp. }
  split; [|split].
  - rewrite Hskip. cbn [imageOf]. now rewrite Hpart.
  - intros Hne Hno.
    apply (cleanBase64_field (js "data:image/png;base64") data []);
      [vm_compute; intuition discriminate | exact Hno | exact Hne].
  - rewrite <- (app_nil_r others). now rewrite Hskip.
Qed.

Lemma imageOf_none parts :
  Forall (fun p => inlineData p = None) parts -> imageOf parts = None.
Proof.
  induction 1 as [|p ps Hp _ IH]; [reflexivity|]. cbn [imageOf]. now rewrite Hp.
Qed.

Lemma handleGeminiError_plain error modelType :
  status error = None -> message error <> [] -> without_codes (message error) ->
  handleGeminiError error modelType = Thrown (message error).
Proof.
  intros Hst Hne (H1 & H2 & H3 & H4). unfold handleGeminiError.
  assert (Hm : errorMessage error = message error).
  { unfold errorMessage. destruct (message error); [congruence | reflexivity]. }
  assert (Hs : forall code, status_is error code = false)
    by (intros code; unfold status_is; now rewrite Hst).
  assert (Hn : forall t, ~ occurs t (message error) ->
                 includes (message error) (js t) = false).
  { intros t Hno. destruct (includes _ _) eqn:E; [|reflexivity].
    apply includes_occurs in E. now destruct Hno. }
  rewrite Hm, !Hs, (Hn _ H1), (Hn _ H2), (Hn _ H3), (Hn _ H4). reflexivity.
Qed.

(** X15: A response that can be read and holds no image ends [generateImage]
and [editImage] with their own message, which the error handler passes on
unchanged, for both models.  A response whose array of candidates is empty,
or whose first candidate has no content, ends them with what the handler
makes of the engine's TypeError instead: the engine's message, when it is
not empty and holds none of the codes the handler looks for. *)
Theorem response_without_image_is_reported_as_such
    (cannotRead : string -> jsstring) (response : Response) (usePro : bool) :
  (no_image response ->
   generateImage_end cannotRead response usePro = Thrown NO_IMAGE /\
   editImage_end cannotRead response = Thrown NO_EDITED_IMAGE) /\
  (forall property, unreadable response property ->
   generateImage_end cannotRead response usePro
   = generateImage_catch (TypeError cannotRead property) usePro /\
   editImage_end cannotRead response
   = editImage_catch (TypeError cannotRead property) /\
   (cannotRead property <> [] -> without_codes (cannotRead property) ->
    generateImage_end cannotRead response usePro = Thrown (cannotRead property) /\
    editImage_end cannotRead response = Thrown (cannotRead property))).
Proof.
  split.
  - intros Hno. unfold generateImage_end, editImage_end.
    assert (E : exists ps, partsOf cannotRead response = inr ps /\
                  match ps with Some l => imageOf l | None => None end = None).
    { unfold partsOf.
      destruct Hno as [-> | (c & cs & body & -> & -> & Hps)]; [now exists None|].
      exists (parts body). split; [reflexivity|].
      destruct (parts body) as [ps|]; [|reflexivity]. apply imageOf_none. now apply Hps. }
    destruct E as (ps & -> & ->). split; [destruct usePro|]; vm_compute; reflexivity.
  - intros property Hun. unfold generateImage_end, editImage_end.
    assert (E : partsOf cannotRead response = inl (TypeError cannotRead property)).
    { unfold partsOf.
      destruct Hun as [[-> ->] | (c & cs & -> & -> & ->)]; reflexivity. }
    rewrite E. split; [reflexivity|]. split; [reflexivity|].
    intros Hne Hcodes. unfold generateImage_catch, editImage_catch.
    rewrite !(handleGeminiError_plain (TypeError cannotRead property));
      try assumption; try reflexivity.
    split; reflexivity.
Qed.

Lemma response_without_image_is_reported_as_such_witness :
  generateImage_end v8_message
    {| candidates :=
         Some [{| content :=
                    Some {| parts :=
                              Some [{| text := Some (js "I cannot draw that.");
                                       inlineData := None |}] |} |}] |} true
  = Thrown NO_IMAGE /\
  generateImage_end v8_message {| candidates := Some [] |} true
  = Thrown (v8_message "content").
Proof.
  split.
  - apply (response_without_image_is_reported_as_such v8_message
             {| candidates :=
                  Some [{| content :=
                             Some {| parts :=
                                       Some [{| text := Some (js "I cannot draw that.");
                                                inlineData := None |}] |} |}] |} true).
    right. eexists _, _, _. split; [reflexivity|]. split; [reflexivity|].
    intros ps [= <-]. repeat constructor.
  - destruct (proj2 (response_without_image_is_reported_as_such v8_message
                       {| candidates := Some [] |} true) "content"%string)
      as (_ & _ & H); [left; split; reflexivity|].
    apply H; [discriminate|].
    repeat split; intros Ho; apply includes_occurs in Ho; vm_compute in Ho;
      discriminate Ho.
Defined.

Lemma returned_image_gives_back_its_data_witness :
  imageOf ([{| text := Some (js "Here is your image"); inlineData := None |}]
           ++ {| text := None; inlineData := Some (js "AAAA") |} :: [])
  = Some (js "data:image/png;base64," ++ js "AAAA").
Proof.
  apply (returned_image_gives_back_its_data
           [{| text := Some (js "Here is your image"); inlineData := None |}]
           {| text := None; inlineData := Some (js "AAAA") |} [] (js "AAAA"));
    [repeat constructor | reflexivity].
Defined.

End ServiceProofs.

(** ** Dimensions without a ratio *)

Module SizingProofs.
Local Open Scope nat_scope.
Import Fields Generator.

Lemma closest_of_ratio w h :
  getClosestAspectRatio w h =
  match reduce (closer (div w h)) ratios with
  | Some e => val e
  | None => SQUARE
  end.
Proof. reflexivity. Qed.

Lemma zero_height_is_square w h :
  is_zero h = true -> getClosestAspectRatio w h = SQUARE.
Proof.
  rewrite closest_of_ratio. unfold div. intros Hh.
  destruct h as [sh| | |]; try discriminate Hh.
  destruct w as [[]|[]| |[] ? ?], sh; vm_compute; reflexivity.
Qed.

(** X16: Dimensions without a finite ratio: a height of zero, or a width or
height that is not a number, resolve to 1:1; a width of zero over a
positive height resolves to 9:16, the smallest ratio of the table. *)
Theorem degenerate_dimensions (w h : number) :
  (is_zero h = true -> getClosestAspectRatio w h = SQUARE) /\
  (is_nan w || is_nan h = true -> getClosestAspectRatio w h = SQUARE) /\
  (is_zero w = true -> ltb (of_Z 0) h = true ->
   getClosestAspectRatio w h = PORTRAIT_9_16).
Proof.
  split; [apply zero_height_is_square|]. rewrite closest_of_ratio. unfold div. split.
  - intros Hn. destruct w as [sw|sw| |sw mw ew]; cbn [SFdiv]; try reflexivity;
      destruct h as [sh|sh| |sh mh eh]; try discriminate Hn; reflexivity.
  - intros Hw Hh. destruct w as [sw| | |]; try discriminate Hw.
    destruct h as [sh|[]| |[] mh eh]; try discriminate Hh;
      destruct sw; vm_compute; reflexivity.
Qed.

Lemma dimensionField_blank value :
  is_nan (parseInt value) = true -> dimensionField value = S754_zero false.
Proof. unfold dimensionField. intros ->. reflexivity. Qed.

Lemma max_over_zero w bound :
  ltb (of_Z 0) (of_Z bound) = true -> gtb w (of_Z bound) = true ->
  Number.max w (of_Z 0) = w.
Proof.
  unfold gtb, ltb. intros Hb Hw.
  destruct w as [sw|[]| |[] mw ew]; try reflexivity;
    destruct (of_Z bound) as [sb|[]| |[] mb eb]; try discriminate Hb;
    try discriminate Hw; reflexivity.
Qed.

(** X17: A height field that was cleared, or holds no number, is read as 0 and
makes the request of the generator square, whatever the width; the size
tier is then the one of the width alone: 4K above 2048, 2K above 1024. *)
Theorem cleared_height_field_gives_square (st : State) (value : jsstring) :
  useCustomSize st = true -> trim (prompt st) <> [] ->
  is_nan (parseInt value) = true ->
  customHeight st = dimensionField value ->
  dimensionField value = of_Z 0 /\
  handleGenerate st =
    Some {| finalAspectRatio := SQUARE;
            finalSize :=
              let maxDim := Number.max (customWidth st) (of_Z 0) in
              if gtb maxDim (of_Z 2048) then K4
              else if gtb maxDim (of_Z 1024) then K2
              else K1 |} /\
  (gtb (customWidth st) (of_Z 2048) = true ->
   handleGenerate st = Some {| finalAspectRatio := SQUARE; finalSize := K4 |}) /\
  (gtb (customWidth st) (of_Z 2048) = false ->
   gtb (customWidth st) (of_Z 1024) = true ->
   handleGenerate st = Some {| finalAspectRatio := SQUARE; finalSize := K2 |}).
Proof.
  intros Hc Hp Hv Hh.
  assert (Hzero : dimensionField value = of_Z 0) by now apply dimensionField_blank.
  assert (Hgen : handleGenerate st =
            Some {| finalAspectRatio := SQUARE;
                    finalSize :=
                      let maxDim := Number.max (customWidth st) (of_Z 0) in
                      if gtb maxDim (of_Z 2048) then K4
                      else if gtb maxDim (of_Z 1024) then K2
                      else K1 |}).
  { unfold handleGenerate. rewrite Hc.
    destruct (trim (prompt st)) as [|ch t]; [congruence|].
    rewrite zero_height_is_square by (rewrite Hh, Hzero; reflexivity).
    now rewrite Hh, Hzero. }
  split; [exact Hzero|]. split; [exact Hgen|]. split.
  - intros H4. rewrite Hgen. cbv zeta.
    rewrite (max_over_zero _ 2048 eq_refl H4). now rewrite H4.
  - intros H4 H2. rewrite Hgen. cbv zeta.
    rewrite (max_over_zero _ 1024 eq_refl H2). now rewrite H4, H2.
Qed.

Lemma cleared_height_field_gives_square_witness :
  dimensionField [] = of_Z 0 /\
  handleGenerate
    {| prompt := js "a cat"; aspectRatio := LANDSCAPE_16_9; size := K1;
       useCustomSize := true; customWidth := of_Z 1920;
       customHeight := dimensionField [] |}
  = Some {| finalAspectRatio := SQUARE; finalSize := K2 |}.
Proof.
  destruct (cleared_height_field_gives_square
              {| prompt := js "a cat"; aspectRatio := LANDSCAPE_16_9; size := K1;
                 useCustomSize := true; customWidth := of_Z 1920;
                 customHeight := dimensionField [] |} [])
    as (H0 & _ & _ & H2);
    [reflexivity | discriminate | reflexivity | reflexivity |].
  split; [exact H0|]. apply H2; reflexivity.
Defined.

End SizingProofs.

(** ** Enhanced prompts outside the chat *)

Module EnhanceProofs.
Import RegExpSpec RegExpProofs ResponseSpec ResponseProofs.
Import Service ServiceSpec ServiceProofs.
Local Open Scope nat_scope.
Import Enhance.

(** The second piece of the split, when there is one. *)
Lemma split_second msg :
  (exists piece, second_piece msg piece /\
     nth_error (split true enhanced_label_re msg) 1 = Some piece) \/
  (~ mentions_enhanced_prompt msg /\
   nth_error (split true enhanced_label_re msg) 1 = None).
Proof.
  unfold split. destruct msg as [|ch0 msg0].
  - right. split.
    + rewrite mentions_label. intros (j & H). rewrite drop_nil in H.
      exact (label_starts_nil H).
    + now destruct (matcher _ _ _ _ _).
  - set (msg := ch0 :: msg0).
    destruct (split_from_scan msg (2 * length msg + 2) 0 0 []) as
      [[Hno E] | (a & nm & col & b & E & Hnm & Hfree & Hcol & f & e & Hf & Es)];
      [lia | lia | |].
    + right. rewrite E. split; [|reflexivity].
      rewrite mentions_label. intros (j & H). exact (Hno j H).
    + left. rewrite Es. cbn [nth_error app].
      destruct (split_from_scan b f e e []) as
        [[Hno2 E2] | (a2 & nm2 & col2 & b2 & E2 & Hnm2 & Hfree2 & _ & f2 & e2 & _ & Es2)];
        [exact Hf | lia | |].
      * rewrite E2. cbn [nth_error app]. exists b. split; [|reflexivity].
        exists a, nm, col, []. rewrite app_nil_r. repeat split; auto.
        intros j _. apply Hno2.
      * rewrite Es2. cbn [nth_error app]. exists a2. split; [|reflexivity].
        exists a, nm, col, (nm2 ++ col2 ++ b2). rewrite <- E2. repeat split; auto.
        right. exists nm2, (col2 ++ b2). auto.
Qed.

Lemma second_piece_mentions msg piece :
  second_piece msg piece -> mentions_enhanced_prompt msg.
Proof.
  intros (a & nm & col & rest' & -> & Hnm & _).
  exists a, nm, (col ++ piece ++ rest'). auto.
Qed.

Lemma enhancedOf_cases (response : jsstring) :
  (extractEnhancedPrompt response <> [] ->
   enhancedOf response = extractEnhancedPrompt response) /\
  (~ mentions_enhanced_prompt response -> enhancedOf response = response) /\
  (enhancedOf response = [] ->
   response = [] \/
   (mentions_enhanced_prompt response /\ extractEnhancedPrompt response = [])).
Proof.
  pose proof (enhanced_match_cases response) as Hm.
  unfold enhancedOf, extractEnhancedPrompt.
  destruct (match_ true enhanced_re response) as [res|].
  - destruct Hm as (pre & body & Hblock & -> & _).
    apply enhanced_block_section in Hblock.
    pose proof (enhanced_section_mentions _ _ _ Hblock) as Hmen.
    destruct Hblock as (_ & _ & _ & _ & _ & _ & Hb & _).
    destruct body as [|ch t]; [congruence|].
    split; [reflexivity|]. split; [intros Hno; now destruct Hno|].
    intros E. right. split; [exact Hmen | exact E].
  - destruct (split_second response) as [(piece & Hp & ->) | (Hno & ->)].
    + pose proof (second_piece_mentions _ _ Hp) as Hmen.
      destruct piece as [|ch t].
      * split; [congruence|]. split; [intros H; now destruct H|].
        intros ->. now left.
      * split; [reflexivity|]. split; [intros H; now destruct H|].
        intros E. right. split; [exact Hmen | exact E].
    + split; [congruence|]. split; [reflexivity|]. intros ->. now left.
Qed.

(** X18: [handleEnhancePrompt] replaces the prompt by what the button of the
chat takes from the response, whenever that is not empty; a response
without "Enhanced Prompt" replaces it as a whole; and the prompt is never
replaced by an empty one. *)
Theorem handleEnhancePrompt_takes_what_the_chat_takes
    (sendChatMessage : jsstring -> bool -> Completion jsstring)
    (prompt response : jsstring) :
  trim prompt <> [] ->
  sendChatMessage
    (js "Enhance this image generation prompt to be highly detailed, artistic, and descriptive. Input: "
     ++ [34%N] ++ prompt ++ [34%N]) false = Normal response ->
  (extractEnhancedPrompt response <> [] ->
   handleEnhancePrompt sendChatMessage prompt = extractEnhancedPrompt response) /\
  (~ mentions_enhanced_prompt response -> response <> [] ->
   handleEnhancePrompt sendChatMessage prompt = response) /\
  handleEnhancePrompt sendChatMessage prompt <> [].
Proof.
  intros Hp Hsend. unfold handleEnhancePrompt. rewrite Hsend.
  assert (Hp' : prompt <> []) by (intros ->; now apply Hp).
  destruct (trim prompt) as [|c0 t0]; [congruence|].
  destruct (enhancedOf_cases response) as (Hsame & Hwhole & _).
  split; [|split].
  - intros Hne. rewrite (Hsame Hne).
    destruct (extractEnhancedPrompt response); [congruence | reflexivity].
  - intros Hno Hne. rewrite (Hwhole Hno). destruct response; [congruence | reflexivity].
  - destruct (enhancedOf response); [exact Hp' | discriminate].
Qed.

Lemma handleEnhancePrompt_takes_what_the_chat_takes_witness :
  handleEnhancePrompt (fun _ _ => Normal enhanced_example) (js "a cat") = js "A cat.".
Proof.
  apply (handleEnhancePrompt_takes_what_the_chat_takes
           (fun _ _ => Normal enhanced_example) (js "a cat") enhanced_example);
    [discriminate | reflexivity | vm_compute; discriminate].
Defined.

Lemma occurs_mentions (t : string) msg a b :
  js t = a ++ js "Enhanced Prompt" ++ b -> occurs t msg ->
  mentions_enhanced_prompt msg.
Proof.
  intros E (pre & post & ->). rewrite E.
  exists (pre ++ a), (js "Enhanced Prompt"), (b ++ post).
  split; [now rewrite <- !app_assoc | reflexivity].
Qed.

(** X19: The two buttons are shown only under a message of the model that holds
"Enhanced Prompt"; what they take from it is then the trimmed body of the
section read at the first emphasised label that has one, or, when the text
has no such section, the trimmed text between the first "Enhanced Prompt"
and the next. *)
Theorem isEnhancedMsg_has_a_label (role : Role) (text : jsstring) :
  isEnhancedMsg role text = true ->
  role = model /\ mentions_enhanced_prompt text /\
  ((exists pre body, enhanced_block text pre body /\
      extractEnhancedPrompt text = trim body /\
      forall pre' body', enhanced_section text pre' body' ->
        length pre <= length pre') \/
   ((~ exists pre body, enhanced_section text pre body) /\
    exists piece, second_piece text piece /\
      extractEnhancedPrompt text = trim piece)).
Proof.
  intros H. destruct role; [discriminate H|]. cbn [isEnhancedMsg] in H.
  assert (Hmen : mentions_enhanced_prompt text).
  { apply orb_true_iff in H as [H | H]; apply includes_occurs in H.
    - exact (occurs_mentions "Enhanced Prompt:" text [] [58%N] eq_refl H).
    - exact (occurs_mentions "**Enhanced Prompt" text (js "**") [] eq_refl H). }
  split; [reflexivity|]. split; [exact Hmen|].
  destruct (extractEnhancedPrompt_by_section text) as [Hb | [Hnone E]]; [now left|].
  right. split; [exact Hnone|]. rewrite E.
  destruct (fallback_cases text) as [Hp | [Hno _]]; [exact Hp | now destruct Hno].
Qed.

Lemma isEnhancedMsg_has_a_label_witness :
  mentions_enhanced_prompt enhanced_example.
Proof.
  apply (isEnhancedMsg_has_a_label model enhanced_example). reflexivity.
Defined.

(** *** What [extractStyles] returns *)

Lemma trimStart_fixed s :
  match s with ch :: _ => is_space ch = false | [] => True end -> trimStart s = s.
Proof. destruct s as [|ch s]; [reflexivity|]. cbn. now intros ->. Qed.

Lemma trimStart_head s :
  match trimStart s with ch :: _ => is_space ch = false | [] => True end.
Proof.
  induction s as [|ch s IH]; cbn; [exact I|].
  destruct (is_space ch) eqn:E; [exact IH | exact E].
Qed.

Lemma dropWhile_head p s :
  match dropWhile p s with ch :: _ => p ch = false | [] => True end.
Proof.
  induction s as [|ch s IH]; cbn; [exact I|].
  destruct (p ch) eqn:E; [exact IH | exact E].
Qed.

Lemma dropWhile_suffix p s : exists pre, s = pre ++ dropWhile p s.
Proof.
  induction s as [|ch s (pre & IH)]; cbn; [now exists []|].
  destruct (p ch); [exists (ch :: pre); cbn; congruence | now exists []].
Qed.

Lemma rev_head_suffix (pre s : jsstring) :
  s <> [] -> head (rev (pre ++ s)) = head (rev s).
Proof.
  intros Hs. rewrite rev_app_distr.
  destruct (rev s) as [|ch r] eqn:E; [|reflexivity].
  apply (f_equal (@rev _)) in E. rewrite rev_involutive in E. now destruct Hs.
Qed.

Lemma trimEnd_suffix pre s : trimEnd (pre ++ s) = pre ++ s -> trimEnd s = s.
Proof.
  destruct s as [|c s]; [reflexivity|]. set (t := c :: s). intros H.
  unfold trimEnd in *. apply (f_equal (@rev _)) in H. rewrite rev_involutive in H.
  pose proof (trimStart_head (rev (pre ++ t))) as Hh. rewrite H in Hh.
  pose proof (rev_head_suffix pre t ltac:(discriminate)) as Hd.
  rewrite trimStart_fixed; [apply rev_involutive|].
  destruct (rev t) as [|ch r]; [exact I|].
  destruct (rev (pre ++ t)) as [|ch' r']; [discriminate Hd|].
  cbn in Hd. injection Hd as ->. exact Hh.
Qed.

Lemma trimEnd_idem s : trimEnd (trimEnd s) = trimEnd s.
Proof.
  unfold trimEnd. rewrite rev_involutive. f_equal.
  apply trimStart_fixed, trimStart_head.
Qed.

Lemma trim_trimEnd s : trimEnd (trim s) = trim s.
Proof. apply trimEnd_idem. Qed.

(** X20: Every style [extractStyles] returns is trimmed: it neither starts nor
ends with white space. *)
Theorem extractStyles_returns_trimmed_styles (text style : jsstring) :
  In style (extractStyles text) -> trim style = style.
Proof.
  intros Hin.
  assert (Hs : exists line, style = strip_bullets (trim line)).
  { destruct (extractStyles_cases text) as [(pre & body & _ & E & _) | [_ E]];
      rewrite E in Hin; [|destruct Hin].
    unfold style_lines in Hin. apply in_map_iff in Hin as (l & <- & Hl).
    apply list_elem_of_In, list_elem_of_filter in Hl as [_ Hl].
    apply list_elem_of_In, in_map_iff in Hl as (line & <- & _). eauto. }
  destruct Hs as (line & ->). unfold strip_bullets.
  destruct (dropWhile_suffix is_bullet (trim line)) as (p1 & E1).
  destruct (dropWhile_suffix is_space (dropWhile is_bullet (trim line))) as (p2 & E2).
  set (s := dropWhile is_space (dropWhile is_bullet (trim line))) in *.
  unfold trim at 1. rewrite trimStart_dropWhile.
  assert (Hstart : dropWhile is_space s = s).
  { rewrite <- trimStart_dropWhile. apply trimStart_fixed.
    exact (dropWhile_head is_space _). }
  rewrite Hstart. apply (trimEnd_suffix (p1 ++ p2)).
  rewrite <- app_assoc, <- E2, <- E1. apply trim_trimEnd.
Qed.

Lemma extractStyles_returns_trimmed_styles_witness :
  trim (js "Anime") = js "Anime".
Proof.
  apply (extractStyles_returns_trimmed_styles enhanced_example (js "Anime")).
  vm_compute. now left.
Defined.

End EnhanceProofs.

(** ** The progress bar *)

Module ProgressProofs.
Local Open Scope nat_scope.
Import Progress ProgressSpec.

Lemma same_eq x y : same x y = true -> x = y.
Proof.
  destruct x as [sx|sx| |sx mx ex], y as [sy|sy| |sy my ey]; cbn; try discriminate;
    try reflexivity.
  - intros H. apply eqb_prop in H. now subst.
  - intros H. apply eqb_prop in H. now subst.
  - intros H. apply andb_prop in H as [H He]. apply andb_prop in H as [Hs Hm].
    apply eqb_prop in Hs. apply Pos.eqb_eq in Hm. apply Z.eqb_eq in He. now subst.
Qed.

Lemma steps usePro :
  forallb
    (fun n =>
       same (tick usePro (halves (pace usePro * n)))
            (if S n <? stall usePro then halves (pace usePro * S n) else of_Z 98)
       && ltb (halves (pace usePro * n)) (tick usePro (halves (pace usePro * n)))
       && geb (of_Z 98) (halves (pace usePro * n)))
    (List.seq 0 (stall usePro)) = true.
Proof. destruct usePro; vm_compute; reflexivity. Qed.

Lemma step usePro n :
  n < stall usePro ->
  tick usePro (halves (pace usePro * n)) =
    (if S n <? stall usePro then halves (pace usePro * S n) else of_Z 98) /\
  ltb (halves (pace usePro * n)) (tick usePro (halves (pace usePro * n))) = true /\
  geb (of_Z 98) (halves (pace usePro * n)) = true.
Proof.
  intros Hn. pose proof (steps usePro) as H. rewrite forallb_forall in H.
  specialize (H n). rewrite in_seq in H. specialize (H ltac:(lia)).
  apply andb_prop in H as [H Hle]. apply andb_prop in H as [Hsame Hup].
  split; [exact (same_eq _ _ Hsame) | auto].
Qed.

Lemma progressAfter_succ usePro n :
  progressAfter usePro (S n) = tick usePro (progressAfter usePro n).
Proof. unfold progressAfter. apply Nat.iter_succ. Qed.

Lemma until_stall usePro n :
  n <= stall usePro ->
  progressAfter usePro n =
    (if n <? stall usePro then halves (pace usePro * n) else of_Z 98).
Proof.
  induction n as [|n IH]; intros Hn.
  - now destruct usePro.
  - rewrite progressAfter_succ, IH by lia.
    destruct (Nat.ltb_spec n (stall usePro)) as [Hlt|]; [|lia].
    apply (step usePro n Hlt).
Qed.

Lemma after_stall usePro k : progressAfter usePro (stall usePro + k) = of_Z 98.
Proof.
  induction k as [|k IH].
  - rewrite Nat.add_0_r, until_stall by lia. now rewrite Nat.ltb_irrefl.
  - rewrite Nat.add_succ_r, progressAfter_succ, IH. reflexivity.
Qed.

(** X21: The progress bar: from 0 it rises by 2.5 a tick, by 0.5 with the Pro
model, strictly as long as it rises; it reaches 98 after 40 ticks, 196 with
the Pro model, and stays there; it never exceeds 98. *)
Theorem progress_rises_to_98_and_stalls (usePro : bool) (n : nat) :
  progressAfter usePro n =
    (if n <? stall usePro then halves (pace usePro * n) else of_Z 98) /\
  (n < stall usePro ->
   ltb (progressAfter usePro n) (progressAfter usePro (S n)) = true) /\
  geb (of_Z 98) (progressAfter usePro n) = true.
Proof.
  destruct (Nat.ltb_spec n (stall usePro)) as [Hlt | Hge].
  - destruct (step usePro n Hlt) as (_ & Hup & Hle).
    rewrite progressAfter_succ, until_stall by lia.
    destruct (Nat.ltb_spec n (stall usePro)) as [_|]; [auto | lia].
  - replace n with (stall usePro + (n - stall usePro)) by lia.
    rewrite after_stall. split; [reflexivity|]. split; [lia | reflexivity].
Qed.

End ProgressProofs.

(** ** The tools *)

Module ToolsProofs.
Local Open Scope nat_scope.

(** X22: The four tools resolve the same custom dimensions to the same aspect
ratio, and the generator and the logo designer to the same size tier,
whatever else their states hold, as soon as they send a request. *)
Theorem tools_agree_on_custom_dimensions
    (g : Generator.State) (f : FreeGenerator.State) (l : LogoDesigner.State)
    (e : Editor.State) (override : option jsstring)
    (numberToString : number -> jsstring)
    (sg sf sl : Generator.Sizing) (se : Editor.Request) :
  Generator.useCustomSize g = true ->
  LogoDesigner.useCustomSize l = true ->
  Editor.useCustomSize e = true ->
  (FreeGenerator.width f, FreeGenerator.height f)
  = (Generator.customWidth g, Generator.customHeight g) ->
  (LogoDesigner.customWidth l, LogoDesigner.customHeight l)
  = (Generator.customWidth g, Generator.customHeight g) ->
  (Editor.customWidth e, Editor.customHeight e)
  = (Generator.customWidth g, Generator.customHeight g) ->
  Generator.handleGenerate g = Some sg ->
  FreeGenerator.handleGenerate f = Some sf ->
  LogoDesigner.handleGenerate l = Some sl ->
  Editor.handleEdit numberToString override e = Some se ->
  Generator.finalAspectRatio sf = Generator.finalAspectRatio sg /\
  sl = sg /\
  Editor.aspectRatio se = Some (Generator.finalAspectRatio sg).
Proof.
  intros Hg Hl He [= Hfw Hfh] [= Hlw Hlh] [= Hew Heh].
  unfold Generator.handleGenerate, FreeGenerator.handleGenerate,
    LogoDesigner.handleGenerate, Editor.handleEdit.
  rewrite Hg, Hl, He, Hfw, Hfh, Hlw, Hlh, Hew, Heh.
  destruct (trim (Generator.prompt g)); [discriminate|]. intros [= <-].
  destruct (trim (FreeGenerator.prompt f)); [discriminate|]. intros [= <-].
  destruct (trim (LogoDesigner.brandName l)); [discriminate|]. intros [= <-].
  destruct (Editor.selectedImage e) as [[|? ?]|]; try discriminate.
  destruct (trim _); [discriminate|]. intros [= <-].
  repeat split.
Qed.

Lemma tools_agree_on_custom_dimensions_witness :
  Generator.finalAspectRatio
    {| Generator.finalAspectRatio := LANDSCAPE_16_9; Generator.finalSize := K1 |}
  = Generator.finalAspectRatio
      {| Generator.finalAspectRatio := LANDSCAPE_16_9; Generator.finalSize := K2 |} /\
  {| Generator.finalAspectRatio := LANDSCAPE_16_9; Generator.finalSize := K2 |}
  = {| Generator.finalAspectRatio := LANDSCAPE_16_9; Generator.finalSize := K2 |} /\
  Editor.aspectRatio
    {| Editor.promptToUse := js "make it blue";
       Editor.finalPrompt := js "make it blue Output Resolution: 1920x1080px.";
       Editor.aspectRatio := Some LANDSCAPE_16_9 |}
  = Some (Generator.finalAspectRatio
            {| Generator.finalAspectRatio := LANDSCAPE_16_9;
               Generator.finalSize := K2 |}).
Proof.
  apply (tools_agree_on_custom_dimensions
           {| Generator.prompt := js "a cat"; Generator.aspectRatio := SQUARE;
              Generator.size := K1; Generator.useCustomSize := true;
              Generator.customWidth := of_Z 1920;
              Generator.customHeight := of_Z 1080 |}
           {| FreeGenerator.prompt := js "a cat"; FreeGenerator.width := of_Z 1920;
              FreeGenerator.height := of_Z 1080 |}
           {| LogoDesigner.brandName := js "Lumina";
              LogoDesigner.additionalDetails := [];
              LogoDesigner.useCustomSize := true;
              LogoDesigner.customWidth := of_Z 1920;
              LogoDesigner.customHeight := of_Z 1080 |}
           {| Editor.selectedImage := Some (js "data:image/png;base64,AAAA");
              Editor.prompt := js "make it blue"; Editor.useCustomSize := true;
              Editor.customWidth := of_Z 1920; Editor.customHeight := of_Z 1080 |}
           None integer_text
           {| Generator.finalAspectRatio := LANDSCAPE_16_9; Generator.finalSize := K2 |}
           {| Generator.finalAspectRatio := LANDSCAPE_16_9; Generator.finalSize := K1 |}
           {| Generator.finalAspectRatio := LANDSCAPE_16_9; Generator.finalSize := K2 |}
           {| Editor.promptToUse := js "make it blue";
              Editor.finalPrompt := js "make it blue Output Resolution: 1920x1080px.";
              Editor.aspectRatio := Some LANDSCAPE_16_9 |});
    vm_compute; reflexivity.
Defined.

(** X23: In the logo designer and in the editor, dimensions written in the text
are treated as the same dimensions typed into the custom-size fields: the
same aspect ratio, and in the logo designer the same size tier; the editor
works from the same prompt in both cases. *)
Theorem stated_dimensions_are_treated_as_typed_ones
    (l l' : LogoDesigner.State) (e e' : Editor.State) (dims : Dimensions)
    (numberToString : number -> jsstring) :
  LogoDesigner.brandName l' = LogoDesigner.brandName l ->
  LogoDesigner.useCustomSize l = true ->
  (LogoDesigner.customWidth l, LogoDesigner.customHeight l)
  = (width dims, height dims) ->
  LogoDesigner.useCustomSize l' = false ->
  extractDimensionsFromPrompt (LogoDesigner.additionalDetails l') = Some dims ->
  Editor.selectedImage e' = Editor.selectedImage e ->
  Editor.prompt e' = Editor.prompt e ->
  Editor.useCustomSize e = true ->
  (Editor.customWidth e, Editor.customHeight e) = (width dims, height dims) ->
  Editor.useCustomSize e' = false ->
  extractDimensionsFromPrompt (Editor.prompt e') = Some dims ->
  LogoDesigner.handleGenerate l' = LogoDesigner.handleGenerate l /\
  option_map (fun r => (Editor.promptToUse r, Editor.aspectRatio r))
    (Editor.handleEdit numberToString None e')
  = option_map (fun r => (Editor.promptToUse r, Editor.aspectRatio r))
      (Editor.handleEdit numberToString None e).
Proof.
  intros Hb Hl [= Hlw Hlh] Hl' Hd He1 He2 He [= Hew Heh] He' Hd'.
  unfold LogoDesigner.handleGenerate, Editor.handleEdit.
  rewrite Hb, Hl, Hl', Hd, Hlw, Hlh, He1, He, He', Hew, Heh.
  rewrite He2 in Hd' |- *. rewrite Hd'. split; [reflexivity|].
  destruct (Editor.selectedImage e) as [[|? ?]|]; try reflexivity.
  destruct (trim (Editor.prompt e)); reflexivity.
Qed.

Lemma stated_dimensions_are_treated_as_typed_ones_witness :
  LogoDesigner.handleGenerate
    {| LogoDesigner.brandName := js "Lumina";
       LogoDesigner.additionalDetails := js "banner 800x600";
       LogoDesigner.useCustomSize := false;
       LogoDesigner.customWidth := of_Z 1024;
       LogoDesigner.customHeight := of_Z 1024 |}
  = LogoDesigner.handleGenerate
      {| LogoDesigner.brandName := js "Lumina";
         LogoDesigner.additionalDetails := [];
         LogoDesigner.useCustomSize := true;
         LogoDesigner.customWidth := of_Z 800;
         LogoDesigner.customHeight := of_Z 600 |}.
Proof.
  apply (stated_dimensions_are_treated_as_typed_ones
           {| LogoDesigner.brandName := js "Lumina";
              LogoDesigner.additionalDetails := [];
              LogoDesigner.useCustomSize := true;
              LogoDesigner.customWidth := of_Z 800;
              LogoDesigner.customHeight := of_Z 600 |}
           {| LogoDesigner.brandName := js "Lumina";
              LogoDesigner.additionalDetails := js "banner 800x600";
              LogoDesigner.useCustomSize := false;
              LogoDesigner.customWidth := of_Z 1024;
              LogoDesigner.customHeight := of_Z 1024 |}
           {| Editor.selectedImage := Some (js "data:image/png;base64,AAAA");
              Editor.prompt := js "resize to 800x600"; Editor.useCustomSize := true;
              Editor.customWidth := of_Z 800; Editor.customHeight := of_Z 600 |}
           {| Editor.selectedImage := Some (js "data:image/png;base64,AAAA");
              Editor.prompt := js "resize to 800x600"; Editor.useCustomSize := false;
              Editor.customWidth := of_Z 1024; Editor.customHeight := of_Z 1024 |}
           {| width := of_Z 800; height := of_Z 600 |} integer_text);
    vm_compute; reflexivity.
Defined.

(** X24: "Remove watermark" goes ahead as soon as an image is selected, whatever
the prompt field holds.  It works from its own prompt, which is the one
recorded; with the custom size on it passes that prompt followed by the
resolution asked for, and the closest aspect ratio; with the custom size
off it passes the prompt as it is, and no aspect ratio. *)
Theorem handleRemoveWatermark_needs_only_an_image
    (numberToString : number -> jsstring) (e : Editor.State) :
  (forall image, Editor.selectedImage e = Some image -> image <> [] ->
   Editor.handleRemoveWatermark numberToString e =
   Some {| Editor.promptToUse := Editor.watermarkPrompt;
           Editor.finalPrompt :=
             if Editor.useCustomSize e
             then Editor.watermarkPrompt ++ js " Output Resolution: "
                  ++ numberToString (Editor.customWidth e) ++ js "x"
                  ++ numberToString (Editor.customHeight e) ++ js "px."
             else Editor.watermarkPrompt;
           Editor.aspectRatio :=
             if Editor.useCustomSize e
             then Some (getClosestAspectRatio (Editor.customWidth e)
                          (Editor.customHeight e))
             else None |}) /\
  (Editor.selectedImage e = None \/ Editor.selectedImage e = Some [] ->
   Editor.handleRemoveWatermark numberToString e = None).
Proof.
  assert (Hdims : extractDimensionsFromPrompt Editor.watermarkPrompt = None)
    by (vm_compute; reflexivity).
  assert (Htrim : exists ch t, trim Editor.watermarkPrompt = ch :: t)
    by (vm_compute; eauto).
  destruct Htrim as (c0 & t0 & Htrim).
  assert (Hw : exists ch t, Editor.watermarkPrompt = ch :: t) by (vm_compute; eauto).
  destruct Hw as (c1 & t1 & Hw).
  unfold Editor.handleRemoveWatermark, Editor.handleEdit.
  rewrite Hw. cbv beta iota zeta. rewrite <- Hw, Htrim, Hdims. split.
  - intros image -> Hne. destruct image; [congruence|].
    destruct (Editor.useCustomSize e); reflexivity.
  - intros [-> | ->]; reflexivity.
Qed.

End ToolsProofs.

(** ** The chat *)

Module ChatProofs.
Import Service Enhance Chat.
Local Open Scope nat_scope.

(** X25: [handleSend] does nothing on a blank input or while a reply is
awaited.  Otherwise it calls the service with the former messages as
history and the input as typed, and appends two messages: the input, from
the user, and then the reply, or the text of the error, or an apology when
the error has none, from the model; it clears the input; and the two new
messages have different ids as long as the clock does not run backwards. *)
Theorem handleSend_appends_the_exchange
    (clock : nat -> N)
    (sendChatMessage : list (Role * jsstring) -> jsstring -> bool
                       -> Completion jsstring)
    (st : State) (w : Storage.World) :
  (trim (input st) = [] \/ isLoading st = true ->
   handleSend clock sendChatMessage st w = (Storage.Return st, w)) /\
  (trim (input st) <> [] -> isLoading st = false ->
   exists userMsg botMsg st',
     (handleSend clock sendChatMessage st w).1 = Storage.Return st' /\
     messages st' = messages st ++ [userMsg; botMsg] /\
     input st' = [] /\ isLoading st' = false /\
     role userMsg = user /\ text userMsg = input st /\
     role botMsg = model /\
     text botMsg =
       match sendChatMessage (map (fun m => (role m, text m)) (messages st))
               (input st) (thinkingMode st) with
       | Normal responseText => responseText
       | Thrown [] => APOLOGY
       | Thrown message => message
       end /\
     ((clock (Storage.ticks w) <= clock (S (S (Storage.ticks w))))%N ->
      id userMsg <> id botMsg)).
Proof.
  unfold handleSend. split.
  - intros [-> | ->]; [reflexivity|]. now destruct (trim (input st)).
  - intros Hin ->. destruct (trim (input st)) as [|c0 t0]; [congruence|].
    destruct w as [s tk tr]. cbn.
    eexists _, _, _. split; [reflexivity|]. cbn.
    repeat split. intros Hle E.
    apply StorageProofs.toString_inj in E. lia.
Qed.

End ChatProofs.
